(** * Commercial flight-profile sizing model and the contour sweep helper

    A shallow embedding of

    - [gpkitmodels/Commercial Sizing/Commerical_Flight_Profile.py]: the
      module-level segment counts and index lists, the variable
      declarations, the four constraint groups and the linked model;
    - [1682/solar_hale/plotting.py]: [poor_mans_contour].

    The Python source builds symbolic constraints with gpkit and index
    lists with numpy.  Both libraries are outside the repository; the few
    operations the source uses are modelled here next to the code that
    calls them (array indexing and broadcasting, [linspace],
    [te_exp_minus1], unit factors).  Floating-point numbers are modelled by
    exact rationals: every number the index computation meets is a small
    integer, which a double represents exactly. *)

From Stdlib Require Import ZArith QArith Reals Lra Lia List String.
From stdpp Require Import base option list gmap strings.

Set Default Proof Using "Type".

(** ** Python exceptions and results *)

Inductive exn :=
  | ValueError
  | IndexError
  | KeyError
  | SolverFailure.

Inductive result (A : Type) :=
  | OK (a : A)
  | Raise (e : exn).
Arguments OK {A} a.
Arguments Raise {A} e.

#[global] Instance result_ret : MRet result := fun A a => OK a.
#[global] Instance result_bind : MBind result := fun A B f m =>
  match m with
  | OK a => f a
  | Raise e => Raise e
  end.
#[global] Instance result_fmap : FMap result := fun A B f m =>
  match m with
  | OK a => OK (f a)
  | Raise e => Raise e
  end.

Definition fails {A} (m : result A) : Prop := exists e, m = Raise e.

(** [mapM]: run a fallible function over a list, left to right. *)
Fixpoint mapM {A B} (f : A -> result B) (l : list A) : result (list B) :=
  match l with
  | [] => OK []
  | x :: l' => y ← f x; ys ← mapM f l'; OK (y :: ys)
  end.

(** ** Python sequences *)

(** [l[i]]: a negative index counts from the end; out of range raises
    [IndexError]. *)
Definition getitem {A} (l : list A) (i : Z) : result A :=
  let n := Z.of_nat (length l) in
  let j := if (i <? 0)%Z then (i + n)%Z else i in
  if ((0 <=? j)%Z && (j <? n)%Z)%bool then
    match l !! Z.to_nat j with
    | Some x => OK x
    | None => Raise IndexError
    end
  else Raise IndexError.

Definition len {A} (l : list A) : Z := Z.of_nat (length l).

(** [range(lo, hi)] *)
Definition range (lo hi : Z) : list Z :=
  map (fun k => (lo + Z.of_nat k)%Z) (seq 0 (Z.to_nat (hi - lo))).

(** [min(l)] and [max(l)] raise [ValueError] on an empty sequence. *)
Definition py_min (l : list Z) : result Z :=
  match l with
  | [] => Raise ValueError
  | x :: l' => OK (fold_left Z.min l' x)
  end.

Definition py_max (l : list Z) : result Z :=
  match l with
  | [] => Raise ValueError
  | x :: l' => OK (fold_left Z.max l' x)
  end.

(** ** numpy *)

Module np.

Definition arange (num : Z) : list Q :=
  map (fun k => inject_Z (Z.of_nat k)) (seq 0 (Z.to_nat num)).

(** [y[-1] = v] *)
Fixpoint set_last (y : list Q) (v : Q) : list Q :=
  match y with
  | [] => []
  | [_] => [v]
  | x :: y' => x :: set_last y' v
  end.

(** [np.linspace(start, stop, num)] with the default [endpoint=True]:
    a negative [num] raises [ValueError]; otherwise [num] evenly spaced
    samples, the last one set to [stop] when there are at least two. *)
Definition linspace (start stop : Q) (num : Z) : result (list Q) :=
  if (num <? 0)%Z then Raise ValueError
  else
    let div := inject_Z (num - 1) in
    let y := arange num in
    let delta := (stop - start)%Q in
    let y :=
      if (1 <? num)%Z then map (fun v => v * (delta / div))%Q y
      else map (fun v => v * delta)%Q y in
    let y := map (fun v => v + start)%Q y in
    OK (if (1 <? num)%Z then set_last y stop else y).

End np.

(** [int(x)] on a float truncates toward zero. *)
Definition int (x : Q) : Z := Z.quot (Qnum x) (Z.pos (Qden x)).

(** ** Segment counts and index lists *)

(** The three counts the partial flight profile uses; the remaining
    phases are fixed at zero in the source. *)
Record counts := Counts {
  Nclimb1 : Z;
  Nclimb2 : Z;
  Ncruise2 : Z
}.

Definition Ntakeoff : Z := 0.
Definition Ntrans : Z := 0.
Definition Ncruise1 : Z := 0.
Definition Ncruiseclimb : Z := 0.
Definition Ndecent : Z := 0.
Definition Nlanding : Z := 0.
Definition Nresclimb : Z := 0.
Definition Nresdecent : Z := 0.
Definition Nreslanding : Z := 0.
Definition Nreshold : Z := 0.

(** The counts as the source sets them. *)
Definition source_counts : counts :=
  {| Nclimb1 := 3; Nclimb2 := 3; Ncruise2 := 3 |}.

Section Counts.
Variable c : counts.
Local Open Scope Z_scope.

Definition Nclimb : Z := Nclimb1 c + Nclimb2 c + Ncruiseclimb.
Definition Ncruise : Z := Ncruise1 + Ncruise2 c.
Definition Nres : Z := Nresclimb + Nresdecent + Nreslanding + Nreshold.
Definition Nseg : Z :=
  Nclimb + Ncruise + Nres + Ntakeoff + Ntrans + Ndecent + Nlanding.
End Counts.

Record indices := Indices {
  iclimb1 : list Z;
  iclimb2 : list Z;
  icruise2 : list Z;
  izbre : list Z
}.

(** [map(int, np.linspace(start, stop, num))] *)
Definition int_linspace (start stop num : Z) : result (list Z) :=
  map int <$> np.linspace (inject_Z start) (inject_Z stop) num.

(** The module-level index lists, in the order the source computes them. *)
Definition build_indices (c : counts) : result indices :=
  i1 ← int_linspace 0 (Nclimb1 c - 1) (Nclimb1 c);
  last1 ← getitem i1 (len i1 - 1);
  i2 ← int_linspace (last1 + 1) (Nclimb2 c + last1) (Nclimb2 c);
  last2 ← getitem i2 (len i2 - 1);
  i3 ← int_linspace (last2 + 1) (Ncruise2 c + last2) (Ncruise2 c);
  iz ← int_linspace 0 (Ncruise2 c - 1) (Ncruise2 c);
  OK {| iclimb1 := i1; iclimb2 := i2; icruise2 := i3; izbre := iz |}.

(** The index lists in closed form: each phase a run of consecutive slots,
    in the order climb 1, climb 2, cruise 2. *)
Definition index_lists (c : counts) : indices :=
  {| iclimb1 := range 0 (Nclimb1 c);
     iclimb2 := range (Nclimb1 c) (Nclimb1 c + Nclimb2 c);
     icruise2 := range (Nclimb1 c + Nclimb2 c) (Nclimb1 c + Nclimb2 c + Ncruise2 c);
     izbre := range 0 (Ncruise2 c) |}.

Definition disjoint (l1 l2 : list Z) : Prop :=
  forall i, In i l1 -> In i l2 -> False.

(** What is asked of the index lists: each phase is a contiguous, ordered
    run of slots, the runs follow each other in the fixed phase order, no
    two share a slot, together they hold as many slots as the counts add
    up to, and a phase of count zero has no slot. *)
Definition phase_ranges (c : counts) (ix : indices) : Prop :=
  (iclimb1 ix = range 0 (Nclimb1 c) /\
   iclimb2 ix = range (Nclimb1 c) (Nclimb1 c + Nclimb2 c) /\
   icruise2 ix =
     range (Nclimb1 c + Nclimb2 c) (Nclimb1 c + Nclimb2 c + Ncruise2 c)) /\
  (disjoint (iclimb1 ix) (iclimb2 ix) /\
   disjoint (iclimb1 ix) (icruise2 ix) /\
   disjoint (iclimb2 ix) (icruise2 ix)) /\
  NoDup (iclimb1 ix ++ iclimb2 ix ++ icruise2 ix) /\
  len (iclimb1 ix ++ iclimb2 ix ++ icruise2 ix)
    = (Nclimb1 c + Nclimb2 c + Ncruise2 c)%Z /\
  (Nclimb1 c = 0%Z -> iclimb1 ix = []) /\
  (Nclimb2 c = 0%Z -> iclimb2 ix = []) /\
  (Ncruise2 c = 0%Z -> icruise2 ix = []).

Definition index_builder_spec (c : counts) : Prop :=
  exists ix, build_indices c = OK ix /\ phase_ranges c ix.

(** ** Units

    The unit strings the source passes to gpkit, each with its factor to
    SI base units (as the unit registry gpkit uses defines them). *)

Inductive unit :=
  | u_none        (* '-' *)
  | u_m_s2        (* 'm/s^2' *)
  | u_J_kg_K      (* 'J/kg/K' *)
  | u_m_s         (* 'm/s' *)
  | u_kg_m3       (* 'kg/m^3' *)
  | u_kg_m_s      (* 'kg/m/s' *)
  | u_K           (* 'K' *)
  | u_feet        (* 'feet', 'ft' *)
  | u_m           (* 'm' *)
  | u_min         (* 'min' *)
  | u_hour        (* 'hour' *)
  | u_miles       (* 'miles' *)
  | u_lbf         (* 'lbf' *)
  | u_knots       (* 'knots', 'kts' *)
  | u_feet_min    (* 'feet/min' *)
  | u_lb_hr_lbf   (* 'lb/hr/lbf', 'lb/lbf/hr' *)
  | u_N           (* 'N' *)
  | u_m2.         (* 'm^2' *)

Definition factor (u : unit) : R :=
  match u with
  | u_feet => 3048 / 10000
  | u_min => 60
  | u_hour => 3600
  | u_miles => 1609344 / 1000
  | u_lbf => 44482216152605 / 10000000000000
  | u_knots => 1852 / 3600
  | u_feet_min => 3048 / 10000 / 60
  | u_lb_hr_lbf => 45359237 / 100000000 / 3600 / (44482216152605 / 10000000000000)
  | _ => 1
  end%R.

(** ** Declared quantities *)

(** Names of the vector variables ([VectorVariable]). *)
Module vec.
Inductive name :=
  | a | rho | mu | T
  | hft | dhft | h
  | tmin | thours
  | RngClimb | RngCruise
  | W_start | W_fuel | W_end
  | LD
  | V | M
  | RC | theta
  | z_bre
  | TSFC.
End vec.

(** Names of the scalar variables ([Variable]); the last three are local
    to a constraint group. *)
Module sca.
Inductive name :=
  | g | gamma | R
  | ReqRngCruise | ReqRng
  | W_e | W_ftotal | W_payload | W_total
  | LDmax | Cd0 | K
  | S
  | Vstall
  | c1
  | thrust
  | alt10k | alt1k
  | climbspeed.
End sca.

Inductive varkey :=
  | Scalar (s : sca.name)
  | Elem (v : vec.name) (i : nat).

Definition vec_units (v : vec.name) : unit :=
  match v with
  | vec.a => u_m_s
  | vec.rho => u_kg_m3
  | vec.mu => u_kg_m_s
  | vec.T => u_K
  | vec.hft => u_feet
  | vec.dhft => u_feet
  | vec.h => u_m
  | vec.tmin => u_min
  | vec.thours => u_hour
  | vec.RngClimb => u_miles
  | vec.RngCruise => u_miles
  | vec.W_start => u_lbf
  | vec.W_fuel => u_lbf
  | vec.W_end => u_lbf
  | vec.LD => u_none
  | vec.V => u_knots
  | vec.M => u_none
  | vec.RC => u_feet_min
  | vec.theta => u_none
  | vec.z_bre => u_none
  | vec.TSFC => u_lb_hr_lbf
  end.

Definition sca_units (s : sca.name) : unit :=
  match s with
  | sca.g => u_m_s2
  | sca.gamma => u_none
  | sca.R => u_J_kg_K
  | sca.ReqRngCruise => u_miles
  | sca.ReqRng => u_miles
  | sca.W_e => u_lbf
  | sca.W_ftotal => u_lbf
  | sca.W_payload => u_lbf
  | sca.W_total => u_lbf
  | sca.LDmax => u_none
  | sca.Cd0 => u_none
  | sca.K => u_none
  | sca.S => u_m2
  | sca.Vstall => u_knots
  | sca.c1 => u_lb_hr_lbf
  | sca.thrust => u_N
  | sca.alt10k => u_feet
  | sca.alt1k => u_feet
  | sca.climbspeed => u_knots
  end.

(** The value a [Variable] is declared with, if any: gpkit holds the
    variable at that value (in the variable's own unit). *)
Definition sca_value (s : sca.name) : option Q :=
  match s with
  | sca.g => Some (981 # 100)
  | sca.gamma => Some (14 # 10)
  | sca.R => Some (287 # 1)
  | sca.ReqRng => Some (3000 # 1)
  | sca.LDmax => Some (15 # 1)
  | sca.Cd0 => Some (25 # 1000)
  | sca.K => Some (9 # 10)
  | sca.S => Some (12458 # 100)
  | sca.Vstall => Some (120 # 1)
  | sca.c1 => Some (2 # 1)
  | sca.thrust => Some (87000 # 1)
  | sca.alt10k => Some (10000 # 1)
  | sca.alt1k => Some (1500 # 1)
  | sca.climbspeed => Some (250 # 1)
  | _ => None
  end.

Definition units_of (x : varkey) : unit :=
  match x with
  | Scalar s => sca_units s
  | Elem v _ => vec_units v
  end.

(** The length each [VectorVariable] is declared with. *)
Definition vec_len (c : counts) (v : vec.name) : Z :=
  match v with
  | vec.dhft | vec.RngClimb => Nclimb c
  | vec.RngCruise => Ncruise2 c + Ncruise1
  | _ => Nseg c
  end%Z.

(** ** Expressions and constraints *)

Inductive expr :=
  | ENum (q : Q)                 (* a bare Python number *)
  | EQty (q : Q) (u : unit)      (* [q*units('u')] *)
  | EVar (x : varkey)
  | EAdd (e1 e2 : expr)
  | EMul (e1 e2 : expr)
  | EDiv (e1 e2 : expr)
  | EPow (e : expr) (n : nat)    (* [e**n], [n] a Python int *)
  | EPowF (e : expr) (p : Q).    (* [e**p], [p] a Python float *)

Inductive rel := Eq | Le | Ge.

Record atom := Atom { lhs : expr; op : rel; rhs : expr }.

(** What a comparison returns: one constraint, or an array of them when an
    operand is an array. *)
Inductive cvalue :=
  | One (k : atom)
  | Many (ks : list atom).

(** An entry of a model's constraint list: a comparison result, or a
    [TightConstraintSet] wrapping a list of them. *)
Inductive constraint :=
  | Plain (cv : cvalue)
  | TCS (body : list cvalue).

Record model := Model {
  cost : option expr;
  constraints : list constraint
}.

(** A Python value in an expression: a single expression or an array. *)
Inductive value :=
  | Sc (e : expr)
  | Arr (es : list expr).

(** numpy broadcasting of a binary operation over one-dimensional
    operands: equal lengths go elementwise, a length-one array is
    stretched, any other mismatch raises. *)
Definition broadcast {A B} (f : A -> A -> B) (xs ys : list A) : result (list B) :=
  if (length xs =? length ys)%nat then OK (zip_with f xs ys)
  else match xs, ys with
       | [x], _ => OK (map (f x) ys)
       | _, [y] => OK (map (fun x => f x y) xs)
       | _, _ => Raise ValueError
       end.

Definition binop (f : expr -> expr -> expr) (x y : value) : result value :=
  match x, y with
  | Sc e1, Sc e2 => OK (Sc (f e1 e2))
  | Sc e1, Arr ys => OK (Arr (map (f e1) ys))
  | Arr xs, Sc e2 => OK (Arr (map (fun e1 => f e1 e2) xs))
  | Arr xs, Arr ys => Arr <$> broadcast f xs ys
  end.

Definition unop (f : expr -> expr) (x : value) : value :=
  match x with
  | Sc e => Sc (f e)
  | Arr xs => Arr (map f xs)
  end.

Definition compare (r : rel) (x y : value) : result cvalue :=
  match x, y with
  | Sc e1, Sc e2 => OK (One (Atom e1 r e2))
  | Sc e1, Arr ys => OK (Many (map (fun e2 => Atom e1 r e2) ys))
  | Arr xs, Sc e2 => OK (Many (map (fun e1 => Atom e1 r e2) xs))
  | Arr xs, Arr ys => Many <$> broadcast (fun e1 e2 => Atom e1 r e2) xs ys
  end.

(** Operators on possibly-failing operands: the left operand is evaluated
    first, as Python does. *)
Definition op2 (f : expr -> expr -> expr) (x y : result value) : result value :=
  x' ← x; y' ← y; binop f x' y'.

Definition cmp (r : rel) (x y : result value) : result constraint :=
  x' ← x; y' ← y; Plain <$> compare r x' y'.

(** [TCS([k])] *)
Definition tight (k : result constraint) : result constraint :=
  k' ← k;
  match k' with
  | Plain cv => OK (TCS [cv])
  | TCS body => OK (TCS body)
  end.

Declare Scope gp_scope.
Delimit Scope gp_scope with gp.
Notation "x + y" := (op2 EAdd x y) : gp_scope.
Notation "x * y" := (op2 EMul x y) : gp_scope.
Notation "x / y" := (op2 EDiv x y) : gp_scope.
Notation "x ** n" := (unop (fun e => EPow e n) <$> x)
  (at level 30, right associativity) : gp_scope.
Notation "x **. p" := (unop (fun e => EPowF e p) <$> x)
  (at level 30, right associativity) : gp_scope.
Notation "x == y" := (cmp Eq x y) (at level 70, no associativity) : gp_scope.
Notation "x <= y" := (cmp Le x y) : gp_scope.
Notation "x >= y" := (cmp Ge x y) : gp_scope.

(** A bare number, a number with units, a scalar variable. *)
Definition num (q : Q) : result value := OK (Sc (ENum q)).
Definition qty (q : Q) (u : unit) : result value := OK (Sc (EQty q u)).
Definition var (s : sca.name) : result value := OK (Sc (EVar (Scalar s))).

(** [VectorVariable(n, ...)]: an array of [n] variables. *)
Definition VectorVariable (n : Z) (v : vec.name) : list expr :=
  map (fun i => EVar (Elem v i)) (seq 0 (Z.to_nat n)).

(** [x[i]] and [x[idx]] for an index list (numpy fancy indexing). *)
Definition at_ (x : list expr) (i : Z) : result value := Sc <$> getitem x i.
Definition at_list (x : list expr) (idx : list Z) : result value :=
  Arr <$> mapM (getitem x) idx.

(** [sum(x)] starts from the integer zero. *)
Definition py_sum (x : list expr) : result value :=
  OK (Sc (fold_left EAdd x (ENum 0))).

(** [gpkit.tools.te_exp_minus1(posy, nterm)]: Taylor expansion of
    [e^posy - 1]. *)
Definition te_exp_minus1_expr (posy : expr) (nterm : nat) : expr :=
  fst (fold_left
         (fun '(res, factorial_denom) i =>
            let factorial_denom := (factorial_denom * Z.of_nat i)%Z in
            (EAdd res (EDiv (EPow posy i) (ENum (inject_Z factorial_denom))),
             factorial_denom))
         (seq 1 nterm) (ENum 0, 1%Z)).

Definition te_exp_minus1 (posy : result value) (nterm : nat) : result value :=
  if (nterm <? 1)%nat then Raise ValueError
  else unop (fun e => te_exp_minus1_expr e nterm) <$> posy.

(** [constraints.extend([k1, k2, ...])]: the list elements are evaluated in
    order, then appended. *)
Definition extend (cs : list constraint) (new : list (result constraint))
  : result (list constraint) :=
  ks ← mapM (fun k => k) new; OK (cs ++ ks).

(** [for i in l: s = body(i, s)] *)
Fixpoint for_ {I St} (l : list I) (body : I -> St -> result St) (s : St) : result St :=
  match l with
  | [] => OK s
  | i :: l' => s' ← body i s; for_ l' body s'
  end.

(** ** The constraint groups

    Each class of the source builds its constraint list and hands it to
    [Model.__init__] with its cost.  Building can raise (an index out of
    range, arrays of different lengths), so each group is a [result]. *)

Section Groups.
Variable c : counts.
Variable ix : indices.

(** The module-level vector variables, each with its declared length. *)
Definition vector (v : vec.name) : list expr := VectorVariable (vec_len c v) v.
Definition whole (v : vec.name) : result value := OK (Arr (vector v)).

Local Notation "v .[ i ]" := (at_ (vector v) i%Z)
  (at level 1, left associativity, format "v .[ i ]").
Local Notation "v .[[ idx ]]" := (at_list (vector v) idx)
  (at level 1, left associativity, format "v .[[ idx ]]").
Local Notation "$ s" := (var s) (at level 1, format "$ s").
Local Open Scope gp_scope.

(** General constraints that apply across the mission. *)
Definition CommericalMissionConstraints : result model :=
  let alt10k := $sca.alt10k in
  let iclimb1 := iclimb1 ix in
  let icruise2 := icruise2 ix in
  constraints ← extend [] [
    (* speed of sound *)
    whole vec.a == ($sca.gamma * $sca.R * whole vec.T) **. (1 # 2);
    (* convert m to ft *)
    whole vec.hft == whole vec.h;
    (* convert min to hours *)
    whole vec.tmin == whole vec.thours;
    (* constraints on the various weights *)
    tight ($sca.W_e + $sca.W_payload + $sca.W_ftotal <= $sca.W_total);
    vec.W_start.[0] == $sca.W_total;
    tight ($sca.W_e + $sca.W_payload <= vec.W_end.[Nseg c - 1]);
    tight ($sca.W_ftotal >= py_sum (vector vec.W_fuel));
    (* altitude at end of climb segment 1 *)
    vec.hft.[Ntakeoff + Nclimb1 c - 1] == alt10k;
    (* range constraints *)
    tight (py_sum (vector vec.RngClimb) + py_sum (vector vec.RngCruise)
           >= $sca.ReqRng);
    tight ($sca.ReqRngCruise >= py_sum (vector vec.RngCruise));
    (* altitude matching constraints *)
    vec.hft.[[icruise2]] == vec.hft.[Nclimb c - 1]
  ];
  (* constrain the segment weights in a loop *)
  constraints ← for_ (range 1 (Nseg c)) (fun i constraints =>
    extend constraints [
      vec.W_start.[i] == vec.W_end.[i - 1]
    ]) constraints;
  constraints ← for_ (range 0 (Nseg c)) (fun i constraints =>
    extend constraints [
      tight (vec.W_start.[i] >= vec.W_end.[i] + vec.W_fuel.[i])
    ]) constraints;
  OK (Model (Some (EVar (Scalar sca.W_total))) constraints).

(** The climb below 10,000 ft. *)
Definition Climb1 : result model :=
  let climbspeed := $sca.climbspeed in
  let iclimb1 := iclimb1 ix in
  constraints ← extend [] [
    (* set the velocity limits *)
    vec.V.[[iclimb1]] <= climbspeed;
    vec.V.[[iclimb1]] >= $sca.Vstall;
    (* climb rate constraints *)
    tight (vec.RC.[[iclimb1]]
           + num (1 # 2) * (vec.V.[[iclimb1]] ** 3) * vec.rho.[[iclimb1]] * $sca.S
             / vec.W_start.[[iclimb1]] * $sca.Cd0
           + vec.W_start.[[iclimb1]] / $sca.S * num 2 * $sca.K
             / vec.rho.[[iclimb1]] / vec.V.[[iclimb1]]
           <= vec.V.[[iclimb1]] * $sca.thrust / vec.W_start.[[iclimb1]]);
    (* make the small angle approximation and compute theta *)
    vec.theta.[[iclimb1]] * vec.V.[[iclimb1]] == vec.RC.[[iclimb1]];
    vec.dhft.[[iclimb1]] == vec.tmin.[[iclimb1]] * vec.RC.[[iclimb1]];
    (* takes into account two terms of a cosine expansion *)
    tight (vec.RngClimb.[[iclimb1]]
           + num (1 # 2) * vec.thours.[[iclimb1]] * vec.V.[[iclimb1]]
             * vec.theta.[[iclimb1]] ** 2
           <= vec.thours.[[iclimb1]] * vec.V.[[iclimb1]]);
    (* compute fuel burn from TSFC *)
    vec.W_fuel.[[iclimb1]]
      == $sca.g * vec.TSFC.[[iclimb1]] * vec.thours.[[iclimb1]] * $sca.thrust
  ];
  constraints ← for_ (range 0 (Nclimb c)) (fun i constraints =>
    if (i =? 0)%Z then
      extend constraints [
        tight (vec.hft.[i] <= qty 1500 u_feet + vec.dhft.[i])
      ]
    else
      extend constraints [
        tight (vec.hft.[i] <= vec.hft.[i - 1] + vec.dhft.[i])
      ]) constraints;
  OK (Model None constraints).

(** The climb above 10,000 ft. *)
Definition Climb2 : result model :=
  let iclimb2 := iclimb2 ix in
  constraints ← extend [] [
    (* set the velocity limits *)
    vec.V.[[iclimb2]] <= qty 500 u_knots;
    vec.V.[[iclimb2]] >= $sca.Vstall;
    (* climb rate constraints *)
    tight (vec.RC.[[iclimb2]]
           + num (1 # 2) * (vec.V.[[iclimb2]] ** 3) * vec.rho.[[iclimb2]] * $sca.S
             / vec.W_start.[[iclimb2]] * $sca.Cd0
           + vec.W_start.[[iclimb2]] / $sca.S * num 2 * $sca.K
             / vec.rho.[[iclimb2]] / vec.V.[[iclimb2]]
           <= vec.V.[[iclimb2]] * $sca.thrust / vec.W_start.[[iclimb2]]);
    (* make the small angle approximation and compute theta *)
    vec.theta.[[iclimb2]] * vec.V.[[iclimb2]] == vec.RC.[[iclimb2]];
    vec.dhft.[[iclimb2]] == vec.tmin.[[iclimb2]] * vec.RC.[[iclimb2]];
    (* takes into account two terms of a cosine expansion *)
    tight (vec.RngClimb.[[iclimb2]]
           + num (1 # 2) * vec.thours.[[iclimb2]] * vec.V.[[iclimb2]]
             * vec.theta.[[iclimb2]] ** 2
           <= vec.thours.[[iclimb2]] * vec.V.[[iclimb2]]);
    (* compute fuel burn from TSFC *)
    vec.W_fuel.[[iclimb2]]
      == $sca.g * vec.TSFC.[[iclimb2]] * vec.thours.[[iclimb2]] * $sca.thrust
  ];
  OK (Model None constraints).

(** The second cruise portion: a discretized Breguet range equation. *)
Definition Cruise2 : result model :=
  let iclimb1 := iclimb1 ix in
  let iclimb2 := iclimb2 ix in
  let icruise2 := icruise2 ix in
  let izbre := izbre ix in
  constraints ← extend [] [
    (* constrain the climb rate by holding altitude constant *)
    vec.hft.[[icruise2]] == qty 35000 u_feet;
    (* taylor series expansion to get the weight term *)
    tight (vec.W_fuel.[[icruise2]] / vec.W_end.[[icruise2]]
           >= te_exp_minus1 vec.z_bre.[[izbre]] 3);
    (* breguet range eqn *)
    tight (vec.RngCruise.[[izbre]]
           <= vec.z_bre.[[izbre]] * vec.LD.[[icruise2]] * vec.V.[[icruise2]]
              / (vec.TSFC.[[icruise2]] * $sca.g));
    (* time *)
    vec.thours.[[icruise2]] * vec.V.[[icruise2]] == vec.RngCruise.[[izbre]]
  ];
  (* constraint on the aircraft meeting the required range *)
  lo ← py_min izbre;
  hi ← py_max izbre;
  constraints ← for_ (range lo (hi + 1)) (fun i constraints =>
    extend constraints [
      tight (vec.RngCruise.[i]
             >= num (inject_Z (i + 1)) * $sca.ReqRngCruise / num (inject_Z (Nseg c)))
    ]) constraints;
  constraints ← extend constraints [
    (* substitue these values later *)
    vec.TSFC.[[icruise2]] == qty (14 # 10) u_lb_hr_lbf;
    vec.LD.[[icruise2]] == num 10;
    vec.V.[[icruise2]] == qty 420 u_knots;
    vec.TSFC.[[iclimb2]] == $sca.c1;
    vec.rho.[[iclimb2]] == qty (1225 # 1000) u_kg_m3;
    vec.TSFC.[[iclimb1]] == $sca.c1;
    vec.rho.[[iclimb1]] == qty (1225 # 1000) u_kg_m3;
    $sca.W_e == qty 40000 u_N;
    $sca.W_payload == qty 400000 u_N;
    whole vec.T == qty 273 u_K
  ];
  OK (Model None constraints).

(** [LinkedConstraintSet]: the constraints of all submodels, with
    variables of the same name shared between them. *)
Definition LinkedConstraintSet (submodels : list model) : list constraint :=
  concat (map constraints submodels).

(** The class that links all models needed to simulate the flight. *)
Definition CommercialAircraft : result model :=
  cmc ← CommericalMissionConstraints;
  climb1 ← Climb1;
  climb2 ← Climb2;
  c2 ← Cruise2;
  let submodels := [cmc; climb1; climb2; c2] in
  let lc := LinkedConstraintSet submodels in
  OK (Model (cost cmc) lc).

End Groups.

(** The script: the module-level index lists are built first, then the
    linked model, then the solver runs. *)
Definition main {Sol} (localsolve : model -> result Sol) (c : counts) : result Sol :=
  ix ← build_indices c;
  m ← CommercialAircraft c ix;
  localsolve m.

(** ** Solutions and feasibility

    A solution gives every variable a magnitude in the variable's own unit
    (what [sol('hft')] returns).  Expressions are compared in SI units. *)

Definition solution := varkey -> R.

Fixpoint eval (sol : solution) (e : expr) : R :=
  match e with
  | ENum q => Q2R q
  | EQty q u => Q2R q * factor u
  | EVar x => sol x * factor (units_of x)
  | EAdd e1 e2 => eval sol e1 + eval sol e2
  | EMul e1 e2 => eval sol e1 * eval sol e2
  | EDiv e1 e2 => eval sol e1 / eval sol e2
  | EPow e n => eval sol e ^ n
  | EPowF e p => Rpower (eval sol e) (Q2R p)
  end%R.

Definition holds (sol : solution) (k : atom) : Prop :=
  match op k with
  | Eq => eval sol (lhs k) = eval sol (rhs k)
  | Le => (eval sol (lhs k) <= eval sol (rhs k))%R
  | Ge => (eval sol (lhs k) >= eval sol (rhs k))%R
  end.

Definition cvalue_atoms (cv : cvalue) : list atom :=
  match cv with
  | One k => [k]
  | Many ks => ks
  end.

Definition constraint_atoms (k : constraint) : list atom :=
  match k with
  | Plain cv => cvalue_atoms cv
  | TCS body => concat (map cvalue_atoms body)
  end.

Definition atoms (m : model) : list atom :=
  concat (map constraint_atoms (constraints m)).

(** The variables an expression, a constraint, a model mentions. *)
Fixpoint expr_vars (e : expr) : list varkey :=
  match e with
  | ENum _ | EQty _ _ => []
  | EVar x => [x]
  | EAdd e1 e2 | EMul e1 e2 | EDiv e1 e2 => expr_vars e1 ++ expr_vars e2
  | EPow e _ | EPowF e _ => expr_vars e
  end.

Definition atom_vars (k : atom) : list varkey :=
  expr_vars (lhs k) ++ expr_vars (rhs k).

Definition vars (m : model) : list varkey :=
  concat (map atom_vars (atoms m)).

(** A plain inequality and one in a tight set ask the same of a solution:
    tightness is only checked on the optimum the solver returns. *)
Definition satisfies (sol : solution) (m : model) : Prop :=
  Forall (holds sol) (atoms m).

(** The variables of a model that were declared with a value are held at
    it. *)
Definition substituted (sol : solution) (m : model) : Prop :=
  forall s q, In (Scalar s) (vars m) -> sca_value s = Some q ->
              sol (Scalar s) = Q2R q.

(** Variables of a geometric program are strictly positive. *)
Definition positive (sol : solution) : Prop := forall x, (0 < sol x)%R.

Definition feasible (sol : solution) (m : model) : Prop :=
  positive sol /\ satisfies sol m /\ substituted sol m.

(** The cruise range flown through cruise segment [k]:
    [RngCruise[0] + ... + RngCruise[k]]. *)
Fixpoint cumulative_cruise_range (sol : solution) (k : nat) : R :=
  match k with
  | O => sol (Elem vec.RngCruise 0)
  | S k' => cumulative_cruise_range sol k' + sol (Elem vec.RngCruise k)
  end%R.

(** A model has a constraint as a plain entry (alone or as an element of an
    array of constraints), or inside a tight set. *)
Definition has_plain (m : model) (k : atom) : Prop :=
  exists cv, In (Plain cv) (constraints m) /\ In k (cvalue_atoms cv).

Definition has_tight (m : model) (k : atom) : Prop :=
  exists body cv,
    In (TCS body) (constraints m) /\ In cv body /\ In k (cvalue_atoms cv).

(** [v[0] + ... + v[n-1]] in a solution. *)
Fixpoint vsum (sol : solution) (v : vec.name) (n : nat) : R :=
  match n with
  | O => 0
  | S n' => vsum sol v n' + sol (Elem v n')
  end%R.

(** The climb-rate constraint of climb segment [i], as both climb groups
    write it:
    [RC + 0.5*V**3*rho*S/W_start*Cd0 + W_start/S*2*K/rho/V <= V*thrust/W_start]. *)
Definition climb_rate (i : nat) : atom :=
  let X v := EVar (Elem v i) in
  let s x := EVar (Scalar x) in
  Atom (EAdd
          (EAdd (X vec.RC)
             (EMul
                (EDiv
                   (EMul (EMul (EMul (ENum (1 # 2)) (EPow (X vec.V) 3)) (X vec.rho))
                         (s sca.S))
                   (X vec.W_start))
                (s sca.Cd0)))
          (EDiv
             (EDiv
                (EMul (EMul (EDiv (X vec.W_start) (s sca.S)) (ENum 2)) (s sca.K))
                (X vec.rho))
             (X vec.V)))
       Le
       (EDiv (EMul (X vec.V) (s sca.thrust)) (X vec.W_start)).

(** The variables some constraint of the linked model mentions: every
    scalar but [LDmax] and [alt1k]; no entry of [mu] and [M]; of the other
    arrays the entries of the segments whose constraints use them. *)
Definition mentioned (c : counts) (x : varkey) : bool :=
  match x with
  | Scalar sca.LDmax | Scalar sca.alt1k => false
  | Scalar _ => true
  | Elem v i =>
      let i := Z.of_nat i in
      match v with
      | vec.mu | vec.M => false
      | vec.rho | vec.RC | vec.theta | vec.dhft | vec.RngClimb => (i <? Nclimb c)%Z
      | vec.LD => ((Nclimb c <=? i)%Z && (i <? Nseg c)%Z)%bool
      | vec.z_bre | vec.RngCruise => (i <? Ncruise2 c)%Z
      | _ => (i <? Nseg c)%Z
      end
  end.

(** C10 in the spec's words: [z_bre] has [Nseg] entries; the constraints
    mention it only at the slots of [izbre = [0, Ncruise2)]; these are
    slots of climb phase 1 and not cruise slots; and the entries from
    [Ncruise2] to [Nseg - 1] are in no constraint. *)
Definition z_bre_slots_spec (c : counts) (ix : indices) (L : model) : Prop :=
  len (vector c vec.z_bre) = Nseg c /\
  izbre ix = range 0 (Ncruise2 c) /\
  (forall j : nat, In (Elem vec.z_bre j) (vars L) -> In (Z.of_nat j) (izbre ix)) /\
  (forall s : Z, In s (izbre ix) -> In s (iclimb1 ix) /\ ~ In s (icruise2 ix)) /\
  (forall j : nat, (Ncruise2 c <= Z.of_nat j < Nseg c)%Z ->
                   ~ In (Elem vec.z_bre j) (vars L)).

(** The model a successful construction returns. *)
Definition built (r : result model) : model :=
  match r with
  | OK m => m
  | Raise _ => Model None []
  end.

(** The index lists and the linked model of the counts the source sets. *)
Definition source_indices : indices := index_lists source_counts.

Definition source_model : model :=
  built (CommercialAircraft source_counts source_indices).

(** A positive solution of the constraints of [source_model], to show that
    they can be met together.  It holds every variable at its declared
    value except [K], which it takes a thousand times smaller: with the
    declared [K] the climb-rate constraint of the first segment cannot be
    met at the weights the mission fixes ([source_model_infeasible]). *)
Definition lbf : R := (44482216152605 / 10000000000000)%R.

Definition climb_fuel : R :=
  (981 / 100 * (2 * (45359237 / 100000000 / 3600 / lbf)) * (5 / 3 * 3600)
   * 87000 / lbf)%R.

Definition cruise_hours (rng : R) : R :=
  (rng * (1609344 / 1000) / (420 * 1852))%R.

Definition example_solution : solution := fun x =>
  match x with
  | Scalar s =>
      match s with
      | sca.g => 981 / 100
      | sca.gamma => 14 / 10
      | sca.R => 287
      | sca.ReqRngCruise => 3000
      | sca.ReqRng => 3000
      | sca.W_e => 40000 / lbf
      | sca.W_payload => 400000 / lbf
      | sca.W_ftotal => 1100000
      | sca.W_total => 1220000
      | sca.LDmax => 15
      | sca.Cd0 => 25 / 1000
      | sca.K => 9 / 10000
      | sca.S => 12458 / 100
      | sca.Vstall => 120
      | sca.c1 => 2
      | sca.thrust => 87000
      | sca.alt10k => 10000
      | sca.alt1k => 1500
      | sca.climbspeed => 250
      end
  | Elem v i =>
      let climb := (i <? 6)%nat in
      let rng := nth i [500; 1000; 1500] 1 in
      let rng_seg := nth (i - 6) [500; 1000; 1500] 1 in
      let hft := nth i [5000; 8000; 10000; 20000; 30000; 35000; 35000; 35000; 35000]
                     35000 in
      let W_end := nth i [1150000; 1080000; 1010000; 940000; 870000; 800000;
                          400000; 200000; 100000] 100000 in
      let W_fuel := if climb then climb_fuel else W_end in
      match v with
      | vec.a => Rpower (14 / 10 * 287 * 273) (1 / 2)
      | vec.rho => 1225 / 1000
      | vec.mu => 1
      | vec.T => 273
      | vec.hft => hft
      | vec.dhft => 10000
      | vec.h => hft * (3048 / 10000)
      | vec.tmin => if climb then 100 else 60 * cruise_hours rng_seg
      | vec.thours => if climb then 5 / 3 else cruise_hours rng_seg
      | vec.RngClimb => 100
      | vec.RngCruise => rng
      | vec.W_start => nth i [1220000; 1150000; 1080000; 1010000; 940000; 870000;
                              800000; 400000; 200000] 200000
      | vec.W_fuel => W_fuel
      | vec.W_end => W_end
      | vec.LD => 10
      | vec.V => if climb then 250 else 420
      | vec.M => 1
      | vec.RC => 100
      | vec.theta => 100 * (3048 / 10000 / 60) / (250 * (1852 / 3600))
      | vec.z_bre => 1 / 2
      | vec.TSFC => if climb then 2 else 14 / 10
      end
  end%R.

(** ** The contour sweep helper ([plotting.py]) *)

Module plotting.

(** A value of the substitution mapping: a number, or a sweep over a
    sequence of numbers. *)
Inductive subst :=
  | Fixed (v : Q)
  | Sweep (vs : list Q).

(** What [model[name]] gives: the label and the unit string. *)
Record descr := Descr { label : string; units : string }.

Record gpmodel := GpModel {
  substitutions : gmap string subst;
  variables : gmap string descr
}.

(** A solved sweep: [sol(name)] is an array, or raises [KeyError]. *)
Definition sweepsol := gmap string (list Q).

Inductive legend_label :=
  | SweepLabel (zvarname : string) (val : Q)   (* "%s: %s" % (zvarname, val) *)
  | RefLabel (name : option string).

Record line := Line {
  xdata : list Q;
  ydata : list Q;
  line_label : legend_label
}.

(** What the function has asked of matplotlib for the axes: the lines it
    plotted, the labels it set, the argument of its last [set_ylim] call,
    the handles it passed to [plt.legend] and the number of its
    [plt.grid()] calls.  What a matplotlib release then displays (it
    widens equal limits, a bare [plt.grid()] toggles the grid, a legend
    leaves out unnamed handles) is not part of the model. *)
Record axes := Axes {
  lines : list line;
  xlabel : option (string * string);   (* label and unit string *)
  ylabel : option (string * string);
  set_ylim : option (Q * Q);
  legend_handles : list line;
  grid_calls : nat
}.

Definition new_axes : axes :=
  {| lines := []; xlabel := None; ylabel := None; set_ylim := None;
     legend_handles := []; grid_calls := 0 |}.

(** [d[key]] on a dict raises [KeyError] for a missing key. *)
Definition dict_get {A} (d : gmap string A) (key : string) : result A :=
  match d !! key with
  | Some v => OK v
  | None => Raise KeyError
  end.

(** [model.substitutions.update({name: v})] *)
Definition update (m : gpmodel) (name : string) (v : subst) : gpmodel :=
  {| substitutions := <[name := v]> (substitutions m);
     variables := variables m |}.

(** [ax.plot(x, y, ...)]: the two arrays must have the same length. *)
Definition plot (ax : axes) (x y : list Q) (lbl : legend_label)
  : result (line * axes) :=
  if (length x =? length y)%nat then
    let l := Line x y lbl in
    OK (l, {| lines := lines ax ++ [l]; xlabel := xlabel ax;
              ylabel := ylabel ax; set_ylim := set_ylim ax;
              legend_handles := legend_handles ax;
              grid_calls := grid_calls ax |})
  else Raise ValueError.

Definition is_zero (q : Q) : bool := (Qnum q =? 0)%Z.

(** Truth of an optional number: [None] and zero are false. *)
Definition truthy (v : option Q) : bool :=
  match v with
  | Some q => negb (is_zero q)
  | None => false
  end.

Section Contour.
(** [model.solve("mosek", skipsweepfailures=True)]: the external
    solver; it may fail, and it is free to change the model. *)
Variable solve : gpmodel -> result (sweepsol * gpmodel).

(** The loop body of [poor_mans_contour]; the state is the model, the
    axes and the list of lines. *)
Definition sweep_step (xvarname zvarname yvarname : string) (val : Q)
    (st : gpmodel * axes * list line) : result (gpmodel * axes * list line) :=
  let '(model, ax, lines) := st in
  let model := update model zvarname (Fixed val) in
  '(sol, model) ← solve model;
  xs ← dict_get sol xvarname;
  ys ← dict_get sol yvarname;
  '(l, ax) ← plot ax xs ys (SweepLabel zvarname val);
  OK (model, ax, lines ++ [l]).

Definition poor_mans_contour (model : gpmodel)
    (xvarname : string) (xsweep : list Q)
    (zvarname : string) (zsweep : list Q)
    (yvarname : string) (ylimits : list Q)
    (vref : option Q) (vrefname : option string)
    (href : option Q) (hrefname : option string)
  : result (axes * gpmodel) :=
  (* save old substitutions *)
  x_old ← dict_get (substitutions model) xvarname;
  z_old ← dict_get (substitutions model) zvarname;
  (* substitute in new variables *)
  let model := update model xvarname (Sweep xsweep) in
  (* create figure *)
  let ax := new_axes in
  let lines := [] in
  (* iterate through z variables *)
  '(model, ax, lines) ←
    for_ zsweep (sweep_step xvarname zvarname yvarname) (model, ax, lines);
  (* return substitution values to what they were *)
  let model := update model xvarname x_old in
  let model := update model zvarname z_old in
  (* format plot *)
  xd ← dict_get (variables model) xvarname;
  yd ← dict_get (variables model) yvarname;
  y0 ← getitem ylimits 0;
  y1 ← getitem ylimits 1;
  let ax := {| lines := plotting.lines ax;
               xlabel := Some (label xd, units xd);
               ylabel := Some (label yd, units yd);
               set_ylim := Some (y0, y1);
               legend_handles := legend_handles ax;
               grid_calls := grid_calls ax |} in
  '(ax, lines) ←
    (if truthy vref then
       let v := default 0%Q vref in
       '(l, ax) ← plot ax [v; v] ylimits (RefLabel vrefname);
       OK (ax, lines ++ [l])
     else OK (ax, lines));
  '(ax, lines) ←
    (if truthy href then
       let v := default 0%Q href in
       x0 ← getitem xsweep 0;
       x1 ← getitem xsweep (-1);
       '(l, ax) ← plot ax [x0; x1] [v; v] (RefLabel hrefname);
       OK (ax, lines ++ [l])
     else OK (ax, lines));
  let ax := {| lines := plotting.lines ax; xlabel := xlabel ax;
               ylabel := ylabel ax; set_ylim := set_ylim ax;
               legend_handles := lines;
               grid_calls := S (grid_calls ax) |} in
  OK (ax, model).
End Contour.

End plotting.

(** A model, a solver and a call of [poor_mans_contour] to run it on. *)
Definition example_gpmodel : plotting.gpmodel :=
  {| plotting.substitutions :=
       <["S" := plotting.Fixed 25]> (<["V" := plotting.Fixed 30]> ∅);
     plotting.variables :=
       <["V" := plotting.Descr "speed" "m/s"]>
         (<["W" := plotting.Descr "weight" "lbf"]> ∅) |}.

Definition example_solve (m : plotting.gpmodel)
  : result (plotting.sweepsol * plotting.gpmodel) :=
  OK (<["V" := [10; 20; 30]%Q]> (<["W" := [1; 2; 3]%Q]> ∅), m).

Definition example_contour : result (plotting.axes * plotting.gpmodel) :=
  plotting.poor_mans_contour example_solve example_gpmodel
    "V" [10; 20; 30]%Q "S" [20; 25]%Q "W" [0; 5]%Q None None None None.

(** * Properties *)

(** ** The result monad *)


Lemma bind_OK {A B} (f : A -> result B) (a : A) : (OK a ≫= f) = f a.
Proof. reflexivity. Qed.

Lemma fmap_OK {A B} (f : A -> B) (a : A) : f <$> OK a = OK (f a).
Proof. reflexivity. Qed.

Lemma bind_inv {A B} (f : A -> result B) (m : result A) (b : B) :
  (m ≫= f) = OK b -> exists a, m = OK a /\ f a = OK b.
Proof. destruct m as [a|e]; [eauto | discriminate]. Qed.

Lemma map_fmap {A B} (f : A -> B) (l : list A) : map f l = f <$> l.
Proof. reflexivity. Qed.

(** ** Python sequences *)

Lemma length_range lo hi : length (range lo hi) = Z.to_nat (hi - lo).
Proof. unfold range. now rewrite length_map, length_seq. Qed.

Lemma range_empty lo hi : (hi <= lo)%Z -> range lo hi = [].
Proof.
  intros H. unfold range. replace (Z.to_nat (hi - lo)) with 0%nat by lia.
  reflexivity.
Qed.

Lemma In_range lo hi i : In i (range lo hi) <-> (lo <= i < hi)%Z.
Proof.
  unfold range. rewrite in_map_iff. split.
  - intros (k & <- & Hk). apply in_seq in Hk. lia.
  - intros H. exists (Z.to_nat (i - lo)). split; [lia|]. apply in_seq. lia.
Qed.

Lemma map_seq_from {A} (f : nat -> A) a n :
  map f (seq a n) = map (fun k => f (a + k)%nat) (seq 0 n).
Proof.
  revert f a. induction n as [|n IH]; intros f a; simpl; [reflexivity|].
  f_equal; [f_equal; lia|].
  rewrite (IH f (S a)), (IH (fun k => f (a + k)%nat) 1%nat).
  apply map_ext. intros k. f_equal. lia.
Qed.

Lemma range_app lo mid hi :
  (lo <= mid <= hi)%Z -> range lo mid ++ range mid hi = range lo hi.
Proof.
  intros H. unfold range.
  replace (Z.to_nat (hi - lo)) with (Z.to_nat (mid - lo) + Z.to_nat (hi - mid))%nat by lia.
  rewrite seq_app, map_app. f_equal.
  rewrite (map_seq_from _ (0 + Z.to_nat (mid - lo))).
  apply map_ext. intros k. lia.
Qed.

Lemma NoDup_range lo hi : NoDup (range lo hi).
Proof.
  unfold range. apply NoDup_fmap_2; [|apply NoDup_seq].
  intros x y. lia.
Qed.

Lemma lookup_range lo hi (k : nat) :
  (k < Z.to_nat (hi - lo))%nat -> range lo hi !! k = Some (lo + Z.of_nat k)%Z.
Proof.
  intros H. unfold range. rewrite map_fmap, list_lookup_fmap, lookup_seq_lt by done.
  reflexivity.
Qed.

Lemma getitem_nonneg {A} (l : list A) (i : Z) (x : A) :
  (0 <= i)%Z -> l !! Z.to_nat i = Some x -> getitem l i = OK x.
Proof.
  intros Hi Hx. unfold getitem.
  apply lookup_lt_Some in Hx as Hlt.
  replace (i <? 0)%Z with false by lia.
  replace ((0 <=? i)%Z && (i <? Z.of_nat (length l))%Z)%bool with true by lia.
  now rewrite Hx.
Qed.

Lemma getitem_out_of_range {A} (l : list A) (i : Z) :
  (i < - len l \/ len l <= i)%Z -> getitem l i = Raise IndexError.
Proof.
  unfold getitem, len. intros H.
  destruct (i <? 0)%Z eqn:Hneg;
    match goal with
    | |- (if ?b then _ else _) = _ => replace b with false by lia
    end; reflexivity.
Qed.

Lemma getitem_range lo hi i :
  (0 <= i < hi - lo)%Z -> getitem (range lo hi) i = OK (lo + i)%Z.
Proof.
  intros H. apply getitem_nonneg; [lia|].
  rewrite lookup_range by lia. f_equal. lia.
Qed.

Lemma getitem_range_last lo hi :
  (lo < hi)%Z -> getitem (range lo hi) (len (range lo hi) - 1) = OK (hi - 1)%Z.
Proof.
  intros H. unfold len. rewrite length_range, getitem_range by lia. f_equal. lia.
Qed.

(** ** numpy's [linspace] on the arguments the source passes *)

Lemma int_inject_Z (q : Q) (z : Z) : (q == inject_Z z)%Q -> int q = z.
Proof.
  unfold Qeq, int. simpl. intros H.
  rewrite Z.mul_1_r in H. rewrite H. now apply Z.quot_mul.
Qed.

Lemma map_int_set_last (y : list Q) (v d : Q) :
  y <> [] -> int (List.last y d) = int v ->
  map int (np.set_last y v) = map int y.
Proof.
  induction y as [|x [|x' y'] IH]; intros Hne Hlast; [done| |].
  - simpl in *. now rewrite Hlast.
  - change (map int (x :: np.set_last (x' :: y') v) = map int (x :: x' :: y')).
    rewrite !(map_cons int x). f_equal. apply IH; [done|exact Hlast].
Qed.

Lemma int_sample (a n k : Z) :
  (1 < n)%Z ->
  int (inject_Z k * ((inject_Z (a + n - 1) - inject_Z a) / inject_Z (n - 1))
       + inject_Z a)%Q = (a + k)%Z.
Proof.
  intros Hn. apply int_inject_Z.
  assert (Hd : ~ (inject_Z (n - 1) == 0)%Q).
  { unfold Qeq. simpl. lia. }
  replace (a + n - 1)%Z with (a + (n - 1))%Z by lia.
  rewrite !inject_Z_plus. field. exact Hd.
Qed.

(** [map(int, np.linspace(a, a + n - 1, n))] is [a, a+1, ..., a+n-1]. *)
Lemma int_linspace_range (a n : Z) :
  (0 <= n)%Z -> int_linspace a (a + n - 1) n = OK (range a (a + n)).
Proof.
  intros Hn. unfold int_linspace, np.linspace.
  replace (n <? 0)%Z with false by lia. rewrite fmap_OK. f_equal.
  unfold range. replace (a + n - a)%Z with n by lia.
  destruct (1 <? n)%Z eqn:H1.
  - apply Z.ltb_lt in H1.
    rewrite (map_int_set_last _ _ 0%Q).
    + unfold np.arange. rewrite !map_map. apply map_ext. intros k.
      rewrite int_sample by lia. reflexivity.
    + unfold np.arange. destruct (Z.to_nat n) eqn:E; [lia|]. discriminate.
    + unfold np.arange. rewrite !map_map.
      destruct (Z.to_nat n) as [|m] eqn:E; [lia|].
      rewrite seq_S, map_app. cbn [map]. rewrite last_last.
      rewrite int_sample by lia.
      symmetry. apply int_inject_Z. f_equiv. lia.
  - apply Z.ltb_ge in H1.
    assert (Hcase : n = 0%Z \/ n = 1%Z) by lia.
    destruct Hcase as [-> | ->]; [reflexivity|].
    unfold np.arange. change (Z.to_nat 1) with 1%nat.
    cbn [seq map Z.of_nat]. f_equal. apply int_inject_Z.
    try rewrite Z.add_0_r. change (inject_Z 0) with 0%Q. ring.
Qed.

(** ** The index lists *)

Lemma build_indices_ok (c : counts) :
  (1 <= Nclimb1 c)%Z -> (1 <= Nclimb2 c)%Z -> (0 <= Ncruise2 c)%Z ->
  build_indices c = OK (index_lists c).
Proof.
  intros H1 H2 H3. unfold build_indices, index_lists.
  destruct c as [n1 n2 n3]; simpl in *.
  replace (n1 - 1)%Z with (0 + n1 - 1)%Z by lia.
  rewrite int_linspace_range, bind_OK by lia.
  rewrite getitem_range_last, bind_OK by lia.
  replace (n2 + (0 + n1 - 1))%Z with ((0 + n1 - 1 + 1) + n2 - 1)%Z by lia.
  rewrite int_linspace_range, bind_OK by lia.
  rewrite getitem_range_last, bind_OK by lia.
  replace (n3 + (0 + n1 - 1 + 1 + n2 - 1))%Z
    with ((0 + n1 - 1 + 1 + n2 - 1 + 1) + n3 - 1)%Z by lia.
  rewrite int_linspace_range, bind_OK by lia.
  replace (n3 - 1)%Z with (0 + n3 - 1)%Z by lia.
  rewrite int_linspace_range, bind_OK by lia.
  f_equal. f_equal; f_equal; lia.
Qed.

Lemma int_linspace_negative (a b n : Z) :
  (n < 0)%Z -> int_linspace a b n = Raise ValueError.
Proof.
  intros H. unfold int_linspace, np.linspace.
  now replace (n <? 0)%Z with true by lia.
Qed.

Lemma int_linspace_zero (a b : Z) : int_linspace a b 0 = OK [].
Proof. reflexivity. Qed.

Lemma build_indices_fails (c : counts) :
  (Nclimb1 c < 1 \/ Nclimb2 c < 1 \/ Ncruise2 c < 0)%Z ->
  fails (build_indices c).
Proof.
  intros H. unfold build_indices, fails.
  destruct c as [n1 n2 n3]; simpl in *.
  destruct (Z.lt_trichotomy n1 0) as [Hn1 | [-> | Hn1]].
  { rewrite (int_linspace_negative _ _ n1) by lia. eexists; reflexivity. }
  { rewrite (int_linspace_zero 0). eexists; reflexivity. }
  replace (n1 - 1)%Z with (0 + n1 - 1)%Z by lia.
  rewrite (int_linspace_range 0 n1), bind_OK by lia.
  rewrite getitem_range_last, bind_OK by lia.
  destruct (Z.lt_trichotomy n2 0) as [Hn2 | [-> | Hn2]].
  { rewrite (int_linspace_negative _ _ n2) by lia. eexists; reflexivity. }
  { rewrite (int_linspace_zero (0 + n1 - 1 + 1)). eexists; reflexivity. }
  replace (n2 + (0 + n1 - 1))%Z with ((0 + n1 - 1 + 1) + n2 - 1)%Z by lia.
  rewrite (int_linspace_range _ n2), bind_OK by lia.
  rewrite getitem_range_last, bind_OK by lia.
  rewrite !(int_linspace_negative _ _ n3) by lia. eexists; reflexivity.
Qed.

Example build_indices_source :
  build_indices source_counts =
  OK {| iclimb1 := [0; 1; 2]%Z; iclimb2 := [3; 4; 5]%Z;
        icruise2 := [6; 7; 8]%Z; izbre := [0; 1; 2]%Z |}.
Proof. vm_compute. reflexivity. Qed.

Example build_indices_no_climb2 :
  build_indices {| Nclimb1 := 3; Nclimb2 := 0; Ncruise2 := 3 |} = Raise IndexError.
Proof. vm_compute. reflexivity. Qed.

Example build_indices_no_cruise2 :
  build_indices {| Nclimb1 := 3; Nclimb2 := 3; Ncruise2 := 0 |} =
  OK {| iclimb1 := [0; 1; 2]%Z; iclimb2 := [3; 4; 5]%Z;
        icruise2 := []; izbre := [] |}.
Proof. vm_compute. reflexivity. Qed.

Lemma disjoint_range lo mid mid' hi :
  (mid <= mid')%Z -> disjoint (range lo mid) (range mid' hi).
Proof. intros H i H1 H2. apply In_range in H1, H2. lia. Qed.

Lemma phase_ranges_index_lists (c : counts) :
  (0 <= Nclimb1 c)%Z -> (0 <= Nclimb2 c)%Z -> (0 <= Ncruise2 c)%Z ->
  phase_ranges c (index_lists c).
Proof.
  intros H1 H2 H3. unfold phase_ranges, index_lists. cbn [iclimb1 iclimb2 icruise2].
  split; [auto|]. split.
  { repeat split; apply disjoint_range; lia. }
  rewrite !range_app by lia.
  split; [apply NoDup_range|].
  split; [unfold len; rewrite length_range; lia|].
  repeat split; intros E; apply range_empty; lia.
Qed.

(** C3, as the code has it: with at least one segment in each climb phase
    and a non-negative cruise count, building the index lists succeeds and
    gives pairwise-disjoint, contiguous, ordered ranges in the order
    climb 1, climb 2, cruise 2, holding as many slots as the counts add up
    to; a cruise count of zero gives an empty cruise range. *)
Theorem index_builder_ranges (c : counts) :
  (1 <= Nclimb1 c)%Z -> (1 <= Nclimb2 c)%Z -> (0 <= Ncruise2 c)%Z ->
  index_builder_spec c.
Proof.
  intros H1 H2 H3. exists (index_lists c). split.
  - now apply build_indices_ok.
  - apply phase_ranges_index_lists; lia.
Qed.

Lemma index_builder_ranges_witness :
  index_builder_spec {| Nclimb1 := 3; Nclimb2 := 3; Ncruise2 := 0 |}.
Proof.
  apply (index_builder_ranges {| Nclimb1 := 3; Nclimb2 := 3; Ncruise2 := 0 |});
    simpl; lia.
Defined.

(** C3 as stated fails: with no climb-1 segment (all counts non-negative)
    the index computation raises instead of producing ranges. *)
Lemma index_builder_zero_climb1 :
  let c := {| Nclimb1 := 0; Nclimb2 := 3; Ncruise2 := 3 |} in
  ((0 <= Nclimb1 c)%Z /\ (0 <= Nclimb2 c)%Z /\ (0 <= Ncruise2 c)%Z) /\
  ~ index_builder_spec c.
Proof.
  split; [simpl; lia|].
  intros (ix & Hix & _). vm_compute in Hix. discriminate.
Qed.

(** C4: a negative segment count makes the index computation raise, so
    the script stops with that exception whatever the solver is: the
    solver is never reached. *)
Theorem negative_count_fails_before_solve (c : counts) :
  (Nclimb1 c < 0 \/ Nclimb2 c < 0 \/ Ncruise2 c < 0)%Z ->
  exists e, build_indices c = Raise e /\
            forall Sol (localsolve : model -> result Sol),
              main localsolve c = Raise e.
Proof.
  intros H. destruct (build_indices_fails c) as [e He]; [lia|].
  exists e. split; [exact He|]. intros Sol localsolve.
  unfold main. now rewrite He.
Qed.

Lemma negative_count_fails_before_solve_witness :
  exists e, build_indices {| Nclimb1 := 3; Nclimb2 := 3; Ncruise2 := -1 |} = Raise e /\
            forall Sol (localsolve : model -> result Sol),
              main localsolve {| Nclimb1 := 3; Nclimb2 := 3; Ncruise2 := -1 |} = Raise e.
Proof.
  apply (negative_count_fails_before_solve
           {| Nclimb1 := 3; Nclimb2 := 3; Ncruise2 := -1 |}).
  simpl. lia.
Defined.

(** ** Arrays of variables and the operators on them *)

Lemma mapM_map_OK {A B C} (f : B -> result C) (g : A -> B) (h : A -> C) (l : list A) :
  (forall k, In k l -> f (g k) = OK (h k)) ->
  mapM f (map g l) = OK (map h l).
Proof.
  induction l as [|x l IH]; intros H; [reflexivity|].
  cbn [map mapM]. rewrite (H x) by (left; reflexivity). rewrite bind_OK.
  rewrite IH by (intros k Hk; apply H; right; exact Hk). reflexivity.
Qed.

Lemma getitem_VectorVariable (n : Z) (v : vec.name) (i : nat) :
  (Z.of_nat i < n)%Z ->
  getitem (VectorVariable n v) (Z.of_nat i) = OK (EVar (Elem v i)).
Proof.
  intros H. apply getitem_nonneg; [lia|].
  unfold VectorVariable. rewrite Nat2Z.id, map_fmap, list_lookup_fmap.
  rewrite lookup_seq_lt by lia. reflexivity.
Qed.

(** The slots [a, a+1, ..., a+n-1]. *)
Lemma slots_range (a n : nat) :
  range (Z.of_nat a) (Z.of_nat a + Z.of_nat n)
  = map (fun k => Z.of_nat (a + k)) (seq 0 n).
Proof.
  unfold range. replace (Z.to_nat (Z.of_nat a + Z.of_nat n - Z.of_nat a)) with n by lia.
  apply map_ext. intros k. lia.
Qed.

Lemma at_list_slots (len0 : Z) (v : vec.name) (a n : nat) :
  (Z.of_nat (a + n) <= len0)%Z ->
  at_list (VectorVariable len0 v) (range (Z.of_nat a) (Z.of_nat a + Z.of_nat n))
  = OK (Arr (map (fun k => EVar (Elem v (a + k))) (seq 0 n))).
Proof.
  intros H. unfold at_list. rewrite slots_range.
  rewrite (mapM_map_OK _ _ (fun k => EVar (Elem v (a + k)))); [reflexivity|].
  intros k Hk. apply in_seq in Hk. apply getitem_VectorVariable. lia.
Qed.

Lemma at_nat (len0 : Z) (v : vec.name) (i : nat) :
  (Z.of_nat i < len0)%Z ->
  at_ (VectorVariable len0 v) (Z.of_nat i) = OK (Sc (EVar (Elem v i))).
Proof. intros H. unfold at_. now rewrite getitem_VectorVariable. Qed.

Lemma zip_with_map {A B C} (g : B -> B -> C) (f1 f2 : A -> B) (l : list A) :
  zip_with g (map f1 l) (map f2 l) = map (fun k => g (f1 k) (f2 k)) l.
Proof. induction l as [|x l IH]; [reflexivity|]. cbn. now rewrite IH. Qed.

Lemma broadcast_map {A B C} (g : B -> B -> C) (f1 f2 : A -> B) (l : list A) :
  broadcast g (map f1 l) (map f2 l) = OK (map (fun k => g (f1 k) (f2 k)) l).
Proof.
  unfold broadcast. rewrite !length_map, Nat.eqb_refl. now rewrite zip_with_map.
Qed.

Section Operators.
Context {A : Type}.
Variables (g : expr -> expr -> expr) (r : rel).
Variables (f1 f2 : A -> expr) (l : list A) (e1 e2 : expr).

Lemma op2_AA : op2 g (OK (Arr (map f1 l))) (OK (Arr (map f2 l)))
               = OK (Arr (map (fun k => g (f1 k) (f2 k)) l)).
Proof. unfold op2. rewrite !bind_OK. cbn [binop]. now rewrite broadcast_map. Qed.

Lemma op2_AS : op2 g (OK (Arr (map f1 l))) (OK (Sc e2))
               = OK (Arr (map (fun k => g (f1 k) e2) l)).
Proof. unfold op2. rewrite !bind_OK. cbn [binop]. now rewrite map_map. Qed.

Lemma op2_SA : op2 g (OK (Sc e1)) (OK (Arr (map f2 l)))
               = OK (Arr (map (fun k => g e1 (f2 k)) l)).
Proof. unfold op2. rewrite !bind_OK. cbn [binop]. now rewrite map_map. Qed.

Lemma op2_SS : op2 g (OK (Sc e1)) (OK (Sc e2)) = OK (Sc (g e1 e2)).
Proof. reflexivity. Qed.

Lemma cmp_AA : cmp r (OK (Arr (map f1 l))) (OK (Arr (map f2 l)))
               = OK (Plain (Many (map (fun k => Atom (f1 k) r (f2 k)) l))).
Proof. unfold cmp. rewrite !bind_OK. cbn [compare]. now rewrite broadcast_map. Qed.

Lemma cmp_AS : cmp r (OK (Arr (map f1 l))) (OK (Sc e2))
               = OK (Plain (Many (map (fun k => Atom (f1 k) r e2) l))).
Proof. unfold cmp. rewrite !bind_OK. cbn [compare]. now rewrite map_map. Qed.

Lemma cmp_SA : cmp r (OK (Sc e1)) (OK (Arr (map f2 l)))
               = OK (Plain (Many (map (fun k => Atom e1 r (f2 k)) l))).
Proof. unfold cmp. rewrite !bind_OK. cbn [compare]. now rewrite map_map. Qed.

Lemma cmp_SS : cmp r (OK (Sc e1)) (OK (Sc e2)) = OK (Plain (One (Atom e1 r e2))).
Proof. reflexivity. Qed.

Lemma unop_A (u : expr -> expr) :
  unop u <$> OK (Arr (map f1 l)) = OK (Arr (map (fun k => u (f1 k)) l)).
Proof. rewrite fmap_OK. cbn [unop]. now rewrite map_map. Qed.

Lemma te_exp_minus1_A (n : nat) :
  (1 <= n)%nat ->
  te_exp_minus1 (OK (Arr (map f1 l))) n
  = OK (Arr (map (fun k => te_exp_minus1_expr (f1 k) n) l)).
Proof.
  intros H. unfold te_exp_minus1.
  replace (n <? 1)%nat with false by (symmetry; apply Nat.ltb_ge; lia).
  apply unop_A.
Qed.
End Operators.

Lemma tight_Plain (cv : cvalue) : tight (OK (Plain cv)) = OK (TCS [cv]).
Proof. reflexivity. Qed.

Lemma extend_nil (cs : list constraint) : extend cs [] = OK (cs ++ []).
Proof. reflexivity. Qed.

Lemma mapM_id_cons {A} (x : A) (l : list (result A)) :
  mapM (fun k => k) (OK x :: l) = (ks ← mapM (fun k => k) l; OK (x :: ks)).
Proof. reflexivity. Qed.

(** A loop that appends one constraint per index. *)
Lemma for_map_extend {A} (idx : A -> Z) (l : list A)
    (body : Z -> list constraint -> result (list constraint))
    (k : A -> constraint) (cs : list constraint) :
  (forall a cs', In a l -> body (idx a) cs' = OK (cs' ++ [k a])) ->
  for_ (map idx l) body cs = OK (cs ++ map k l).
Proof.
  revert cs. induction l as [|a l IH]; intros cs H.
  - cbn. now rewrite app_nil_r.
  - cbn [map for_]. rewrite H by (left; reflexivity). rewrite bind_OK.
    rewrite IH by (intros a' cs' Ha; apply H; right; exact Ha).
    now rewrite <- app_assoc.
Qed.

Lemma extend_cons_OK (cs : list constraint) (k : constraint)
    (new : list (result constraint)) :
  extend cs (OK k :: new) = extend (cs ++ [k]) new.
Proof.
  unfold extend. rewrite mapM_id_cons.
  destruct (mapM (fun k => k) new) as [ks|e]; [|reflexivity].
  rewrite !bind_OK. now rewrite <- app_assoc.
Qed.

Lemma fold_left_min_seq (lo : Z) (n s : nat) (x : Z) :
  (x <= lo + Z.of_nat s)%Z ->
  fold_left Z.min (map (fun k => (lo + Z.of_nat k)%Z) (seq s n)) x = x.
Proof.
  revert s x. induction n as [|n IH]; intros s x H; [reflexivity|].
  cbn [seq map fold_left]. rewrite Z.min_l by lia. apply IH. lia.
Qed.

Lemma fold_left_max_seq (lo : Z) (n s : nat) (x : Z) :
  (x <= lo + Z.of_nat s)%Z ->
  fold_left Z.max (map (fun k => (lo + Z.of_nat k)%Z) (seq (S s) n)) (lo + Z.of_nat s)%Z
  = (lo + Z.of_nat (s + n))%Z.
Proof.
  intros _. revert s. induction n as [|n IH]; intros s.
  - cbn. f_equal. lia.
  - cbn [seq map fold_left]. rewrite Z.max_r by lia. rewrite IH. f_equal. lia.
Qed.

Lemma py_min_range (lo hi : Z) : (lo < hi)%Z -> py_min (range lo hi) = OK lo.
Proof.
  intros H. unfold range.
  destruct (Z.to_nat (hi - lo)) as [|n] eqn:E; [lia|].
  cbn [seq map py_min]. rewrite fold_left_min_seq by lia. f_equal. lia.
Qed.

Lemma py_max_range (lo hi : Z) : (lo < hi)%Z -> py_max (range lo hi) = OK (hi - 1)%Z.
Proof.
  intros H. unfold range.
  destruct (Z.to_nat (hi - lo)) as [|n] eqn:E; [lia|].
  cbn [seq map py_max]. rewrite (fold_left_max_seq lo n 0 lo) by lia. f_equal. lia.
Qed.

Lemma for_range_extend (lo hi : Z)
    (body : Z -> list constraint -> result (list constraint))
    (k : nat -> constraint) (cs : list constraint) (n : nat) :
  Z.to_nat (hi - lo) = n ->
  (forall j cs', (j < n)%nat -> body (lo + Z.of_nat j)%Z cs' = OK (cs' ++ [k j])) ->
  for_ (range lo hi) body cs = OK (cs ++ map k (seq 0 n)).
Proof.
  intros <- H. unfold range. apply for_map_extend.
  intros j cs' Hj. apply in_seq in Hj. apply H. lia.
Qed.

(** ** The constraint groups in closed form *)

Ltac len_tac :=
  cbn [vec_len]; unfold Nseg, Nclimb, Ncruise, Nres, Ncruise1, Ncruiseclimb,
    Nresclimb, Nresdecent, Nreslanding, Nreshold, Ntakeoff, Ntrans, Ndecent,
    Nlanding; cbn [Nclimb1 Nclimb2 Ncruise2]; lia.

Ltac extend_ops :=
  repeat rewrite extend_cons_OK; rewrite ?extend_nil.

Ltac array_ops :=
  repeat first
    [ rewrite op2_AA | rewrite op2_AS | rewrite op2_SA | rewrite op2_SS
    | rewrite cmp_AA | rewrite cmp_AS | rewrite cmp_SA | rewrite cmp_SS
    | rewrite unop_A | rewrite te_exp_minus1_A by lia | rewrite tight_Plain ].

Section ClosedForms.
Variables N1 N2 N3 : nat.
Local Abbreviation c :=
  {| Nclimb1 := Z.of_nat N1; Nclimb2 := Z.of_nat N2; Ncruise2 := Z.of_nat N3 |}.
Local Abbreviation N := (N1 + N2 + N3)%nat.
Local Abbreviation X v i := (EVar (Elem v i)).
Local Notation "$ s" := (EVar (Scalar s)) (at level 1, format "$ s").

Lemma index_lists_slots :
  index_lists c =
  {| iclimb1 := range (Z.of_nat 0) (Z.of_nat 0 + Z.of_nat N1);
     iclimb2 := range (Z.of_nat N1) (Z.of_nat N1 + Z.of_nat N2);
     icruise2 := range (Z.of_nat (N1 + N2)) (Z.of_nat (N1 + N2) + Z.of_nat N3);
     izbre := range (Z.of_nat 0) (Z.of_nat 0 + Z.of_nat N3) |}.
Proof.
  unfold index_lists. cbn [Nclimb1 Nclimb2 Ncruise2].
  now rewrite Nat2Z.inj_add.
Qed.

Lemma whole_nat (v : vec.name) (n : nat) :
  vec_len c v = Z.of_nat n ->
  whole c v = OK (Arr (map (fun i => X v i) (seq 0 n))).
Proof. intros H. unfold whole, vector, VectorVariable. now rewrite H, Nat2Z.id. Qed.

Lemma Nseg_nat : Nseg c = Z.of_nat N.
Proof. len_tac. Qed.

Lemma Cruise2_closed :
  (1 <= N3)%nat ->
  Cruise2 c (index_lists c) = OK
    {| cost := None;
       constraints :=
         [ Plain (Many (map (fun k => Atom (X vec.hft (N1 + N2 + k)) Eq
                                           (EQty 35000 u_feet)) (seq 0 N3)));
           TCS [Many (map (fun k =>
                  Atom (EDiv (X vec.W_fuel (N1 + N2 + k)) (X vec.W_end (N1 + N2 + k)))
                       Ge
                       (te_exp_minus1_expr (X vec.z_bre (0 + k)) 3)) (seq 0 N3))];
           TCS [Many (map (fun k =>
                  Atom (X vec.RngCruise (0 + k)) Le
                       (EDiv (EMul (EMul (X vec.z_bre (0 + k)) (X vec.LD (N1 + N2 + k)))
                                   (X vec.V (N1 + N2 + k)))
                             (EMul (X vec.TSFC (N1 + N2 + k)) $sca.g))) (seq 0 N3))];
           Plain (Many (map (fun k =>
                  Atom (EMul (X vec.thours (N1 + N2 + k)) (X vec.V (N1 + N2 + k)))
                       Eq (X vec.RngCruise (0 + k))) (seq 0 N3))) ]
         ++ map (fun k => TCS [One
                  (Atom (X vec.RngCruise k) Ge
                        (EDiv (EMul (ENum (inject_Z (Z.of_nat k + 1))) $sca.ReqRngCruise)
                              (ENum (inject_Z (Z.of_nat N)))))]) (seq 0 N3)
         ++ [ Plain (Many (map (fun k => Atom (X vec.TSFC (N1 + N2 + k)) Eq
                                              (EQty (14 # 10) u_lb_hr_lbf)) (seq 0 N3)));
              Plain (Many (map (fun k => Atom (X vec.LD (N1 + N2 + k)) Eq (ENum 10))
                               (seq 0 N3)));
              Plain (Many (map (fun k => Atom (X vec.V (N1 + N2 + k)) Eq
                                              (EQty 420 u_knots)) (seq 0 N3)));
              Plain (Many (map (fun k => Atom (X vec.TSFC (N1 + k)) Eq $sca.c1)
                               (seq 0 N2)));
              Plain (Many (map (fun k => Atom (X vec.rho (N1 + k)) Eq
                                              (EQty (1225 # 1000) u_kg_m3)) (seq 0 N2)));
              Plain (Many (map (fun k => Atom (X vec.TSFC (0 + k)) Eq $sca.c1)
                               (seq 0 N1)));
              Plain (Many (map (fun k => Atom (X vec.rho (0 + k)) Eq
                                              (EQty (1225 # 1000) u_kg_m3)) (seq 0 N1)));
              Plain (One (Atom $sca.W_e Eq (EQty 40000 u_N)));
              Plain (One (Atom $sca.W_payload Eq (EQty 400000 u_N)));
              Plain (Many (map (fun i => Atom (X vec.T i) Eq (EQty 273 u_K))
                               (seq 0 N))) ] |}.
Proof.
  intros HN3. unfold Cruise2. rewrite index_lists_slots.
  cbn [iclimb1 iclimb2 icruise2 izbre]. unfold vector.
  rewrite !at_list_slots by len_tac.
  rewrite (whole_nat vec.T N) by len_tac.
  unfold num, qty, var.
  rewrite Nseg_nat.
  array_ops. extend_ops. rewrite bind_OK.
  rewrite py_min_range, py_max_range, !bind_OK by lia.
  rewrite (for_range_extend _ _ _
             (fun k => TCS [One
                (Atom (X vec.RngCruise k) Ge
                      (EDiv (EMul (ENum (inject_Z (Z.of_nat k + 1))) $sca.ReqRngCruise)
                            (ENum (inject_Z (Z.of_nat N)))))]) _ N3); [|lia|].
  - rewrite bind_OK. extend_ops. rewrite bind_OK.
    cbn [app]. rewrite <- !app_assoc. reflexivity.
  - intros j cs' Hj. change (Z.of_nat 0 + Z.of_nat j)%Z with (Z.of_nat j).
    rewrite at_nat by len_tac. array_ops. extend_ops.
    now rewrite <- app_assoc.
Qed.

Lemma vector_nat (v : vec.name) (n : nat) :
  vec_len c v = Z.of_nat n -> vector c v = map (fun i => X v i) (seq 0 n).
Proof. intros H. unfold vector, VectorVariable. now rewrite H, Nat2Z.id. Qed.

Lemma py_sum_nat (v : vec.name) (n : nat) :
  vec_len c v = Z.of_nat n ->
  py_sum (vector c v)
  = OK (Sc (fold_left EAdd (map (fun i => X v i) (seq 0 n)) (ENum 0))).
Proof. intros H. now rewrite (vector_nat v n). Qed.

Lemma Climb2_closed :
  Climb2 c (index_lists c) = OK
    {| cost := None;
       constraints :=
         [ Plain (Many (map (fun k => Atom (X vec.V (N1 + k)) Le (EQty 500 u_knots))
                            (seq 0 N2)));
           Plain (Many (map (fun k => Atom (X vec.V (N1 + k)) Ge $sca.Vstall)
                            (seq 0 N2)));
           TCS [Many (map (fun k =>
                  Atom (EAdd
                          (EAdd (X vec.RC (N1 + k))
                             (EMul
                                (EDiv
                                   (EMul
                                      (EMul
                                         (EMul (ENum (1 # 2)) (EPow (X vec.V (N1 + k)) 3))
                                         (X vec.rho (N1 + k)))
                                      $sca.S)
                                   (X vec.W_start (N1 + k)))
                                $sca.Cd0))
                          (EDiv
                             (EDiv
                                (EMul
                                   (EMul (EDiv (X vec.W_start (N1 + k)) $sca.S) (ENum 2))
                                   $sca.K)
                                (X vec.rho (N1 + k)))
                             (X vec.V (N1 + k))))
                       Le
                       (EDiv (EMul (X vec.V (N1 + k)) $sca.thrust)
                             (X vec.W_start (N1 + k)))) (seq 0 N2))];
           Plain (Many (map (fun k =>
                  Atom (EMul (X vec.theta (N1 + k)) (X vec.V (N1 + k))) Eq
                       (X vec.RC (N1 + k))) (seq 0 N2)));
           Plain (Many (map (fun k =>
                  Atom (X vec.dhft (N1 + k)) Eq
                       (EMul (X vec.tmin (N1 + k)) (X vec.RC (N1 + k)))) (seq 0 N2)));
           TCS [Many (map (fun k =>
                  Atom (EAdd (X vec.RngClimb (N1 + k))
                             (EMul
                                (EMul (EMul (ENum (1 # 2)) (X vec.thours (N1 + k)))
                                      (X vec.V (N1 + k)))
                                (EPow (X vec.theta (N1 + k)) 2)))
                       Le
                       (EMul (X vec.thours (N1 + k)) (X vec.V (N1 + k)))) (seq 0 N2))];
           Plain (Many (map (fun k =>
                  Atom (X vec.W_fuel (N1 + k)) Eq
                       (EMul (EMul (EMul $sca.g (X vec.TSFC (N1 + k)))
                                   (X vec.thours (N1 + k)))
                             $sca.thrust)) (seq 0 N2))) ] |}.
Proof.
  unfold Climb2. rewrite index_lists_slots.
  cbn [iclimb1 iclimb2 icruise2 izbre]. unfold vector.
  rewrite !at_list_slots by len_tac.
  unfold num, qty, var. array_ops. extend_ops. rewrite bind_OK.
  reflexivity.
Qed.

Lemma Climb1_closed :
  Climb1 c (index_lists c) = OK
    {| cost := None;
       constraints :=
         [ Plain (Many (map (fun k => Atom (X vec.V (0 + k)) Le $sca.climbspeed)
                            (seq 0 N1)));
           Plain (Many (map (fun k => Atom (X vec.V (0 + k)) Ge $sca.Vstall)
                            (seq 0 N1)));
           TCS [Many (map (fun k =>
                  Atom (EAdd
                          (EAdd (X vec.RC (0 + k))
                             (EMul
                                (EDiv
                                   (EMul
                                      (EMul
                                         (EMul (ENum (1 # 2)) (EPow (X vec.V (0 + k)) 3))
                                         (X vec.rho (0 + k)))
                                      $sca.S)
                                   (X vec.W_start (0 + k)))
                                $sca.Cd0))
                          (EDiv
                             (EDiv
                                (EMul
                                   (EMul (EDiv (X vec.W_start (0 + k)) $sca.S) (ENum 2))
                                   $sca.K)
                                (X vec.rho (0 + k)))
                             (X vec.V (0 + k))))
                       Le
                       (EDiv (EMul (X vec.V (0 + k)) $sca.thrust)
                             (X vec.W_start (0 + k)))) (seq 0 N1))];
           Plain (Many (map (fun k =>
                  Atom (EMul (X vec.theta (0 + k)) (X vec.V (0 + k))) Eq
                       (X vec.RC (0 + k))) (seq 0 N1)));
           Plain (Many (map (fun k =>
                  Atom (X vec.dhft (0 + k)) Eq
                       (EMul (X vec.tmin (0 + k)) (X vec.RC (0 + k)))) (seq 0 N1)));
           TCS [Many (map (fun k =>
                  Atom (EAdd (X vec.RngClimb (0 + k))
                             (EMul
                                (EMul (EMul (ENum (1 # 2)) (X vec.thours (0 + k)))
                                      (X vec.V (0 + k)))
                                (EPow (X vec.theta (0 + k)) 2)))
                       Le
                       (EMul (X vec.thours (0 + k)) (X vec.V (0 + k)))) (seq 0 N1))];
           Plain (Many (map (fun k =>
                  Atom (X vec.W_fuel (0 + k)) Eq
                       (EMul (EMul (EMul $sca.g (X vec.TSFC (0 + k)))
                                   (X vec.thours (0 + k)))
                             $sca.thrust)) (seq 0 N1))) ]
         ++ map (fun j =>
                   match j with
                   | O => TCS [One (Atom (X vec.hft 0) Le
                                         (EAdd (EQty 1500 u_feet) (X vec.dhft 0)))]
                   | S j' => TCS [One (Atom (X vec.hft j) Le
                                            (EAdd (X vec.hft j') (X vec.dhft j)))]
                   end) (seq 0 (N1 + N2)) |}.
Proof.
  unfold Climb1. rewrite index_lists_slots.
  cbn [iclimb1 iclimb2 icruise2 izbre]. unfold vector.
  rewrite !at_list_slots by len_tac.
  unfold num, qty, var. array_ops. extend_ops. rewrite bind_OK.
  rewrite (for_range_extend _ _ _
             (fun j =>
                match j with
                | O => TCS [One (Atom (X vec.hft 0) Le
                                      (EAdd (EQty 1500 u_feet) (X vec.dhft 0)))]
                | S j' => TCS [One (Atom (X vec.hft j) Le
                                         (EAdd (X vec.hft j') (X vec.dhft j)))]
                end) _ (N1 + N2)); [|len_tac|].
  - rewrite bind_OK. reflexivity.
  - intros j cs' Hj. change (0 + Z.of_nat j)%Z with (Z.of_nat j).
    destruct j as [|j'].
    + cbn [Z.of_nat Z.eqb]. rewrite !(at_nat _ _ 0) by len_tac.
      array_ops. extend_ops. now rewrite <- app_assoc.
    + replace (Z.of_nat (S j') =? 0)%Z with false
        by (symmetry; apply Z.eqb_neq; lia).
      replace (Z.of_nat (S j') - 1)%Z with (Z.of_nat j') by lia.
      rewrite !at_nat by len_tac. array_ops. extend_ops. now rewrite <- app_assoc.
Qed.

Lemma CommericalMissionConstraints_closed :
  (1 <= N1)%nat ->
  CommericalMissionConstraints c (index_lists c) = OK
    {| cost := Some $sca.W_total;
       constraints :=
         [ Plain (Many (map (fun i =>
                  Atom (X vec.a i) Eq
                       (EPowF (EMul (EMul $sca.gamma $sca.R) (X vec.T i)) (1 # 2)))
                  (seq 0 N)));
           Plain (Many (map (fun i => Atom (X vec.hft i) Eq (X vec.h i)) (seq 0 N)));
           Plain (Many (map (fun i => Atom (X vec.tmin i) Eq (X vec.thours i))
                            (seq 0 N)));
           TCS [One (Atom (EAdd (EAdd $sca.W_e $sca.W_payload) $sca.W_ftotal) Le
                          $sca.W_total)];
           Plain (One (Atom (X vec.W_start 0) Eq $sca.W_total));
           TCS [One (Atom (EAdd $sca.W_e $sca.W_payload) Le (X vec.W_end (N - 1)))];
           TCS [One (Atom $sca.W_ftotal Ge
                          (fold_left EAdd (map (fun i => X vec.W_fuel i) (seq 0 N))
                                     (ENum 0)))];
           Plain (One (Atom (X vec.hft (N1 - 1)) Eq $sca.alt10k));
           TCS [One (Atom
                  (EAdd (fold_left EAdd (map (fun i => X vec.RngClimb i) (seq 0 (N1 + N2)))
                                   (ENum 0))
                        (fold_left EAdd (map (fun i => X vec.RngCruise i) (seq 0 N3))
                                   (ENum 0)))
                  Ge $sca.ReqRng)];
           TCS [One (Atom $sca.ReqRngCruise Ge
                          (fold_left EAdd (map (fun i => X vec.RngCruise i) (seq 0 N3))
                                     (ENum 0)))];
           Plain (Many (map (fun k =>
                  Atom (X vec.hft (N1 + N2 + k)) Eq (X vec.hft (N1 + N2 - 1)))
                  (seq 0 N3))) ]
         ++ map (fun j => Plain (One (Atom (X vec.W_start (S j)) Eq (X vec.W_end j))))
                (seq 0 (N - 1))
         ++ map (fun j => TCS [One (Atom (X vec.W_start j) Ge
                                         (EAdd (X vec.W_end j) (X vec.W_fuel j)))])
                (seq 0 N) |}.
Proof.
  intros HN1. unfold CommericalMissionConstraints. rewrite index_lists_slots.
  cbn [iclimb1 iclimb2 icruise2 izbre].
  rewrite !Nseg_nat.
  replace (Z.of_nat N - 1)%Z with (Z.of_nat (N - 1)) by lia.
  replace (Ntakeoff + Nclimb1 c - 1)%Z with (Z.of_nat (N1 - 1)) by len_tac.
  replace (Nclimb c - 1)%Z with (Z.of_nat (N1 + N2 - 1)) by len_tac.
  rewrite (whole_nat vec.a N), (whole_nat vec.T N), (whole_nat vec.hft N),
    (whole_nat vec.h N), (whole_nat vec.tmin N), (whole_nat vec.thours N) by len_tac.
  rewrite (py_sum_nat vec.W_fuel N), (py_sum_nat vec.RngClimb (N1 + N2)),
    (py_sum_nat vec.RngCruise N3) by len_tac.
  unfold vector.
  rewrite !at_list_slots by len_tac.
  rewrite (at_nat _ vec.W_start 0), (at_nat _ vec.W_end (N - 1)),
    (at_nat _ vec.hft (N1 - 1)), (at_nat _ vec.hft (N1 + N2 - 1)) by len_tac.
  unfold num, qty, var. array_ops. extend_ops. rewrite bind_OK.
  rewrite (for_range_extend _ _ _
             (fun j => Plain (One (Atom (X vec.W_start (S j)) Eq (X vec.W_end j))))
             _ (N - 1)); [|lia|].
  2:{ intros j cs' Hj.
      replace (1 + Z.of_nat j - 1)%Z with (Z.of_nat j) by lia.
      replace (1 + Z.of_nat j)%Z with (Z.of_nat (S j)) by lia.
      rewrite !at_nat by len_tac. array_ops. extend_ops. now rewrite <- app_assoc. }
  rewrite bind_OK.
  rewrite (for_range_extend _ _ _
             (fun j => TCS [One (Atom (X vec.W_start j) Ge
                                      (EAdd (X vec.W_end j) (X vec.W_fuel j)))])
             _ N); [|lia|].
  2:{ intros j cs' Hj. change (0 + Z.of_nat j)%Z with (Z.of_nat j).
      rewrite !at_nat by len_tac. array_ops. extend_ops. now rewrite <- app_assoc. }
  rewrite bind_OK. cbn [app]. rewrite <- ?app_assoc. reflexivity.
Qed.

End ClosedForms.

(** ** From a successful build back to the counts *)

Lemma build_indices_inv (c : counts) (ix : indices) :
  build_indices c = OK ix ->
  exists N1 N2 N3 : nat,
    (1 <= N1)%nat /\ (1 <= N2)%nat /\
    c = {| Nclimb1 := Z.of_nat N1; Nclimb2 := Z.of_nat N2; Ncruise2 := Z.of_nat N3 |} /\
    ix = index_lists c.
Proof.
  intros H.
  destruct (Z_lt_dec (Nclimb1 c) 1) as [H1|H1].
  { destruct (build_indices_fails c) as [e He]; [lia|congruence]. }
  destruct (Z_lt_dec (Nclimb2 c) 1) as [H2|H2].
  { destruct (build_indices_fails c) as [e He]; [lia|congruence]. }
  destruct (Z_lt_dec (Ncruise2 c) 0) as [H3|H3].
  { destruct (build_indices_fails c) as [e He]; [lia|congruence]. }
  rewrite build_indices_ok in H by lia. injection H as <-.
  exists (Z.to_nat (Nclimb1 c)), (Z.to_nat (Nclimb2 c)), (Z.to_nat (Ncruise2 c)).
  repeat split; try lia.
  destruct c as [n1 n2 n3]; cbn in *. f_equal; lia.
Qed.

Lemma Cruise2_no_cruise (N1 N2 : nat) :
  let c := {| Nclimb1 := Z.of_nat N1; Nclimb2 := Z.of_nat N2; Ncruise2 := Z.of_nat 0 |} in
  Cruise2 c (index_lists c) = Raise ValueError.
Proof.
  intros c. subst c. unfold Cruise2. rewrite (index_lists_slots N1 N2 0).
  cbn [iclimb1 iclimb2 icruise2 izbre]. unfold vector.
  rewrite !at_list_slots by len_tac.
  unfold num, qty, var. array_ops. extend_ops. rewrite bind_OK.
  reflexivity.
Qed.

Lemma CommercialAircraft_inv (c : counts) (ix : indices) (L : model) :
  CommercialAircraft c ix = OK L ->
  exists cmc climb1 climb2 c2,
    CommericalMissionConstraints c ix = OK cmc /\
    Climb1 c ix = OK climb1 /\
    Climb2 c ix = OK climb2 /\
    Cruise2 c ix = OK c2 /\
    L = {| cost := cost cmc;
           constraints := constraints cmc ++ constraints climb1
                          ++ constraints climb2 ++ constraints c2 |}.
Proof.
  unfold CommercialAircraft. intros H.
  apply bind_inv in H as (cmc & Hcmc & H).
  apply bind_inv in H as (climb1 & H1 & H).
  apply bind_inv in H as (climb2 & H2 & H).
  apply bind_inv in H as (c2 & Hc2 & H).
  injection H as <-. exists cmc, climb1, climb2, c2.
  repeat split; try assumption.
  unfold LinkedConstraintSet. cbn [map concat]. now rewrite app_nil_r.
Qed.

(** A successful run of the script's model construction fixes the shape of
    everything: the counts are positive, the index lists are the closed
    ones, and the linked model is the four groups put together. *)
Lemma linked_model_inv (c : counts) (ix : indices) (L : model) :
  build_indices c = OK ix ->
  CommercialAircraft c ix = OK L ->
  exists (N1 N2 N3 : nat) cmc climb1 climb2 c2,
    ((1 <= N1)%nat /\ (1 <= N2)%nat /\ (1 <= N3)%nat) /\
    c = {| Nclimb1 := Z.of_nat N1; Nclimb2 := Z.of_nat N2; Ncruise2 := Z.of_nat N3 |} /\
    ix = index_lists c /\
    CommericalMissionConstraints c ix = OK cmc /\
    Climb1 c ix = OK climb1 /\
    Climb2 c ix = OK climb2 /\
    Cruise2 c ix = OK c2 /\
    L = {| cost := cost cmc;
           constraints := constraints cmc ++ constraints climb1
                          ++ constraints climb2 ++ constraints c2 |}.
Proof.
  intros Hix HL.
  destruct (build_indices_inv c ix Hix) as (N1 & N2 & N3 & H1 & H2 & Hc & Hi).
  destruct (CommercialAircraft_inv c ix L HL)
    as (cmc & climb1 & climb2 & c2 & Hcmc & Hcl1 & Hcl2 & Hc2 & HLeq).
  exists N1, N2, N3, cmc, climb1, climb2, c2.
  repeat split; try assumption.
  destruct N3 as [|n3]; [|lia].
  subst c ix. rewrite (Cruise2_no_cruise N1 N2) in Hc2. discriminate.
Qed.

(** ** Constraints, atoms and solutions *)

Lemma atoms_intro (m : model) (con : constraint) (k : atom) :
  In con (constraints m) -> In k (constraint_atoms con) -> In k (atoms m).
Proof.
  intros Hc Hk. unfold atoms. apply in_concat.
  exists (constraint_atoms con). split; [|exact Hk]. now apply in_map.
Qed.

Lemma has_plain_atoms (m : model) (k : atom) : has_plain m k -> In k (atoms m).
Proof. intros (cv & Hc & Hk). now apply (atoms_intro m (Plain cv)). Qed.

Lemma has_tight_atoms (m : model) (k : atom) : has_tight m k -> In k (atoms m).
Proof.
  intros (body & cv & Hc & Hcv & Hk). apply (atoms_intro m (TCS body)); [exact Hc|].
  cbn [constraint_atoms]. apply in_concat. exists (cvalue_atoms cv).
  split; [now apply in_map | exact Hk].
Qed.

Lemma satisfies_holds (sol : solution) (m : model) (k : atom) :
  satisfies sol m -> In k (atoms m) -> holds sol k.
Proof. unfold satisfies. rewrite List.Forall_forall. auto. Qed.

Lemma has_plain_incl (m m' : model) (k : atom) :
  incl (constraints m) (constraints m') -> has_plain m k -> has_plain m' k.
Proof. intros Hi (cv & Hc & Hk). exists cv. split; [now apply Hi | exact Hk]. Qed.

Lemma has_tight_incl (m m' : model) (k : atom) :
  incl (constraints m) (constraints m') -> has_tight m k -> has_tight m' k.
Proof.
  intros Hi (body & cv & Hc & Hcv & Hk). exists body, cv.
  split; [now apply Hi | split; assumption].
Qed.

Lemma has_plain_many {A} (m : model) (f : A -> atom) (l : list A) (x : A) :
  In (Plain (Many (map f l))) (constraints m) -> In x l -> has_plain m (f x).
Proof.
  intros H Hx. exists (Many (map f l)). split; [exact H | now apply in_map].
Qed.

Lemma has_tight_many {A} (m : model) (f : A -> atom) (l : list A) (x : A) :
  In (TCS [Many (map f l)]) (constraints m) -> In x l -> has_tight m (f x).
Proof.
  intros H Hx. exists [Many (map f l)], (Many (map f l)).
  repeat split; [exact H | now left | now apply in_map].
Qed.

Lemma factor_pos (u : unit) : (0 < factor u)%R.
Proof. destruct u; cbn [factor]; lra. Qed.

Lemma holds_var_eq (sol : solution) (x y : varkey) :
  units_of x = units_of y ->
  holds sol (Atom (EVar x) Eq (EVar y)) -> sol x = sol y.
Proof.
  unfold holds. cbn [op lhs rhs eval]. intros -> H.
  pose proof (factor_pos (units_of y)) as Hf.
  apply (Rmult_eq_reg_r (factor (units_of y))); [exact H | lra].
Qed.

Lemma holds_var_qty (sol : solution) (x : varkey) (q : Q) :
  holds sol (Atom (EVar x) Eq (EQty q (units_of x))) -> sol x = Q2R q.
Proof.
  unfold holds. cbn [op lhs rhs eval]. intros H.
  pose proof (factor_pos (units_of x)) as Hf.
  apply (Rmult_eq_reg_r (factor (units_of x))); [exact H | lra].
Qed.

(** Membership in a constraint list given as a literal list followed by
    appended tails. *)
Ltac in_literal := cbn [constraints app]; first [left; reflexivity | right; in_literal].
Ltac skip_literal :=
  cbn [constraints app];
  repeat match goal with |- In _ (_ :: _) => right end.

(** The groups are part of the linked model. *)
Ltac in_linked :=
  cbn [constraints];
  first [ apply in_or_app; left; eassumption
        | apply in_or_app; right; apply in_or_app; left; eassumption
        | apply in_or_app; right; apply in_or_app; right; apply in_or_app; left; eassumption
        | apply in_or_app; right; apply in_or_app; right; apply in_or_app; right; eassumption ].

(** C2: the mission-wide group holds, for every segment after the first,
    the plain equality [W_start[i] == W_end[i-1]] (not inside a tight
    set), so every solution that satisfies the linked model has exactly
    equal weights there. *)
Theorem weight_continuity (c : counts) (ix : indices) (cmc L : model) (i : nat) :
  build_indices c = OK ix ->
  CommericalMissionConstraints c ix = OK cmc ->
  CommercialAircraft c ix = OK L ->
  (0 < i)%nat -> (Z.of_nat i < Nseg c)%Z ->
  In (Plain (One (Atom (EVar (Elem vec.W_start i)) Eq
                       (EVar (Elem vec.W_end (i - 1))))))
     (constraints cmc) /\
  (forall sol, satisfies sol L ->
               sol (Elem vec.W_start i) = sol (Elem vec.W_end (i - 1))).
Proof.
  intros Hix Hcmc HL Hi0 Hi.
  destruct (linked_model_inv c ix L Hix HL)
    as (N1 & N2 & N3 & cmc' & cl1 & cl2 & c2 & (H1 & H2 & H3) & -> & -> & Hcmc'
        & _ & _ & _ & ->).
  assert (cmc' = cmc) as -> by congruence. clear Hcmc'.
  rewrite CommericalMissionConstraints_closed in Hcmc by lia.
  rewrite Nseg_nat in Hi.
  assert (Hin : In (Plain (One (Atom (EVar (Elem vec.W_start i)) Eq
                                     (EVar (Elem vec.W_end (i - 1))))))
                   (constraints cmc)).
  { injection Hcmc as <-. skip_literal.
    apply in_or_app; left.
    apply in_map_iff. exists (i - 1)%nat. split.
    - replace (S (i - 1)) with i by lia. reflexivity.
    - apply in_seq. lia. }
  split; [exact Hin|].
  intros sol Hsat. apply holds_var_eq; [reflexivity|].
  apply (satisfies_holds sol _ _ Hsat).
  eapply atoms_intro; [in_linked | now left].
Qed.

Lemma Q2R_inject_Z (z : Z) : Q2R (inject_Z z) = IZR z.
Proof. unfold Q2R. cbn [Qnum Qden inject_Z]. lra. Qed.

Lemma Rmult_ge_reg_pos (x y f : R) : (0 < f -> x * f >= y * f -> x >= y)%R.
Proof. intros Hf H. nra. Qed.

Lemma cumulative_cruise_range_ge (sol : solution) (k : nat) :
  positive sol ->
  (cumulative_cruise_range sol k >= sol (Elem vec.RngCruise k))%R /\
  (0 < cumulative_cruise_range sol k)%R.
Proof.
  intros Hpos. induction k as [|k [IH1 IH2]]; cbn [cumulative_cruise_range].
  - pose proof (Hpos (Elem vec.RngCruise 0)). lra.
  - pose proof (Hpos (Elem vec.RngCruise (S k))). lra.
Qed.

(** C1: in every positive solution that satisfies the linked model, each
    cruise segment [k] (counted from zero) has range at least
    [(k+1) * ReqRngCruise / Nseg], and so has the cruise range accumulated
    through segment [k]. *)
Theorem staged_cruise_range (c : counts) (ix : indices) (L : model)
    (sol : solution) (k : nat) :
  build_indices c = OK ix ->
  CommercialAircraft c ix = OK L ->
  positive sol -> satisfies sol L ->
  (Z.of_nat k < Ncruise2 c)%Z ->
  (sol (Elem vec.RngCruise k)
   >= IZR (Z.of_nat k + 1) * sol (Scalar sca.ReqRngCruise) / IZR (Nseg c))%R /\
  (cumulative_cruise_range sol k
   >= IZR (Z.of_nat k + 1) * sol (Scalar sca.ReqRngCruise) / IZR (Nseg c))%R.
Proof.
  intros Hix HL Hpos Hsat Hk.
  destruct (linked_model_inv c ix L Hix HL)
    as (N1 & N2 & N3 & cmc & cl1 & cl2 & c2 & (H1 & H2 & H3) & -> & -> & _
        & _ & _ & Hc2 & ->).
  cbn [Ncruise2] in Hk. rewrite Nseg_nat.
  assert (Hin : In (TCS [One
            (Atom (EVar (Elem vec.RngCruise k)) Ge
               (EDiv (EMul (ENum (inject_Z (Z.of_nat k + 1)))
                           (EVar (Scalar sca.ReqRngCruise)))
                     (ENum (inject_Z (Z.of_nat (N1 + N2 + N3))))))])
            (constraints c2)).
  { rewrite Cruise2_closed in Hc2 by lia. injection Hc2 as <-. skip_literal.
    apply in_or_app; left. apply in_map_iff. exists k.
    split; [reflexivity | apply in_seq; lia]. }
  assert (Hk1 : (sol (Elem vec.RngCruise k)
                 >= IZR (Z.of_nat k + 1) * sol (Scalar sca.ReqRngCruise)
                    / IZR (Z.of_nat (N1 + N2 + N3)))%R).
  { assert (Hh : holds sol
              (Atom (EVar (Elem vec.RngCruise k)) Ge
                 (EDiv (EMul (ENum (inject_Z (Z.of_nat k + 1)))
                             (EVar (Scalar sca.ReqRngCruise)))
                       (ENum (inject_Z (Z.of_nat (N1 + N2 + N3))))))).
    { apply (satisfies_holds sol _ _ Hsat).
      eapply atoms_intro; [in_linked | now left]. }
    unfold holds in Hh.
    cbn [op lhs rhs eval units_of vec_units sca_units] in Hh.
    rewrite !Q2R_inject_Z in Hh.
    apply (Rmult_ge_reg_pos _ _ (factor u_miles)); [apply factor_pos|].
    eapply Rge_trans; [exact Hh|]. right. unfold Rdiv. ring. }
  split; [exact Hk1|].
  destruct (cumulative_cruise_range_ge sol k Hpos) as [Hc _]. lra.
Qed.

(** C9: in every solution that satisfies the linked model, all cruise
    segments and the last climb segment are at exactly 35,000 ft: the
    cruise group fixes the cruise altitude and the mission-wide group
    makes the last climb altitude equal to it. *)
Theorem cruise_altitude_pins_climb (c : counts) (ix : indices) (L : model)
    (sol : solution) :
  build_indices c = OK ix ->
  CommercialAircraft c ix = OK L ->
  satisfies sol L ->
  (forall k : nat, (Z.of_nat k < Ncruise2 c)%Z ->
     sol (Elem vec.hft (Z.to_nat (Nclimb c) + k)) = 35000%R) /\
  sol (Elem vec.hft (Z.to_nat (Nclimb c - 1))) = 35000%R.
Proof.
  intros Hix HL Hsat.
  destruct (linked_model_inv c ix L Hix HL)
    as (N1 & N2 & N3 & cmc & cl1 & cl2 & c2 & (H1 & H2 & H3) & -> & -> & Hcmc
        & _ & _ & Hc2 & ->).
  replace (Z.to_nat (Nclimb _)) with (N1 + N2)%nat by len_tac.
  replace (Z.to_nat (Nclimb _ - 1)) with (N1 + N2 - 1)%nat by len_tac.
  cbn [Ncruise2].
  assert (Hfix : forall k, (k < N3)%nat ->
            has_plain c2 (Atom (EVar (Elem vec.hft (N1 + N2 + k))) Eq
                               (EQty 35000 u_feet))).
  { intros k Hk. rewrite Cruise2_closed in Hc2 by lia. injection Hc2 as <-.
    apply (has_plain_many _ (fun k => Atom (EVar (Elem vec.hft (N1 + N2 + k))) Eq
                                           (EQty 35000 u_feet)) (seq 0 N3) k).
    - in_literal.
    - apply in_seq. lia. }
  assert (Hmatch : forall k, (k < N3)%nat ->
            has_plain cmc (Atom (EVar (Elem vec.hft (N1 + N2 + k))) Eq
                                (EVar (Elem vec.hft (N1 + N2 - 1))))).
  { intros k Hk. rewrite CommericalMissionConstraints_closed in Hcmc by lia.
    injection Hcmc as <-.
    apply (has_plain_many _ (fun k => Atom (EVar (Elem vec.hft (N1 + N2 + k))) Eq
                                           (EVar (Elem vec.hft (N1 + N2 - 1))))
                          (seq 0 N3) k).
    - in_literal.
    - apply in_seq. lia. }
  assert (Hcruise : forall k, (k < N3)%nat ->
            sol (Elem vec.hft (N1 + N2 + k)) = 35000%R).
  { intros k Hk.
    rewrite (holds_var_qty sol (Elem vec.hft (N1 + N2 + k)) 35000).
    - unfold Q2R. cbn [Qnum Qden]. lra.
    - apply (satisfies_holds sol _ _ Hsat). apply has_plain_atoms.
      apply (has_plain_incl c2); [|now apply Hfix].
      intros con Hcon. in_linked. }
  split.
  - intros k Hk. apply Hcruise. lia.
  - rewrite <- (Hcruise 0%nat) by lia. symmetry.
    apply holds_var_eq; [reflexivity|].
    apply (satisfies_holds sol _ _ Hsat). apply has_plain_atoms.
    apply (has_plain_incl cmc); [|apply Hmatch; lia].
    intros con Hcon. in_linked.
Qed.

(** C6: the mission-wide group holds the plain equality of the altitude
    at the last climb-1 segment with [alt10k], a variable declared at
    10,000 feet, and, for each cruise-2 segment, the plain equality of
    its altitude with the altitude of the last climb segment (index
    [Nclimb - 1]); so in every solution of the linked model that holds
    [alt10k] at its declared value the first is exactly 10,000 ft and the
    others are equal. *)
Theorem altitude_constraints (c : counts) (ix : indices) (cmc L : model) :
  build_indices c = OK ix ->
  CommericalMissionConstraints c ix = OK cmc ->
  CommercialAircraft c ix = OK L ->
  let last_climb1 := Z.to_nat (Ntakeoff + Nclimb1 c - 1) in
  let last_climb := Z.to_nat (Nclimb c - 1) in
  (In (Plain (One (Atom (EVar (Elem vec.hft last_climb1)) Eq
                        (EVar (Scalar sca.alt10k)))))
      (constraints cmc) /\
   sca_value sca.alt10k = Some (10000 # 1) /\
   sca_units sca.alt10k = u_feet /\ vec_units vec.hft = u_feet) /\
  (forall k : nat, (Z.of_nat k < Ncruise2 c)%Z ->
     has_plain cmc (Atom (EVar (Elem vec.hft (Z.to_nat (Nclimb c) + k))) Eq
                         (EVar (Elem vec.hft last_climb)))) /\
  (forall sol, satisfies sol L ->
     sol (Scalar sca.alt10k) = 10000%R ->
     sol (Elem vec.hft last_climb1) = 10000%R /\
     forall k : nat, (Z.of_nat k < Ncruise2 c)%Z ->
       sol (Elem vec.hft (Z.to_nat (Nclimb c) + k)) = sol (Elem vec.hft last_climb)).
Proof.
  intros Hix Hcmc HL.
  destruct (linked_model_inv c ix L Hix HL)
    as (N1 & N2 & N3 & cmc' & cl1 & cl2 & c2 & (H1 & H2 & H3) & -> & -> & Hcmc'
        & _ & _ & _ & ->).
  assert (cmc' = cmc) as -> by congruence. clear Hcmc'.
  replace (Z.to_nat (Nclimb _)) with (N1 + N2)%nat by len_tac.
  replace (Z.to_nat (Nclimb _ - 1)) with (N1 + N2 - 1)%nat by len_tac.
  replace (Z.to_nat (Ntakeoff + Nclimb1 _ - 1)) with (N1 - 1)%nat by len_tac.
  cbn [Ncruise2]. cbv zeta.
  assert (H10k : In (Plain (One (Atom (EVar (Elem vec.hft (N1 - 1))) Eq
                                      (EVar (Scalar sca.alt10k)))))
                    (constraints cmc)).
  { rewrite CommericalMissionConstraints_closed in Hcmc by lia.
    injection Hcmc as <-. in_literal. }
  assert (Hmatch : forall k, (Z.of_nat k < Z.of_nat N3)%Z ->
            has_plain cmc (Atom (EVar (Elem vec.hft (N1 + N2 + k))) Eq
                                (EVar (Elem vec.hft (N1 + N2 - 1))))).
  { intros k Hk. rewrite CommericalMissionConstraints_closed in Hcmc by lia.
    injection Hcmc as <-.
    apply (has_plain_many _ (fun k => Atom (EVar (Elem vec.hft (N1 + N2 + k))) Eq
                                           (EVar (Elem vec.hft (N1 + N2 - 1))))
                          (seq 0 N3) k).
    - in_literal.
    - apply in_seq. lia. }
  split; [repeat split; [exact H10k]|]. split; [exact Hmatch|].
  intros sol Hsat Halt. split.
  - rewrite <- Halt. apply holds_var_eq; [reflexivity|].
    apply (satisfies_holds sol _ _ Hsat).
    eapply atoms_intro; [in_linked | now left].
  - intros k Hk. apply holds_var_eq; [reflexivity|].
    apply (satisfies_holds sol _ _ Hsat). apply has_plain_atoms.
    apply (has_plain_incl cmc); [|now apply Hmatch].
    intros con Hcon. in_linked.
Qed.

Lemma te_exp_minus1_expr_3 (z : expr) :
  te_exp_minus1_expr z 3
  = EAdd (EAdd (EAdd (ENum 0) (EDiv (EPow z 1) (ENum 1)))
               (EDiv (EPow z 2) (ENum 2)))
         (EDiv (EPow z 3) (ENum 6)).
Proof. reflexivity. Qed.

(** C5: for every cruise-2 segment the cruise group holds, each inside a
    tight set, the lower bound of the fuel-to-end-weight ratio by the
    series [te_exp_minus1(z_bre, 3)], which is [z + z^2/2 + z^3/6], and the
    upper bound of the segment's cruise range by
    [z_bre * (L/D) * V / (TSFC * g)]. *)
Theorem breguet_constraints (c : counts) (ix : indices) (c2 : model) (k : nat) :
  build_indices c = OK ix ->
  Cruise2 c ix = OK c2 ->
  (Z.of_nat k < Ncruise2 c)%Z ->
  let s := (Z.to_nat (Nclimb c) + k)%nat in
  let z := EVar (Elem vec.z_bre k) in
  let fuel := Atom (EDiv (EVar (Elem vec.W_fuel s)) (EVar (Elem vec.W_end s))) Ge
                   (te_exp_minus1_expr z 3) in
  let rng := Atom (EVar (Elem vec.RngCruise k)) Le
                  (EDiv (EMul (EMul z (EVar (Elem vec.LD s))) (EVar (Elem vec.V s)))
                        (EMul (EVar (Elem vec.TSFC s)) (EVar (Scalar sca.g)))) in
  has_tight c2 fuel /\ has_tight c2 rng /\
  forall sol : solution,
    let zv := sol (Elem vec.z_bre k) in
    (eval sol (te_exp_minus1_expr z 3) = zv + zv ^ 2 / 2 + zv ^ 3 / 6)%R /\
    (positive sol ->
     (holds sol fuel <->
      (sol (Elem vec.W_fuel s) / sol (Elem vec.W_end s)
       >= zv + zv ^ 2 / 2 + zv ^ 3 / 6)%R) /\
     (holds sol rng <->
      (sol (Elem vec.RngCruise k) * factor u_miles
       <= zv * sol (Elem vec.LD s) * (sol (Elem vec.V s) * factor u_knots)
          / (sol (Elem vec.TSFC s) * factor u_lb_hr_lbf
             * (sol (Scalar sca.g) * factor u_m_s2)))%R)).
Proof.
  intros Hix Hc2 Hk.
  destruct (build_indices_inv c ix Hix) as (N1 & N2 & N3 & H1 & H2 & -> & ->).
  cbn [Ncruise2] in Hk.
  replace (Z.to_nat (Nclimb _)) with (N1 + N2)%nat by len_tac.
  cbv zeta.
  rewrite Cruise2_closed in Hc2 by lia. injection Hc2 as <-.
  split; [|split].
  - apply (has_tight_many _
             (fun k => Atom (EDiv (EVar (Elem vec.W_fuel (N1 + N2 + k)))
                                  (EVar (Elem vec.W_end (N1 + N2 + k)))) Ge
                            (te_exp_minus1_expr (EVar (Elem vec.z_bre (0 + k))) 3))
             (seq 0 N3) k); [in_literal | apply in_seq; lia].
  - apply (has_tight_many _
             (fun k => Atom (EVar (Elem vec.RngCruise (0 + k))) Le
                 (EDiv (EMul (EMul (EVar (Elem vec.z_bre (0 + k)))
                                   (EVar (Elem vec.LD (N1 + N2 + k))))
                             (EVar (Elem vec.V (N1 + N2 + k))))
                       (EMul (EVar (Elem vec.TSFC (N1 + N2 + k)))
                             (EVar (Scalar sca.g)))))
             (seq 0 N3) k); [in_literal | apply in_seq; lia].
  - intros sol.
    assert (Hte : (eval sol (te_exp_minus1_expr (EVar (Elem vec.z_bre k)) 3)
                   = sol (Elem vec.z_bre k) + sol (Elem vec.z_bre k) ^ 2 / 2
                     + sol (Elem vec.z_bre k) ^ 3 / 6)%R).
    { rewrite te_exp_minus1_expr_3.
      cbn [eval units_of vec_units factor].
      unfold Q2R. cbn [Qnum Qden]. field. }
    split; [exact Hte|]. intros Hpos. unfold holds.
    cbn [op lhs rhs]. rewrite Hte.
    cbn [eval units_of vec_units sca_units].
    pose proof (Hpos (Elem vec.W_end (N1 + N2 + k))) as Hwe.
    pose proof (factor_pos u_lbf) as Hlbf.
    replace (sol (Elem vec.W_fuel (N1 + N2 + k)) * factor u_lbf
             / (sol (Elem vec.W_end (N1 + N2 + k)) * factor u_lbf))%R
      with (sol (Elem vec.W_fuel (N1 + N2 + k))
            / sol (Elem vec.W_end (N1 + N2 + k)))%R by (field; lra).
    replace (factor u_none) with 1%R by reflexivity.
    rewrite !Rmult_1_r. split; reflexivity.
Qed.

(** C7: every climb segment, of climb 1 and of climb 2, has in its group
    the tight range constraint with the two-term cosine correction,
    [RngClimb + 0.5*thours*V*theta^2 <= thours*V], and the plain
    small-angle equality [theta*V == RC]. *)
Theorem climb_range_constraints (c : counts) (ix : indices)
    (climb1 climb2 : model) (i : nat) :
  build_indices c = OK ix ->
  Climb1 c ix = OK climb1 ->
  Climb2 c ix = OK climb2 ->
  (Z.of_nat i < Nclimb c)%Z ->
  let RngClimb := EVar (Elem vec.RngClimb i) in
  let thours := EVar (Elem vec.thours i) in
  let V := EVar (Elem vec.V i) in
  let theta := EVar (Elem vec.theta i) in
  let RC := EVar (Elem vec.RC i) in
  let rng := Atom (EAdd RngClimb
                        (EMul (EMul (EMul (ENum (1 # 2)) thours) V) (EPow theta 2)))
                  Le (EMul thours V) in
  let angle := Atom (EMul theta V) Eq RC in
  let group := if (Z.of_nat i <? Nclimb1 c)%Z then climb1 else climb2 in
  has_tight group rng /\ has_plain group angle /\
  forall sol : solution,
    (holds sol rng <->
     (sol (Elem vec.RngClimb i) * factor u_miles
      + 0.5 * (sol (Elem vec.thours i) * factor u_hour)
        * (sol (Elem vec.V i) * factor u_knots) * sol (Elem vec.theta i) ^ 2
      <= sol (Elem vec.thours i) * factor u_hour
         * (sol (Elem vec.V i) * factor u_knots))%R) /\
    (holds sol angle <->
     (sol (Elem vec.theta i) * (sol (Elem vec.V i) * factor u_knots)
      = sol (Elem vec.RC i) * factor u_feet_min)%R).
Proof.
  intros Hix Hcl1 Hcl2 Hi.
  destruct (build_indices_inv c ix Hix) as (N1 & N2 & N3 & H1 & H2 & -> & ->).
  replace (Nclimb _) with (Z.of_nat (N1 + N2)) in Hi by len_tac.
  cbn [Nclimb1]. cbv zeta.
  rewrite Climb1_closed in Hcl1. injection Hcl1 as <-.
  rewrite Climb2_closed in Hcl2. injection Hcl2 as <-.
  split; [|split].
  - destruct (Z.of_nat i <? Z.of_nat N1)%Z eqn:E.
    + apply Z.ltb_lt in E.
      apply (has_tight_many _
               (fun k => Atom (EAdd (EVar (Elem vec.RngClimb (0 + k)))
                                 (EMul (EMul (EMul (ENum (1 # 2))
                                                   (EVar (Elem vec.thours (0 + k))))
                                             (EVar (Elem vec.V (0 + k))))
                                       (EPow (EVar (Elem vec.theta (0 + k))) 2)))
                              Le
                              (EMul (EVar (Elem vec.thours (0 + k)))
                                    (EVar (Elem vec.V (0 + k)))))
               (seq 0 N1) i); [in_literal | apply in_seq; lia].
    + apply Z.ltb_ge in E. replace i with (N1 + (i - N1))%nat by lia.
      apply (has_tight_many _
               (fun k => Atom (EAdd (EVar (Elem vec.RngClimb (N1 + k)))
                                 (EMul (EMul (EMul (ENum (1 # 2))
                                                   (EVar (Elem vec.thours (N1 + k))))
                                             (EVar (Elem vec.V (N1 + k))))
                                       (EPow (EVar (Elem vec.theta (N1 + k))) 2)))
                              Le
                              (EMul (EVar (Elem vec.thours (N1 + k)))
                                    (EVar (Elem vec.V (N1 + k)))))
               (seq 0 N2) (i - N1)%nat); [in_literal | apply in_seq; lia].
  - destruct (Z.of_nat i <? Z.of_nat N1)%Z eqn:E.
    + apply Z.ltb_lt in E.
      apply (has_plain_many _
               (fun k => Atom (EMul (EVar (Elem vec.theta (0 + k)))
                                    (EVar (Elem vec.V (0 + k))))
                              Eq (EVar (Elem vec.RC (0 + k))))
               (seq 0 N1) i); [in_literal | apply in_seq; lia].
    + apply Z.ltb_ge in E. replace i with (N1 + (i - N1))%nat by lia.
      apply (has_plain_many _
               (fun k => Atom (EMul (EVar (Elem vec.theta (N1 + k)))
                                    (EVar (Elem vec.V (N1 + k))))
                              Eq (EVar (Elem vec.RC (N1 + k))))
               (seq 0 N2) (i - N1)%nat); [in_literal | apply in_seq; lia].
  - intros sol. unfold holds.
    cbn [op lhs rhs eval units_of vec_units].
    replace (factor u_none) with 1%R by reflexivity.
    replace (Q2R (1 # 2)) with 0.5%R by (unfold Q2R; cbn [Qnum Qden]; lra).
    rewrite !Rmult_1_r. split; reflexivity.
Qed.

(** ** The contour sweep helper *)

Lemma dict_get_OK {A} (d : gmap string A) (key : string) (v : A) :
  plotting.dict_get d key = OK v -> d !! key = Some v.
Proof.
  unfold plotting.dict_get. destruct (d !! key); [|discriminate].
  now intros [= ->].
Qed.

(** C8: when [poor_mans_contour] returns, the substitution mapping of the
    model holds, for the swept x variable and for the swept z variable,
    the value it held before the call, whatever the solver did to the
    model in between. *)
Theorem poor_mans_contour_restores
    (solve : plotting.gpmodel -> result (plotting.sweepsol * plotting.gpmodel))
    (model : plotting.gpmodel)
    (xvarname : string) (xsweep : list Q) (zvarname : string) (zsweep : list Q)
    (yvarname : string) (ylimits : list Q)
    (vref : option Q) (vrefname : option string)
    (href : option Q) (hrefname : option string)
    (ax : plotting.axes) (model' : plotting.gpmodel) :
  plotting.poor_mans_contour solve model xvarname xsweep zvarname zsweep
    yvarname ylimits vref vrefname href hrefname = OK (ax, model') ->
  is_Some (plotting.substitutions model !! xvarname) /\
  is_Some (plotting.substitutions model !! zvarname) /\
  plotting.substitutions model' !! xvarname
    = plotting.substitutions model !! xvarname /\
  plotting.substitutions model' !! zvarname
    = plotting.substitutions model !! zvarname.
Proof.
  unfold plotting.poor_mans_contour. intros H.
  apply bind_inv in H as (x_old & Hx & H). apply dict_get_OK in Hx.
  apply bind_inv in H as (z_old & Hz & H). apply dict_get_OK in Hz.
  apply bind_inv in H as ([[model1 ax1] lines1] & _ & H).
  apply bind_inv in H as (xd & _ & H).
  apply bind_inv in H as (yd & _ & H).
  apply bind_inv in H as (y0 & _ & H).
  apply bind_inv in H as (y1 & _ & H).
  apply bind_inv in H as ([ax2 lines2] & _ & H).
  apply bind_inv in H as ([ax3 lines3] & _ & H).
  injection H as _ <-.
  rewrite Hx, Hz. cbn [plotting.update plotting.substitutions].
  split; [eauto|]. split; [eauto|]. split.
  - destruct (decide (zvarname = xvarname)) as [->|Hne].
    + rewrite lookup_insert_eq. congruence.
    + rewrite lookup_insert_ne by exact Hne. apply lookup_insert_eq.
  - apply lookup_insert_eq.
Qed.

(** ** Where a variable is mentioned *)

Lemma In_vars_inv (m : model) (x : varkey) :
  In x (vars m) ->
  exists con k, In con (constraints m) /\ In k (constraint_atoms con)
                /\ In x (atom_vars k).
Proof.
  unfold vars, atoms. intros H.
  apply in_concat in H as (vs & Hvs & Hx).
  apply in_map_iff in Hvs as (k & <- & Hk).
  apply in_concat in Hk as (ks & Hks & Hk).
  apply in_map_iff in Hks as (con & <- & Hcon).
  eauto.
Qed.

Lemma In_vars_intro (m : model) (x : varkey) (k : atom) :
  In k (atoms m) -> In x (atom_vars k) -> In x (vars m).
Proof.
  intros Hk Hx. unfold vars. apply in_concat. exists (atom_vars k).
  split; [now apply in_map | exact Hx].
Qed.

Lemma expr_vars_sum (v : vec.name) (l : list nat) (e0 : expr) (x : varkey) :
  In x (expr_vars (fold_left EAdd (map (fun i => EVar (Elem v i)) l) e0)) ->
  In x (expr_vars e0) \/ exists i, x = Elem v i.
Proof.
  revert e0. induction l as [|i l IH]; intros e0 H; [now left|].
  cbn [map fold_left] in H. apply IH in H as [H|H]; [|now right].
  cbn [expr_vars] in H. apply in_app_or in H as [H|[<-|[]]]; [now left|].
  right. now exists i.
Qed.

Ltac mention_step :=
  match goal with
  | H : In _ [] |- _ => destruct H
  | H : False |- _ => destruct H
  | H : In _ (_ :: _) |- _ => destruct H as [H|H]
  | H : In _ (_ ++ _) |- _ => apply in_app_or in H; destruct H as [H|H]
  | H : In _ (map _ _) |- _ =>
      let a := fresh "a" in
      let E := fresh "E" in
      apply in_map_iff in H; destruct H as (a & E & H)
  | H : In _ (seq _ _) |- _ => apply in_seq in H
  | H : In _ (expr_vars (fold_left EAdd _ _)) |- _ =>
      apply expr_vars_sum in H; destruct H as [H|[? H]]
  | H : In _ (expr_vars _) |- _ => progress cbn [expr_vars app] in H
  | H : Plain _ = _ |- _ => subst
  | H : TCS _ = _ |- _ => subst
  | H : match ?n with O => _ | S _ => _ end = _ |- _ => destruct n
  | H : Atom _ _ _ = _ |- _ => subst
  | H : Scalar _ = Elem _ _ |- _ => discriminate H
  | H : Elem ?v _ = Elem ?w _ |- _ =>
      first [ discriminate H | injection H as H ]
  | H : In _ (constraint_atoms _) |- _ =>
      cbn [constraint_atoms cvalue_atoms map concat app] in H
  | H : In _ (atom_vars _) |- _ =>
      rewrite ?te_exp_minus1_expr_3 in H;
      cbn [atom_vars expr_vars lhs rhs app] in H
  end.

Section Mentions.
Variables N1 N2 N3 : nat.
Local Abbreviation c :=
  {| Nclimb1 := Z.of_nat N1; Nclimb2 := Z.of_nat N2; Ncruise2 := Z.of_nat N3 |}.

Lemma z_bre_not_in_mission (m : model) (j : nat) :
  (1 <= N1)%nat ->
  CommericalMissionConstraints c (index_lists c) = OK m ->
  ~ In (Elem vec.z_bre j) (vars m).
Proof.
  intros HN1 Hm Hin. rewrite CommericalMissionConstraints_closed in Hm by lia.
  injection Hm as <-.
  apply In_vars_inv in Hin as (con & k & Hcon & Hk & Hx).
  cbn [constraints] in Hcon.
  repeat mention_step.
Qed.

Lemma z_bre_not_in_climb1 (m : model) (j : nat) :
  Climb1 c (index_lists c) = OK m -> ~ In (Elem vec.z_bre j) (vars m).
Proof.
  intros Hm Hin. rewrite Climb1_closed in Hm. injection Hm as <-.
  apply In_vars_inv in Hin as (con & k & Hcon & Hk & Hx).
  cbn [constraints] in Hcon.
  repeat mention_step.
Qed.

Lemma z_bre_not_in_climb2 (m : model) (j : nat) :
  Climb2 c (index_lists c) = OK m -> ~ In (Elem vec.z_bre j) (vars m).
Proof.
  intros Hm Hin. rewrite Climb2_closed in Hm. injection Hm as <-.
  apply In_vars_inv in Hin as (con & k & Hcon & Hk & Hx).
  cbn [constraints] in Hcon.
  repeat mention_step.
Qed.

Lemma z_bre_in_cruise2 (m : model) (j : nat) :
  (1 <= N3)%nat ->
  Cruise2 c (index_lists c) = OK m ->
  In (Elem vec.z_bre j) (vars m) -> (j < N3)%nat.
Proof.
  intros HN3 Hm Hin. rewrite Cruise2_closed in Hm by lia. injection Hm as <-.
  apply In_vars_inv in Hin as (con & k & Hcon & Hk & Hx).
  cbn [constraints] in Hcon.
  repeat mention_step; lia.
Qed.

End Mentions.

Lemma In_vars_app (cst : option expr) (cs1 cs2 : list constraint) (x : varkey) :
  In x (vars {| cost := cst; constraints := cs1 ++ cs2 |}) ->
  In x (vars {| cost := None; constraints := cs1 |}) \/
  In x (vars {| cost := None; constraints := cs2 |}).
Proof.
  intros H. apply In_vars_inv in H as (con & k & Hcon & Hk & Hx).
  cbn [constraints] in Hcon. apply in_app_or in Hcon as [Hcon|Hcon]; [left|right];
    (eapply In_vars_intro; [eapply atoms_intro; [exact Hcon | exact Hk] | exact Hx]).
Qed.

(** C10, as the code has it: [z_bre] is declared with [Nseg] entries, but
    the linked model mentions exactly the entries at the slots
    [izbre = 0 .. Ncruise2-1]; the entries from [Ncruise2] up to
    [Nseg - 1] are in no constraint of any group.  With no more cruise
    segments than climb-1 segments (as the source has it) those slots are
    climb-1 slots and none is a cruise slot; in general a slot of [izbre]
    is a climb-1 slot exactly when it is below [Nclimb1] and a cruise slot
    exactly when it is [Nclimb] or more. *)
Theorem z_bre_slots (c : counts) (ix : indices) (L : model) :
  build_indices c = OK ix ->
  CommercialAircraft c ix = OK L ->
  len (vector c vec.z_bre) = Nseg c /\
  izbre ix = range 0 (Ncruise2 c) /\
  (forall j : nat, In (Elem vec.z_bre j) (vars L) <-> (Z.of_nat j < Ncruise2 c)%Z) /\
  (forall j : nat, (Ncruise2 c <= Z.of_nat j < Nseg c)%Z ->
                   ~ In (Elem vec.z_bre j) (vars L)) /\
  ((Ncruise2 c <= Nclimb1 c)%Z ->
   forall s : Z, In s (izbre ix) -> In s (iclimb1 ix) /\ ~ In s (icruise2 ix)) /\
  (forall s : Z, In s (izbre ix) ->
     (In s (iclimb1 ix) <-> (s < Nclimb1 c)%Z) /\
     (In s (icruise2 ix) <-> (Nclimb c <= s)%Z)).
Proof.
  intros Hix HL.
  destruct (linked_model_inv c ix L Hix HL)
    as (N1 & N2 & N3 & cmc & cl1 & cl2 & c2 & (H1 & H2 & H3) & -> & -> & Hcmc
        & Hcl1 & Hcl2 & Hc2 & ->).
  assert (Hiff : forall j : nat,
            In (Elem vec.z_bre j)
               (vars {| cost := cost cmc;
                        constraints := constraints cmc ++ constraints cl1
                                       ++ constraints cl2 ++ constraints c2 |})
            <-> (Z.of_nat j < Z.of_nat N3)%Z).
  { intros j. split.
    - intros Hin.
      apply In_vars_app in Hin as [Hin|Hin].
      { exfalso. apply (z_bre_not_in_mission N1 N2 N3 cmc j H1 Hcmc).
        destruct cmc as [cst cs]. exact Hin. }
      apply In_vars_app in Hin as [Hin|Hin].
      { exfalso. apply (z_bre_not_in_climb1 N1 N2 N3 cl1 j Hcl1).
        destruct cl1 as [cst cs]. exact Hin. }
      apply In_vars_app in Hin as [Hin|Hin].
      { exfalso. apply (z_bre_not_in_climb2 N1 N2 N3 cl2 j Hcl2).
        destruct cl2 as [cst cs]. exact Hin. }
      apply Nat2Z.inj_lt. apply (z_bre_in_cruise2 N1 N2 N3 c2 j H3 Hc2).
      destruct c2 as [cst cs]. exact Hin.
    - intros Hj. apply Nat2Z.inj_lt in Hj.
      assert (Ht : has_tight c2
                (Atom (EVar (Elem vec.RngCruise (0 + j))) Le
                   (EDiv (EMul (EMul (EVar (Elem vec.z_bre (0 + j)))
                                     (EVar (Elem vec.LD (N1 + N2 + j))))
                               (EVar (Elem vec.V (N1 + N2 + j))))
                         (EMul (EVar (Elem vec.TSFC (N1 + N2 + j)))
                               (EVar (Scalar sca.g)))))).
      { rewrite Cruise2_closed in Hc2 by lia. injection Hc2 as <-.
        apply (has_tight_many _
                 (fun k => Atom (EVar (Elem vec.RngCruise (0 + k))) Le
                     (EDiv (EMul (EMul (EVar (Elem vec.z_bre (0 + k)))
                                       (EVar (Elem vec.LD (N1 + N2 + k))))
                                 (EVar (Elem vec.V (N1 + N2 + k))))
                           (EMul (EVar (Elem vec.TSFC (N1 + N2 + k)))
                                 (EVar (Scalar sca.g)))))
                 (seq 0 N3) j); [in_literal | apply in_seq; lia]. }
      eapply In_vars_intro.
      + apply has_tight_atoms. apply (has_tight_incl c2); [|exact Ht].
        intros con Hcon. in_linked.
      + cbn [atom_vars expr_vars lhs rhs app Nat.add]. right. now left. }
  split; [|split; [|split; [|split; [|split]]]].
  - unfold len, vector, VectorVariable. rewrite length_map, length_seq.
    cbn [vec_len]. rewrite Nseg_nat. now rewrite Nat2Z.id.
  - reflexivity.
  - exact Hiff.
  - intros j Hj Hin. apply Hiff in Hin. cbn [Ncruise2] in Hj. lia.
  - cbn [Ncruise2 Nclimb1 Nclimb2 izbre iclimb1 icruise2 index_lists].
    intros Hle s Hs. apply In_range in Hs. split.
    + apply In_range. lia.
    + intros Hs'. apply In_range in Hs'. lia.
  - replace (Nclimb _) with (Z.of_nat N1 + Z.of_nat N2)%Z by len_tac.
    cbn [Ncruise2 Nclimb1 Nclimb2 izbre iclimb1 icruise2 index_lists].
    intros s Hs. apply In_range in Hs. rewrite !In_range. lia.
Qed.

(** C10 as stated fails: with two climb-1 segments, one climb-2 segment
    and four cruise segments the model is built, [izbre] is [0, 1, 2, 3]
    and [icruise2] is [3, 4, 5, 6], so [z_bre[3]] is in a constraint at a
    slot that is a cruise slot and not a climb-1 slot. *)
Lemma z_bre_slots_not_climb1 :
  let c := {| Nclimb1 := 2; Nclimb2 := 1; Ncruise2 := 4 |} in
  exists ix L,
    build_indices c = OK ix /\ CommercialAircraft c ix = OK L /\
    iclimb1 ix = [0; 1]%Z /\ iclimb2 ix = [2]%Z /\
    icruise2 ix = [3; 4; 5; 6]%Z /\ izbre ix = [0; 1; 2; 3]%Z /\
    In (Elem vec.z_bre 3) (vars L) /\
    ~ z_bre_slots_spec c ix L.
Proof.
  intros c.
  exists (index_lists c), (built (CommercialAircraft c (index_lists c))).
  split; [vm_compute; reflexivity|]. split; [vm_compute; reflexivity|].
  split; [reflexivity|]. split; [reflexivity|].
  split; [reflexivity|]. split; [reflexivity|]. split.
  - vm_compute. repeat (first [left; reflexivity | right]).
  - intros (_ & _ & _ & H & _).
    destruct (H 3%Z) as [Hin _].
    + vm_compute. right. right. right. left. reflexivity.
    + vm_compute in Hin. destruct Hin as [Hin|[Hin|[]]]; discriminate Hin.
Qed.

(** ** The source's counts: the model is built and its constraints can be met *)

Lemma build_indices_source_indices :
  build_indices source_counts = OK source_indices.
Proof. vm_compute. reflexivity. Qed.

Lemma source_model_built :
  CommercialAircraft source_counts source_indices = OK source_model.
Proof. vm_compute. reflexivity. Qed.

Ltac holds_example :=
  unfold holds;
  cbn [op lhs rhs eval units_of vec_units sca_units factor example_solution
       nth Nat.ltb Nat.leb Nat.sub];
  unfold climb_fuel, cruise_hours, lbf, Q2R; cbn [Qnum Qden];
  first [ lra
        | rewrite Rmult_1_r; f_equal; lra ].

Lemma example_solution_satisfies : satisfies example_solution source_model.
Proof.
  unfold satisfies.
  let l := eval vm_compute in (atoms source_model) in
  change (Forall (holds example_solution) l).
  repeat (apply List.Forall_cons; [holds_example|]).
  apply List.Forall_nil.
Qed.

Lemma example_solution_positive : positive example_solution.
Proof.
  assert (Hlbf : (0 < lbf)%R) by (unfold lbf; lra).
  assert (Hfuel : (0 < climb_fuel)%R).
  { unfold climb_fuel, lbf. lra. }
  assert (Hhours : forall r, (0 < r -> 0 < cruise_hours r)%R).
  { intros r Hr. unfold cruise_hours. lra. }
  intros [s|v i].
  - destruct s; cbn [example_solution]; unfold lbf; lra.
  - do 10 (destruct i as [|i];
           [destruct v; cbn [example_solution nth Nat.ltb Nat.leb Nat.sub];
            first [ lra | apply exp_pos | apply Hhours; lra
                  | apply Rmult_lt_0_compat; [lra | apply Hhours; lra] ]|]).
    destruct v; cbn [example_solution nth Nat.ltb Nat.leb Nat.sub];
      first [ lra | apply exp_pos | apply Hhours; lra
            | apply Rmult_lt_0_compat; [lra | apply Hhours; lra] ].
Qed.

(** ** The declared values leave the source's model without a solution *)

Ltac in_computed := repeat (first [left; reflexivity | right]).

(** A feasible solution is positive and meets every constraint, so what
    holds of the positive solutions that satisfy a model holds of its
    feasible ones. *)
Lemma feasible_satisfies (sol : solution) (m : model) :
  feasible sol m -> positive sol /\ satisfies sol m.
Proof. intros (Hpos & Hsat & _). split; assumption. Qed.

(** With [S], [K], [thrust] and [climbspeed] at their declared values the
    first climb segment starts at 440000 N or more (empty weight plus
    payload, and fuel only burns), flies at 250 knots or less, and then
    the induced-drag term [W/S*2*K/rho/V] alone exceeds [V*thrust/W]: the
    climb-rate constraint has no solution. *)
Lemma source_model_infeasible (sol : solution) : ~ feasible sol source_model.
Proof.
  intros (Hpos & Hsat & Hsub).
  unfold satisfies in Hsat. unfold substituted in Hsub.
  let l := eval vm_compute in (atoms source_model) in
  change (Forall (holds sol) l) in Hsat.
  let l := eval vm_compute in (vars source_model) in
  change (vars source_model) with l in Hsub.
  pose proof (proj1 (List.Forall_forall _ _) Hsat) as Hatom. clear Hsat.
  (* declared values *)
  assert (HS : sol (Scalar sca.S) = Q2R (12458 # 100))
    by (apply Hsub; [in_computed | reflexivity]).
  assert (HK : sol (Scalar sca.K) = Q2R (9 # 10))
    by (apply Hsub; [in_computed | reflexivity]).
  assert (HT : sol (Scalar sca.thrust) = Q2R (87000 # 1))
    by (apply Hsub; [in_computed | reflexivity]).
  assert (Hcs : sol (Scalar sca.climbspeed) = Q2R (250 # 1))
    by (apply Hsub; [in_computed | reflexivity]).
  unfold Q2R in HS, HK, HT, Hcs. cbn [Qnum Qden] in HS, HK, HT, Hcs.
  (* the weights *)
  pose proof (Hatom (Atom (EVar (Scalar sca.W_e)) Eq (EQty 40000 u_N))
                ltac:(in_computed)) as HWe.
  pose proof (Hatom (Atom (EVar (Scalar sca.W_payload)) Eq (EQty 400000 u_N))
                ltac:(in_computed)) as HWp.
  pose proof (Hatom (Atom (EAdd (EVar (Scalar sca.W_e)) (EVar (Scalar sca.W_payload)))
                          Le (EVar (Elem vec.W_end 8)))
                ltac:(in_computed)) as HWend.
  assert (Hbal : forall i, (i < 9)%nat ->
            holds sol (Atom (EVar (Elem vec.W_start i)) Ge
                            (EAdd (EVar (Elem vec.W_end i)) (EVar (Elem vec.W_fuel i))))).
  { intros i Hi. apply Hatom.
    do 9 (destruct i as [|i]; [in_computed|]). lia. }
  assert (Hcont : forall i, (i < 8)%nat ->
            holds sol (Atom (EVar (Elem vec.W_start (S i))) Eq
                            (EVar (Elem vec.W_end i)))).
  { intros i Hi. apply Hatom.
    do 8 (destruct i as [|i]; [in_computed|]). lia. }
  pose proof (Hbal 0%nat ltac:(lia)) as B0. pose proof (Hbal 1%nat ltac:(lia)) as B1.
  pose proof (Hbal 2%nat ltac:(lia)) as B2. pose proof (Hbal 3%nat ltac:(lia)) as B3.
  pose proof (Hbal 4%nat ltac:(lia)) as B4. pose proof (Hbal 5%nat ltac:(lia)) as B5.
  pose proof (Hbal 6%nat ltac:(lia)) as B6. pose proof (Hbal 7%nat ltac:(lia)) as B7.
  pose proof (Hbal 8%nat ltac:(lia)) as B8.
  pose proof (Hcont 0%nat ltac:(lia)) as C0. pose proof (Hcont 1%nat ltac:(lia)) as C1.
  pose proof (Hcont 2%nat ltac:(lia)) as C2. pose proof (Hcont 3%nat ltac:(lia)) as C3.
  pose proof (Hcont 4%nat ltac:(lia)) as C4. pose proof (Hcont 5%nat ltac:(lia)) as C5.
  pose proof (Hcont 6%nat ltac:(lia)) as C6. pose proof (Hcont 7%nat ltac:(lia)) as C7.
  clear Hbal Hcont.
  (* the first climb segment *)
  pose proof (Hatom (Atom (EVar (Elem vec.V 0)) Le (EVar (Scalar sca.climbspeed)))
                ltac:(in_computed)) as HV.
  pose proof (Hatom (Atom (EVar (Elem vec.rho 0)) Eq (EQty (1225 # 1000) u_kg_m3))
                ltac:(in_computed)) as Hrho.
  pose proof (Hatom
    (Atom (EAdd
             (EAdd (EVar (Elem vec.RC 0))
                (EMul
                   (EDiv
                      (EMul
                         (EMul (EMul (ENum (1 # 2)) (EPow (EVar (Elem vec.V 0)) 3))
                               (EVar (Elem vec.rho 0)))
                         (EVar (Scalar sca.S)))
                      (EVar (Elem vec.W_start 0)))
                   (EVar (Scalar sca.Cd0))))
             (EDiv
                (EDiv
                   (EMul
                      (EMul (EDiv (EVar (Elem vec.W_start 0)) (EVar (Scalar sca.S)))
                            (ENum 2))
                      (EVar (Scalar sca.K)))
                   (EVar (Elem vec.rho 0)))
                (EVar (Elem vec.V 0))))
          Le
          (EDiv (EMul (EVar (Elem vec.V 0)) (EVar (Scalar sca.thrust)))
                (EVar (Elem vec.W_start 0))))
    ltac:(in_computed)) as Hrate.
  unfold holds in *.
  cbn [op lhs rhs eval units_of vec_units sca_units factor] in *.
  unfold Q2R in *. cbn [Qnum Qden] in *.
  pose proof (Hpos (Elem vec.W_fuel 0)). pose proof (Hpos (Elem vec.W_fuel 1)).
  pose proof (Hpos (Elem vec.W_fuel 2)). pose proof (Hpos (Elem vec.W_fuel 3)).
  pose proof (Hpos (Elem vec.W_fuel 4)). pose proof (Hpos (Elem vec.W_fuel 5)).
  pose proof (Hpos (Elem vec.W_fuel 6)). pose proof (Hpos (Elem vec.W_fuel 7)).
  pose proof (Hpos (Elem vec.W_fuel 8)).
  pose proof (Hpos (Elem vec.V 0)) as HVpos.
  pose proof (Hpos (Elem vec.RC 0)) as HRCpos.
  pose proof (Hpos (Scalar sca.Cd0)) as HCd0.
  set (W := (sol (Elem vec.W_start 0) * (44482216152605 / 10000000000000))%R) in *.
  set (v := (sol (Elem vec.V 0) * (1852 / 3600))%R) in *.
  assert (HW : (440000 <= W)%R) by (subst W; lra).
  assert (Hv : (0 < v <= 250 * (1852 / 3600))%R) by (subst v; lra).
  rewrite HS, HK, HT in Hrate.
  assert (Hr : (sol (Elem vec.rho 0) * 1 = 1225 / 1000)%R) by lra.
  rewrite Hr in Hrate.
  assert (Hsecond : (0 < 1 * / 2 * v ^ 3 * (1225 / 1000) * (12458 * / 100 * 1) / W
                         * (sol (Scalar sca.Cd0) * 1))%R).
  { apply Rmult_lt_0_compat; [|lra].
    apply Rdiv_lt_0_compat; [|lra].
    assert (0 < v ^ 3)%R by (apply pow_lt; lra).
    apply Rmult_lt_0_compat; [apply Rmult_lt_0_compat|]; lra. }
  assert (Hthird : (W / (12458 * / 100 * 1) * (2 * / 1) * (9 * / 10 * 1) / (1225 / 1000) / v
                    < v * (87000 * / 1 * 1) / W)%R) by lra.
  assert (Hcross : (2 * (9 / 10) * (W * W)
                    < 12458 / 100 * (1225 / 1000) * 87000 * (v * v))%R).
  { apply (Rmult_lt_compat_r (12458 / 100 * (1225 / 1000) * v * W)) in Hthird.
    - replace (W / (12458 * / 100 * 1) * (2 * / 1) * (9 * / 10 * 1) / (1225 / 1000) / v
               * (12458 / 100 * (1225 / 1000) * v * W))%R
        with (2 * (9 / 10) * (W * W))%R in Hthird by (field; lra).
      replace (v * (87000 * / 1 * 1) / W * (12458 / 100 * (1225 / 1000) * v * W))%R
        with (12458 / 100 * (1225 / 1000) * 87000 * (v * v))%R in Hthird
        by (field; lra).
      exact Hthird.
    - apply Rmult_lt_0_compat; [apply Rmult_lt_0_compat|]; lra. }
  assert (HW2 : (440000 * 440000 <= W * W)%R) by nra.
  assert (Hv2 : (v * v <= 250 * (1852 / 3600) * (250 * (1852 / 3600)))%R) by nra.
  lra.
Qed.

(** ** The theorems at the source's counts *)

Lemma staged_cruise_range_witness :
  (example_solution (Elem vec.RngCruise 2)
   >= IZR (Z.of_nat 2 + 1) * example_solution (Scalar sca.ReqRngCruise)
      / IZR (Nseg source_counts))%R /\
  (cumulative_cruise_range example_solution 2
   >= IZR (Z.of_nat 2 + 1) * example_solution (Scalar sca.ReqRngCruise)
      / IZR (Nseg source_counts))%R.
Proof.
  apply (staged_cruise_range source_counts source_indices source_model
           example_solution 2).
  - vm_compute. reflexivity.
  - vm_compute. reflexivity.
  - exact example_solution_positive.
  - exact example_solution_satisfies.
  - vm_compute. reflexivity.
Defined.

Lemma weight_continuity_witness :
  In (Plain (One (Atom (EVar (Elem vec.W_start 1)) Eq (EVar (Elem vec.W_end 0)))))
     (constraints (built (CommericalMissionConstraints source_counts source_indices)))
  /\ example_solution (Elem vec.W_start 1) = example_solution (Elem vec.W_end 0).
Proof.
  destruct (weight_continuity source_counts source_indices
              (built (CommericalMissionConstraints source_counts source_indices))
              source_model 1) as [Hin Hsol].
  - vm_compute. reflexivity.
  - vm_compute. reflexivity.
  - vm_compute. reflexivity.
  - lia.
  - vm_compute. reflexivity.
  - split; [exact Hin | exact (Hsol _ example_solution_satisfies)].
Defined.

Lemma breguet_constraints_witness :
  let z := EVar (Elem vec.z_bre 1) in
  has_tight (built (Cruise2 source_counts source_indices))
    (Atom (EDiv (EVar (Elem vec.W_fuel 7)) (EVar (Elem vec.W_end 7))) Ge
          (te_exp_minus1_expr z 3)) /\
  has_tight (built (Cruise2 source_counts source_indices))
    (Atom (EVar (Elem vec.RngCruise 1)) Le
          (EDiv (EMul (EMul z (EVar (Elem vec.LD 7))) (EVar (Elem vec.V 7)))
                (EMul (EVar (Elem vec.TSFC 7)) (EVar (Scalar sca.g))))).
Proof.
  destruct (breguet_constraints source_counts source_indices
              (built (Cruise2 source_counts source_indices)) 1)
    as (Hfuel & Hrng & _).
  - vm_compute. reflexivity.
  - vm_compute. reflexivity.
  - vm_compute. reflexivity.
  - split; [exact Hfuel | exact Hrng].
Defined.

Lemma altitude_constraints_witness :
  In (Plain (One (Atom (EVar (Elem vec.hft 2)) Eq (EVar (Scalar sca.alt10k)))))
     (constraints (built (CommericalMissionConstraints source_counts source_indices)))
  /\ has_plain (built (CommericalMissionConstraints source_counts source_indices))
       (Atom (EVar (Elem vec.hft 7)) Eq (EVar (Elem vec.hft 5)))
  /\ example_solution (Elem vec.hft 2) = 10000%R
  /\ example_solution (Elem vec.hft 7) = example_solution (Elem vec.hft 5).
Proof.
  destruct (altitude_constraints source_counts source_indices
              (built (CommericalMissionConstraints source_counts source_indices))
              source_model) as ((H10k & _) & Hmatch & Hsol).
  - vm_compute. reflexivity.
  - vm_compute. reflexivity.
  - vm_compute. reflexivity.
  - destruct (Hsol example_solution example_solution_satisfies)
      as [Hlast Hcruise]; [reflexivity|].
    split; [exact H10k|].
    split; [apply (Hmatch 1%nat); vm_compute; reflexivity|].
    split; [exact Hlast|].
    apply (Hcruise 1%nat). vm_compute. reflexivity.
Defined.

Lemma climb_range_constraints_witness :
  has_tight (built (Climb2 source_counts source_indices))
    (Atom (EAdd (EVar (Elem vec.RngClimb 4))
                (EMul (EMul (EMul (ENum (1 # 2)) (EVar (Elem vec.thours 4)))
                            (EVar (Elem vec.V 4)))
                      (EPow (EVar (Elem vec.theta 4)) 2)))
          Le (EMul (EVar (Elem vec.thours 4)) (EVar (Elem vec.V 4)))) /\
  has_plain (built (Climb2 source_counts source_indices))
    (Atom (EMul (EVar (Elem vec.theta 4)) (EVar (Elem vec.V 4))) Eq
          (EVar (Elem vec.RC 4))).
Proof.
  destruct (climb_range_constraints source_counts source_indices
              (built (Climb1 source_counts source_indices))
              (built (Climb2 source_counts source_indices)) 4)
    as (Hrng & Hangle & _).
  - vm_compute. reflexivity.
  - vm_compute. reflexivity.
  - vm_compute. reflexivity.
  - vm_compute. reflexivity.
  - split; [exact Hrng | exact Hangle].
Defined.

Lemma poor_mans_contour_restores_witness :
  exists ax model',
    example_contour = OK (ax, model') /\
    plotting.substitutions model' !! "V" = Some (plotting.Fixed 30) /\
    plotting.substitutions model' !! "S" = Some (plotting.Fixed 25).
Proof.
  destruct example_contour as [[ax model']|e] eqn:E.
  - exists ax, model'. split; [reflexivity|].
    destruct (poor_mans_contour_restores example_solve example_gpmodel
                "V" [10; 20; 30]%Q "S" [20; 25]%Q "W" [0; 5]%Q None None None None
                ax model' E)
      as (_ & _ & Hx & Hz).
    rewrite Hx, Hz. split; vm_compute; reflexivity.
  - vm_compute in E. discriminate.
Defined.

Lemma cruise_altitude_pins_climb_witness :
  (forall k : nat, (Z.of_nat k < Ncruise2 source_counts)%Z ->
     example_solution (Elem vec.hft (Z.to_nat (Nclimb source_counts) + k)) = 35000%R) /\
  example_solution (Elem vec.hft (Z.to_nat (Nclimb source_counts - 1))) = 35000%R.
Proof.
  apply (cruise_altitude_pins_climb source_counts source_indices source_model
           example_solution).
  - vm_compute. reflexivity.
  - vm_compute. reflexivity.
  - exact example_solution_satisfies.
Defined.

Lemma z_bre_slots_witness :
  len (vector source_counts vec.z_bre) = 9%Z /\
  izbre source_indices = [0; 1; 2]%Z /\
  In (Elem vec.z_bre 2) (vars source_model) /\
  ~ In (Elem vec.z_bre 3) (vars source_model) /\
  ~ In (Elem vec.z_bre 8) (vars source_model) /\
  (forall s : Z, In s (izbre source_indices) ->
     In s (iclimb1 source_indices) /\ ~ In s (icruise2 source_indices)).
Proof.
  destruct (z_bre_slots source_counts source_indices source_model)
    as (Hlen & Hiz & Hiff & Hnot & Hslots & _).
  - vm_compute. reflexivity.
  - vm_compute. reflexivity.
  - split; [exact Hlen|]. split; [exact Hiz|]. split.
    + apply Hiff. vm_compute. reflexivity.
    + split; [apply Hnot; vm_compute; split; [discriminate | reflexivity]|].
      split; [apply Hnot; vm_compute; split; [discriminate | reflexivity]|].
      apply Hslots. vm_compute. discriminate.
Defined.

(** * Further properties of the code *)

(** ** Building the index lists and the model *)

Lemma counts_nat (c : counts) :
  (0 <= Nclimb1 c)%Z -> (0 <= Nclimb2 c)%Z -> (0 <= Ncruise2 c)%Z ->
  c = {| Nclimb1 := Z.of_nat (Z.to_nat (Nclimb1 c));
         Nclimb2 := Z.of_nat (Z.to_nat (Nclimb2 c));
         Ncruise2 := Z.of_nat (Z.to_nat (Ncruise2 c)) |}.
Proof. intros H1 H2 H3. destruct c as [n1 n2 n3]; cbn in *. f_equal; lia. Qed.

(** X1: the index computation succeeds exactly when both climb phases have
    at least one segment and the cruise count is not negative, and what it
    returns is then the four runs of consecutive slots. *)
Theorem build_indices_iff (c : counts) (ix : indices) :
  build_indices c = OK ix <->
  ((1 <= Nclimb1 c)%Z /\ (1 <= Nclimb2 c)%Z /\ (0 <= Ncruise2 c)%Z) /\
  ix = index_lists c.
Proof.
  split.
  - intros H.
    destruct (build_indices_inv c ix H) as (N1 & N2 & N3 & H1 & H2 & -> & ->).
    cbn [Nclimb1 Nclimb2 Ncruise2]. split; [lia | reflexivity].
  - intros ((H1 & H2 & H3) & ->). now apply build_indices_ok.
Qed.

Lemma build_indices_iff_witness :
  build_indices source_counts = OK source_indices /\
  forall ix, build_indices {| Nclimb1 := 3; Nclimb2 := 0; Ncruise2 := 3 |} <> OK ix.
Proof.
  split.
  - apply (build_indices_iff source_counts source_indices).
    split; [vm_compute; repeat split; discriminate | reflexivity].
  - intros ix H.
    apply (build_indices_iff {| Nclimb1 := 3; Nclimb2 := 0; Ncruise2 := 3 |} ix) in H
      as ((_ & H & _) & _).
    cbn in H. lia.
Defined.

(** X2: which exception the index computation raises.  The counts are
    looked at in the order climb 1, climb 2, cruise 2 and the first
    offending one decides: a negative count raises [ValueError] (from
    [linspace]), a climb count of zero raises [IndexError] (the last
    element of an empty list). *)
Theorem build_indices_exception (c : counts) :
  ((Nclimb1 c < 0)%Z -> build_indices c = Raise ValueError) /\
  (Nclimb1 c = 0%Z -> build_indices c = Raise IndexError) /\
  ((1 <= Nclimb1 c)%Z -> (Nclimb2 c < 0)%Z -> build_indices c = Raise ValueError) /\
  ((1 <= Nclimb1 c)%Z -> Nclimb2 c = 0%Z -> build_indices c = Raise IndexError) /\
  ((1 <= Nclimb1 c)%Z -> (1 <= Nclimb2 c)%Z -> (Ncruise2 c < 0)%Z ->
   build_indices c = Raise ValueError).
Proof.
  destruct c as [n1 n2 n3]. unfold build_indices. cbn [Nclimb1 Nclimb2 Ncruise2].
  assert (Hstep : (1 <= n1)%Z ->
            (i1 ← int_linspace 0 (n1 - 1) n1;
             last1 ← getitem i1 (len i1 - 1);
             i2 ← int_linspace (last1 + 1) (n2 + last1) n2;
             last2 ← getitem i2 (len i2 - 1);
             i3 ← int_linspace (last2 + 1) (n3 + last2) n3;
             iz ← int_linspace 0 (n3 - 1) n3;
             OK {| iclimb1 := i1; iclimb2 := i2; icruise2 := i3; izbre := iz |})
            = (i2 ← int_linspace (n1 - 1 + 1) (n2 + (n1 - 1)) n2;
               last2 ← getitem i2 (len i2 - 1);
               i3 ← int_linspace (last2 + 1) (n3 + last2) n3;
               iz ← int_linspace 0 (n3 - 1) n3;
               OK {| iclimb1 := range 0 (0 + n1); iclimb2 := i2;
                     icruise2 := i3; izbre := iz |})).
  { intros H1. replace (n1 - 1)%Z with (0 + n1 - 1)%Z at 1 by lia.
    rewrite (int_linspace_range 0 n1), bind_OK by lia.
    rewrite getitem_range_last, bind_OK by lia.
    replace (0 + n1 - 1)%Z with (n1 - 1)%Z by lia. reflexivity. }
  repeat split.
  - intros H. now rewrite (int_linspace_negative _ _ n1) by lia.
  - intros ->. reflexivity.
  - intros H1 H2. rewrite Hstep by lia.
    now rewrite (int_linspace_negative _ _ n2) by lia.
  - intros H1 ->. rewrite Hstep by lia. reflexivity.
  - intros H1 H2 H3. rewrite Hstep by lia.
    replace (n2 + (n1 - 1))%Z with ((n1 - 1 + 1) + n2 - 1)%Z by lia.
    rewrite (int_linspace_range _ n2), bind_OK by lia.
    rewrite getitem_range_last, bind_OK by lia.
    now rewrite !(int_linspace_negative _ _ n3) by lia.
Qed.

Lemma build_indices_exception_witness :
  build_indices {| Nclimb1 := 0; Nclimb2 := -1; Ncruise2 := 3 |} = Raise IndexError /\
  build_indices {| Nclimb1 := 2; Nclimb2 := -1; Ncruise2 := 0 |} = Raise ValueError.
Proof.
  split.
  - destruct (build_indices_exception {| Nclimb1 := 0; Nclimb2 := -1; Ncruise2 := 3 |})
      as (_ & H & _).
    apply H. reflexivity.
  - destruct (build_indices_exception {| Nclimb1 := 2; Nclimb2 := -1; Ncruise2 := 0 |})
      as (_ & _ & H & _).
    apply H; cbn; lia.
Defined.

(** X3: the cruise constraints pair entry [k] of [izbre] with entry [k] of
    [icruise2].  After a successful index computation both lists have
    [Ncruise2] entries, [izbre[k]] is [k] and [icruise2[k]] is the slot
    [Nclimb + k]: cruise segment [k] of [RngCruise] and [z_bre] goes with
    flight segment [Nclimb + k]. *)
Theorem izbre_pairs_with_icruise2 (c : counts) (ix : indices) (k : Z) :
  build_indices c = OK ix ->
  (0 <= k < Ncruise2 c)%Z ->
  len (izbre ix) = Ncruise2 c /\ len (icruise2 ix) = Ncruise2 c /\
  getitem (izbre ix) k = OK k /\
  getitem (icruise2 ix) k = OK (Nclimb c + k)%Z.
Proof.
  intros Hix Hk.
  destruct (build_indices_inv c ix Hix) as (N1 & N2 & N3 & H1 & H2 & -> & ->).
  cbn [Ncruise2] in *. unfold index_lists. cbn [izbre icruise2 Nclimb1 Nclimb2 Ncruise2].
  unfold len. rewrite !length_range, !getitem_range by lia.
  repeat split; try lia. f_equal. len_tac.
Qed.

Lemma izbre_pairs_with_icruise2_witness :
  len (izbre source_indices) = 3%Z /\ len (icruise2 source_indices) = 3%Z /\
  getitem (izbre source_indices) 1 = OK 1%Z /\
  getitem (icruise2 source_indices) 1 = OK 7%Z.
Proof.
  apply (izbre_pairs_with_icruise2 source_counts source_indices 1).
  - vm_compute. reflexivity.
  - vm_compute. split; [discriminate | reflexivity].
Defined.

Lemma groups_built (N1 N2 N3 : nat) :
  (1 <= N1)%nat ->
  let c := {| Nclimb1 := Z.of_nat N1; Nclimb2 := Z.of_nat N2;
              Ncruise2 := Z.of_nat N3 |} in
  exists cmc climb1 climb2,
    CommericalMissionConstraints c (index_lists c) = OK cmc /\
    Climb1 c (index_lists c) = OK climb1 /\
    Climb2 c (index_lists c) = OK climb2.
Proof.
  intros H1 c. subst c.
  rewrite CommericalMissionConstraints_closed, Climb1_closed, Climb2_closed by lia.
  do 3 eexists. repeat split; reflexivity.
Qed.

(** X4: a cruise count of zero is accepted by the index computation (all
    lists are built, the cruise ones empty), but the cruise group asks for
    [min(izbre)], which raises [ValueError] on an empty list: the cruise
    group and with it the linked model are not built, and the script stops
    with an exception before the solver is reached. *)
Theorem zero_cruise_count_fails (c : counts) :
  (1 <= Nclimb1 c)%Z -> (1 <= Nclimb2 c)%Z -> Ncruise2 c = 0%Z ->
  build_indices c = OK (index_lists c) /\
  icruise2 (index_lists c) = [] /\ izbre (index_lists c) = [] /\
  py_min (izbre (index_lists c)) = Raise ValueError /\
  fails (Cruise2 c (index_lists c)) /\
  exists e, forall Sol (localsolve : model -> result Sol),
    main localsolve c = Raise e.
Proof.
  intros H1 H2 H3.
  assert (Hix : build_indices c = OK (index_lists c)) by (apply build_indices_ok; lia).
  assert (Hiz : izbre (index_lists c) = [])
    by (unfold index_lists; cbn [izbre]; apply range_empty; lia).
  split; [exact Hix|].
  split; [unfold index_lists; cbn [icruise2]; apply range_empty; lia|].
  split; [exact Hiz|].
  split; [now rewrite Hiz|].
  rewrite (counts_nat c) by lia. rewrite H3. change (Z.to_nat 0) with 0%nat.
  set (N1 := Z.to_nat (Nclimb1 c)). set (N2 := Z.to_nat (Nclimb2 c)).
  pose proof (Cruise2_no_cruise N1 N2) as Hc2. cbv zeta in Hc2.
  split; [exists ValueError; exact Hc2|].
  exists ValueError. intros Sol localsolve. unfold main.
  rewrite build_indices_ok by (cbn [Nclimb1 Nclimb2 Ncruise2]; lia).
  rewrite bind_OK. unfold CommercialAircraft.
  destruct (groups_built N1 N2 0) as (cmc & cl1 & cl2 & -> & -> & ->); [lia|].
  rewrite !bind_OK, Hc2. reflexivity.
Qed.

Lemma zero_cruise_count_fails_witness :
  build_indices {| Nclimb1 := 3; Nclimb2 := 3; Ncruise2 := 0 |}
  = OK (index_lists {| Nclimb1 := 3; Nclimb2 := 3; Ncruise2 := 0 |}) /\
  fails (Cruise2 {| Nclimb1 := 3; Nclimb2 := 3; Ncruise2 := 0 |}
                 (index_lists {| Nclimb1 := 3; Nclimb2 := 3; Ncruise2 := 0 |})).
Proof.
  destruct (zero_cruise_count_fails {| Nclimb1 := 3; Nclimb2 := 3; Ncruise2 := 0 |})
    as (Hix & _ & _ & _ & H & _).
  - vm_compute. discriminate.
  - vm_compute. discriminate.
  - reflexivity.
  - split; [exact Hix | exact H].
Defined.

(** X5: the linked model is built exactly when each of the three phases
    has at least one segment; the script then hands that model to the
    solver and returns what the solver returns. *)
Theorem model_built_iff (c : counts) :
  ((1 <= Nclimb1 c)%Z /\ (1 <= Nclimb2 c)%Z /\ (1 <= Ncruise2 c)%Z) <->
  exists ix L,
    build_indices c = OK ix /\ CommercialAircraft c ix = OK L /\
    forall Sol (localsolve : model -> result Sol),
      main localsolve c = localsolve L.
Proof.
  split.
  - intros (H1 & H2 & H3).
    assert (Hix : build_indices c = OK (index_lists c)) by (apply build_indices_ok; lia).
    assert (HL : exists L, CommercialAircraft c (index_lists c) = OK L).
    { rewrite (counts_nat c) by lia.
      set (N1 := Z.to_nat (Nclimb1 c)). set (N2 := Z.to_nat (Nclimb2 c)).
      set (N3 := Z.to_nat (Ncruise2 c)).
      unfold CommercialAircraft.
      destruct (groups_built N1 N2 N3) as (cmc & cl1 & cl2 & -> & -> & ->); [lia|].
      rewrite Cruise2_closed by lia. rewrite !bind_OK. eauto. }
    destruct HL as [L HL]. exists (index_lists c), L.
    split; [exact Hix|]. split; [exact HL|].
    intros Sol localsolve. unfold main. now rewrite Hix, bind_OK, HL, bind_OK.
  - intros (ix & L & Hix & HL & _).
    destruct (linked_model_inv c ix L Hix HL)
      as (N1 & N2 & N3 & cmc & cl1 & cl2 & c2 & (H1 & H2 & H3) & -> & _).
    cbn [Nclimb1 Nclimb2 Ncruise2]. lia.
Qed.

Lemma model_built_iff_witness :
  (forall Sol (localsolve : model -> result Sol),
     main localsolve source_counts = localsolve source_model) /\
  ~ exists ix L,
      build_indices {| Nclimb1 := 3; Nclimb2 := 3; Ncruise2 := 0 |} = OK ix /\
      CommercialAircraft {| Nclimb1 := 3; Nclimb2 := 3; Ncruise2 := 0 |} ix = OK L /\
      forall Sol (localsolve : model -> result Sol),
        main localsolve {| Nclimb1 := 3; Nclimb2 := 3; Ncruise2 := 0 |} = localsolve L.
Proof.
  split.
  - destruct (proj1 (model_built_iff source_counts)) as (ix & L & Hix & HL & Hmain).
    + vm_compute. repeat split; discriminate.
    + assert (ix = source_indices) as ->.
      { rewrite build_indices_source_indices in Hix. congruence. }
      assert (L = source_model) as ->.
      { rewrite source_model_built in HL. congruence. }
      exact Hmain.
  - intros H.
    apply (model_built_iff {| Nclimb1 := 3; Nclimb2 := 3; Ncruise2 := 0 |}) in H
      as (_ & _ & H).
    cbn in H. lia.
Defined.


(** ** The constraints of the linked model, one family at a time *)

Lemma eval_sum (sol : solution) (v : vec.name) (n : nat) :
  eval sol (fold_left EAdd (map (fun i => EVar (Elem v i)) (seq 0 n)) (ENum 0))
  = (vsum sol v n * factor (vec_units v))%R.
Proof.
  induction n as [|n IH].
  - cbn. unfold Q2R. cbn. lra.
  - rewrite seq_S, map_app, fold_left_app. cbn [map fold_left eval vsum units_of Nat.add].
    rewrite IH. lra.
Qed.

(** After a successful build the counts are positive naturals and the
    linked model is the four closed forms put together. *)
Ltac linked_closed Hix HL :=
  destruct (linked_model_inv _ _ _ Hix HL)
    as (N1 & N2 & N3 & cmc & cl1 & cl2 & c2 & (H1 & H2 & H3) & -> & -> & Hcmc
        & Hcl1 & Hcl2 & Hc2 & ->);
  rewrite CommericalMissionConstraints_closed in Hcmc by lia; injection Hcmc as <-;
  rewrite Climb1_closed in Hcl1; injection Hcl1 as <-;
  rewrite Climb2_closed in Hcl2; injection Hcl2 as <-;
  rewrite Cruise2_closed in Hc2 by lia; injection Hc2 as <-;
  clear Hix HL;
  rewrite ?Nseg_nat in *;
  cbn [Nclimb1 Nclimb2 Ncruise2] in *.

Ltac atoms_norm :=
  unfold atoms; cbn [constraints];
  repeat (progress (cbn [map concat constraint_atoms cvalue_atoms app];
                    repeat first [rewrite List.map_app | rewrite List.concat_app])).

(** Find an atom in the normalised list; [j] is the index to take in the
    families that range over segments. *)
Ltac find_in j :=
  lazymatch goal with
  | |- In _ (_ :: _) => first [left; reflexivity | right; find_in j]
  | |- In _ (map _ (seq _ _)) =>
      apply in_map_iff; exists j; split; [reflexivity | apply in_seq; lia]
  | |- In _ (concat (map constraint_atoms (map _ (seq _ _)))) =>
      apply in_concat; eexists; split;
      [ apply in_map; apply in_map_iff; exists j; split;
        [reflexivity | apply in_seq; lia]
      | cbn [constraint_atoms cvalue_atoms map concat app]; left; reflexivity ]
  | |- In _ (_ ++ _) => apply in_or_app; first [left; find_in j | right; find_in j]
  end.

Ltac linked_atom Hix HL j := linked_closed Hix HL; atoms_norm; find_in j.

Section LinkedAtoms.
Variables (c : counts) (ix : indices) (L : model).
Local Abbreviation X v i := (EVar (Elem v i)).
Local Notation "$ s" := (EVar (Scalar s)) (at level 1, format "$ s").
Local Abbreviation built_ok :=
  (build_indices c = OK ix /\ CommercialAircraft c ix = OK L).

(** The mission-wide group. *)

Lemma In_sound_speed (i : nat) :
  built_ok -> (Z.of_nat i < Nseg c)%Z ->
  In (Atom (X vec.a i) Eq
           (EPowF (EMul (EMul $sca.gamma $sca.R) (X vec.T i)) (1 # 2))) (atoms L).
Proof. intros [Hix HL] Hi. linked_atom Hix HL i. Qed.

Lemma In_feet_metres (i : nat) :
  built_ok -> (Z.of_nat i < Nseg c)%Z ->
  In (Atom (X vec.hft i) Eq (X vec.h i)) (atoms L).
Proof. intros [Hix HL] Hi. linked_atom Hix HL i. Qed.

Lemma In_minutes_hours (i : nat) :
  built_ok -> (Z.of_nat i < Nseg c)%Z ->
  In (Atom (X vec.tmin i) Eq (X vec.thours i)) (atoms L).
Proof. intros [Hix HL] Hi. linked_atom Hix HL i. Qed.

Lemma In_total_weight :
  built_ok ->
  In (Atom (EAdd (EAdd $sca.W_e $sca.W_payload) $sca.W_ftotal) Le $sca.W_total)
     (atoms L).
Proof. intros [Hix HL]. linked_atom Hix HL 0%nat. Qed.

Lemma In_start_total :
  built_ok -> In (Atom (X vec.W_start 0) Eq $sca.W_total) (atoms L).
Proof. intros [Hix HL]. linked_atom Hix HL 0%nat. Qed.

Lemma In_end_weight :
  built_ok ->
  In (Atom (EAdd $sca.W_e $sca.W_payload) Le (X vec.W_end (Z.to_nat (Nseg c - 1))))
     (atoms L).
Proof.
  intros [Hix HL]. linked_closed Hix HL.
  replace (Z.to_nat (Z.of_nat (N1 + N2 + N3) - 1)) with (N1 + N2 + N3 - 1)%nat by lia.
  atoms_norm. find_in 0%nat.
Qed.

Lemma In_total_fuel :
  built_ok ->
  In (Atom $sca.W_ftotal Ge
           (fold_left EAdd (map (fun i => X vec.W_fuel i) (seq 0 (Z.to_nat (Nseg c))))
                      (ENum 0))) (atoms L).
Proof.
  intros [Hix HL]. linked_closed Hix HL. rewrite Nat2Z.id.
  atoms_norm. find_in 0%nat.
Qed.

Lemma In_required_range :
  built_ok ->
  In (Atom (EAdd (fold_left EAdd (map (fun i => X vec.RngClimb i)
                                      (seq 0 (Z.to_nat (Nclimb c)))) (ENum 0))
                 (fold_left EAdd (map (fun i => X vec.RngCruise i)
                                      (seq 0 (Z.to_nat (Ncruise2 c)))) (ENum 0)))
           Ge $sca.ReqRng) (atoms L).
Proof.
  intros [Hix HL]. linked_closed Hix HL.
  replace (Z.to_nat (Nclimb _)) with (N1 + N2)%nat by len_tac.
  rewrite Nat2Z.id. atoms_norm. find_in 0%nat.
Qed.

Lemma In_required_cruise_range :
  built_ok ->
  In (Atom $sca.ReqRngCruise Ge
           (fold_left EAdd (map (fun i => X vec.RngCruise i)
                                (seq 0 (Z.to_nat (Ncruise2 c)))) (ENum 0)))
     (atoms L).
Proof.
  intros [Hix HL]. linked_closed Hix HL.
  rewrite Nat2Z.id. atoms_norm. find_in 0%nat.
Qed.

Lemma In_start_previous_end (j : nat) :
  built_ok -> (Z.of_nat (S j) < Nseg c)%Z ->
  In (Atom (X vec.W_start (S j)) Eq (X vec.W_end j)) (atoms L).
Proof. intros [Hix HL] Hj. linked_atom Hix HL j. Qed.

Lemma In_fuel_balance (j : nat) :
  built_ok -> (Z.of_nat j < Nseg c)%Z ->
  In (Atom (X vec.W_start j) Ge (EAdd (X vec.W_end j) (X vec.W_fuel j))) (atoms L).
Proof. intros [Hix HL] Hj. linked_atom Hix HL j. Qed.

Lemma In_cruise_matches_climb (k : nat) :
  built_ok -> (Z.of_nat k < Ncruise2 c)%Z ->
  In (Atom (X vec.hft (Z.to_nat (Nclimb c) + k)) Eq
           (X vec.hft (Z.to_nat (Nclimb c) - 1))) (atoms L).
Proof.
  intros [Hix HL] Hk. linked_closed Hix HL.
  replace (Z.to_nat (Nclimb _)) with (N1 + N2)%nat by len_tac.
  atoms_norm. find_in k.
Qed.

(** The two climb groups. *)

Lemma In_climb1_speed (i : nat) :
  built_ok -> (Z.of_nat i < Nclimb1 c)%Z ->
  In (Atom (X vec.V i) Le $sca.climbspeed) (atoms L) /\
  In (Atom (X vec.V i) Ge $sca.Vstall) (atoms L).
Proof. intros [Hix HL] Hi. split; linked_atom Hix HL i. Qed.

Lemma In_climb2_speed (i : nat) :
  built_ok -> (Nclimb1 c <= Z.of_nat i < Nclimb c)%Z ->
  In (Atom (X vec.V i) Le (EQty 500 u_knots)) (atoms L) /\
  In (Atom (X vec.V i) Ge $sca.Vstall) (atoms L).
Proof.
  intros [Hix HL] Hi. linked_closed Hix HL.
  replace (Nclimb _) with (Z.of_nat (N1 + N2)) in Hi by len_tac.
  replace i with (N1 + (i - N1))%nat by lia.
  split; atoms_norm; find_in (i - N1)%nat.
Qed.

Lemma In_climb_rate (i : nat) :
  built_ok -> (Z.of_nat i < Nclimb c)%Z -> In (climb_rate i) (atoms L).
Proof.
  intros [Hix HL] Hi. unfold climb_rate. linked_closed Hix HL.
  replace (Nclimb _) with (Z.of_nat (N1 + N2)) in Hi by len_tac.
  destruct (Nat.lt_ge_cases i N1) as [Hlt|Hge].
  - atoms_norm. find_in i.
  - replace i with (N1 + (i - N1))%nat by lia.
    atoms_norm. find_in (i - N1)%nat.
Qed.

Lemma In_altitude_gain (i : nat) :
  built_ok -> (Z.of_nat i < Nclimb c)%Z ->
  In (Atom (X vec.dhft i) Eq (EMul (X vec.tmin i) (X vec.RC i))) (atoms L).
Proof.
  intros [Hix HL] Hi. linked_closed Hix HL.
  replace (Nclimb _) with (Z.of_nat (N1 + N2)) in Hi by len_tac.
  destruct (Nat.lt_ge_cases i N1) as [Hlt|Hge].
  - atoms_norm. find_in i.
  - replace i with (N1 + (i - N1))%nat by lia.
    atoms_norm. find_in (i - N1)%nat.
Qed.

Lemma In_climb_fuel (i : nat) :
  built_ok -> (Z.of_nat i < Nclimb c)%Z ->
  In (Atom (X vec.W_fuel i) Eq
           (EMul (EMul (EMul $sca.g (X vec.TSFC i)) (X vec.thours i)) $sca.thrust))
     (atoms L).
Proof.
  intros [Hix HL] Hi. linked_closed Hix HL.
  replace (Nclimb _) with (Z.of_nat (N1 + N2)) in Hi by len_tac.
  destruct (Nat.lt_ge_cases i N1) as [Hlt|Hge].
  - atoms_norm. find_in i.
  - replace i with (N1 + (i - N1))%nat by lia.
    atoms_norm. find_in (i - N1)%nat.
Qed.

Lemma In_first_altitude :
  built_ok ->
  In (Atom (X vec.hft 0) Le (EAdd (EQty 1500 u_feet) (X vec.dhft 0))) (atoms L).
Proof. intros [Hix HL]. linked_atom Hix HL 0%nat. Qed.

Lemma In_altitude_step (j : nat) :
  built_ok -> (Z.of_nat (S j) < Nclimb c)%Z ->
  In (Atom (X vec.hft (S j)) Le (EAdd (X vec.hft j) (X vec.dhft (S j)))) (atoms L).
Proof.
  intros [Hix HL] Hj. linked_closed Hix HL.
  replace (Nclimb _) with (Z.of_nat (N1 + N2)) in Hj by len_tac.
  atoms_norm. find_in (S j).
Qed.

(** The cruise group. *)

Lemma In_cruise_altitude (k : nat) :
  built_ok -> (Z.of_nat k < Ncruise2 c)%Z ->
  In (Atom (X vec.hft (Z.to_nat (Nclimb c) + k)) Eq (EQty 35000 u_feet)) (atoms L).
Proof.
  intros [Hix HL] Hk. linked_closed Hix HL.
  replace (Z.to_nat (Nclimb _)) with (N1 + N2)%nat by len_tac.
  atoms_norm. find_in k.
Qed.

Lemma In_cruise_time (k : nat) :
  built_ok -> (Z.of_nat k < Ncruise2 c)%Z ->
  let s := (Z.to_nat (Nclimb c) + k)%nat in
  In (Atom (EMul (X vec.thours s) (X vec.V s)) Eq (X vec.RngCruise k)) (atoms L).
Proof.
  intros [Hix HL] Hk. linked_closed Hix HL. cbv zeta.
  replace (Z.to_nat (Nclimb _)) with (N1 + N2)%nat by len_tac.
  atoms_norm. find_in k.
Qed.

Lemma In_staged_range (k : nat) :
  built_ok -> (Z.of_nat k < Ncruise2 c)%Z ->
  In (Atom (X vec.RngCruise k) Ge
           (EDiv (EMul (ENum (inject_Z (Z.of_nat k + 1))) $sca.ReqRngCruise)
                 (ENum (inject_Z (Nseg c))))) (atoms L).
Proof. intros [Hix HL] Hk. linked_atom Hix HL k. Qed.

Lemma In_cruise_values (k : nat) :
  built_ok -> (Z.of_nat k < Ncruise2 c)%Z ->
  let s := (Z.to_nat (Nclimb c) + k)%nat in
  In (Atom (X vec.TSFC s) Eq (EQty (14 # 10) u_lb_hr_lbf)) (atoms L) /\
  In (Atom (X vec.LD s) Eq (ENum 10)) (atoms L) /\
  In (Atom (X vec.V s) Eq (EQty 420 u_knots)) (atoms L).
Proof.
  intros [Hix HL] Hk. linked_closed Hix HL. cbv zeta.
  replace (Z.to_nat (Nclimb _)) with (N1 + N2)%nat by len_tac.
  repeat split; atoms_norm; find_in k.
Qed.

Lemma In_climb_values (i : nat) :
  built_ok -> (Z.of_nat i < Nclimb c)%Z ->
  In (Atom (X vec.TSFC i) Eq $sca.c1) (atoms L) /\
  In (Atom (X vec.rho i) Eq (EQty (1225 # 1000) u_kg_m3)) (atoms L).
Proof.
  intros [Hix HL] Hi. linked_closed Hix HL.
  replace (Nclimb _) with (Z.of_nat (N1 + N2)) in Hi by len_tac.
  destruct (Nat.lt_ge_cases i N1) as [Hlt|Hge].
  - split; atoms_norm; find_in i.
  - replace i with (N1 + (i - N1))%nat by lia.
    split; atoms_norm; find_in (i - N1)%nat.
Qed.

Lemma In_fixed_weights :
  built_ok ->
  In (Atom $sca.W_e Eq (EQty 40000 u_N)) (atoms L) /\
  In (Atom $sca.W_payload Eq (EQty 400000 u_N)) (atoms L).
Proof. intros [Hix HL]. linked_closed Hix HL. split; atoms_norm; find_in 0%nat. Qed.

Lemma In_temperature (i : nat) :
  built_ok -> (Z.of_nat i < Nseg c)%Z ->
  In (Atom (X vec.T i) Eq (EQty 273 u_K)) (atoms L).
Proof. intros [Hix HL] Hi. linked_atom Hix HL i. Qed.

End LinkedAtoms.

(** ** What every solution of the linked model satisfies *)

Ltac holds_real H :=
  unfold holds in H;
  cbn [op lhs rhs eval units_of vec_units sca_units factor] in H;
  rewrite ?eval_sum in H;
  cbn [vec_units factor] in H;
  unfold Q2R in H; cbn [Qnum Qden] in H.

Ltac have_atom sol Hsat H lem :=
  pose proof (satisfies_holds sol _ _ Hsat lem) as H; holds_real H.

Section Solutions.
Variables (c : counts) (ix : indices) (L : model) (sol : solution).
Local Abbreviation built_ok :=
  (build_indices c = OK ix /\ CommercialAircraft c ix = OK L).

Lemma fuel_balance_sol (j : nat) :
  built_ok -> satisfies sol L -> (Z.of_nat j < Nseg c)%Z ->
  (sol (Elem vec.W_start j) >= sol (Elem vec.W_end j) + sol (Elem vec.W_fuel j))%R.
Proof.
  intros Hb Hsat Hj.
  have_atom sol Hsat H (In_fuel_balance c ix L j Hb Hj). lra.
Qed.

Lemma start_is_previous_end (j : nat) :
  built_ok -> satisfies sol L -> (Z.of_nat (S j) < Nseg c)%Z ->
  sol (Elem vec.W_start (S j)) = sol (Elem vec.W_end j).
Proof.
  intros Hb Hsat Hj.
  have_atom sol Hsat H (In_start_previous_end c ix L j Hb Hj). lra.
Qed.

(** The start weight of the mission covers the end weight of segment [k]
    and the fuel of all segments up to [k]. *)
Lemma weight_chain (k : nat) :
  built_ok -> satisfies sol L -> (Z.of_nat k < Nseg c)%Z ->
  (sol (Elem vec.W_start 0)
   >= sol (Elem vec.W_end k) + vsum sol vec.W_fuel (S k))%R.
Proof.
  intros Hb Hsat. induction k as [|k IH]; intros Hk.
  - pose proof (fuel_balance_sol 0 Hb Hsat Hk). cbn [vsum]. lra.
  - pose proof (fuel_balance_sol (S k) Hb Hsat Hk).
    pose proof (start_is_previous_end k Hb Hsat Hk).
    assert (Hk' : (Z.of_nat k < Nseg c)%Z) by lia.
    specialize (IH Hk'). cbn [vsum] in *. lra.
Qed.

Lemma vsum_pos (v : vec.name) (n : nat) :
  positive sol -> (0 <= vsum sol v n)%R.
Proof.
  intros Hpos. induction n as [|n IH]; cbn [vsum]; [lra|].
  pose proof (Hpos (Elem v n)). lra.
Qed.

Lemma start_weight_decreases (i d : nat) :
  built_ok -> positive sol -> satisfies sol L ->
  (Z.of_nat (i + S d) < Nseg c)%Z ->
  (sol (Elem vec.W_start (i + S d)) < sol (Elem vec.W_start i))%R.
Proof.
  intros Hb Hpos Hsat. induction d as [|d IH]; intros Hd.
  - replace (i + 1)%nat with (S i) in * by lia.
    pose proof (start_is_previous_end i Hb Hsat Hd).
    pose proof (fuel_balance_sol i Hb Hsat ltac:(lia)).
    pose proof (Hpos (Elem vec.W_fuel i)). lra.
  - replace (i + S (S d))%nat with (S (i + S d)) in * by lia.
    pose proof (start_is_previous_end (i + S d) Hb Hsat Hd).
    pose proof (fuel_balance_sol (i + S d) Hb Hsat ltac:(lia)).
    pose proof (Hpos (Elem vec.W_fuel (i + S d))).
    specialize (IH ltac:(lia)). lra.
Qed.

(** The altitude reached in climb segment [k] is at most 1500 ft plus the
    altitude gained in the segments up to [k]. *)
Lemma altitude_chain (k : nat) :
  built_ok -> satisfies sol L -> (Z.of_nat k < Nclimb c)%Z ->
  (sol (Elem vec.hft k) <= 1500 + vsum sol vec.dhft (S k))%R.
Proof.
  intros Hb Hsat. induction k as [|k IH]; intros Hk.
  - have_atom sol Hsat H (In_first_altitude c ix L Hb). cbn [vsum]. lra.
  - have_atom sol Hsat H (In_altitude_step c ix L k Hb Hk).
    specialize (IH ltac:(lia)). cbn [vsum] in *. lra.
Qed.

End Solutions.

(** X6: fuel only burns.  In every positive solution of the linked model
    each segment ends lighter than it starts, and a later segment starts
    lighter than an earlier one. *)
Theorem weights_decrease (c : counts) (ix : indices) (L : model)
    (sol : solution) (i j : nat) :
  build_indices c = OK ix -> CommercialAircraft c ix = OK L ->
  positive sol -> satisfies sol L ->
  (i < j)%nat -> (Z.of_nat j < Nseg c)%Z ->
  (sol (Elem vec.W_end j) < sol (Elem vec.W_start j))%R /\
  (sol (Elem vec.W_start j) < sol (Elem vec.W_start i))%R.
Proof.
  intros Hix HL Hpos Hsat Hij Hj. split.
  - pose proof (fuel_balance_sol c ix L sol j (conj Hix HL) Hsat Hj).
    pose proof (Hpos (Elem vec.W_fuel j)). lra.
  - replace j with (i + S (j - i - 1))%nat by lia.
    apply (start_weight_decreases c ix L sol); [first [assumption | split; assumption]..|]. lia.
Qed.

Lemma weights_decrease_witness :
  (example_solution (Elem vec.W_end 7) < example_solution (Elem vec.W_start 7))%R /\
  (example_solution (Elem vec.W_start 7) < example_solution (Elem vec.W_start 2))%R.
Proof.
  apply (weights_decrease source_counts source_indices source_model
           example_solution 2 7).
  - vm_compute. reflexivity.
  - vm_compute. reflexivity.
  - exact example_solution_positive.
  - exact example_solution_satisfies.
  - lia.
  - vm_compute. reflexivity.
Defined.

(** X7: in every solution of the linked model the total weight, which is
    the start weight of the first segment, is at least the empty weight
    plus the payload plus the fuel of all [Nseg] segments. *)
Theorem total_weight_covers_fuel (c : counts) (ix : indices) (L : model)
    (sol : solution) :
  build_indices c = OK ix -> CommercialAircraft c ix = OK L ->
  satisfies sol L ->
  sol (Elem vec.W_start 0) = sol (Scalar sca.W_total) /\
  (sol (Scalar sca.W_total)
   >= sol (Scalar sca.W_e) + sol (Scalar sca.W_payload)
      + vsum sol vec.W_fuel (Z.to_nat (Nseg c)))%R.
Proof.
  intros Hix HL Hsat. pose proof (conj Hix HL) as Hb.
  have_atom sol Hsat H0 (In_start_total c ix L Hb).
  have_atom sol Hsat Hend (In_end_weight c ix L Hb).
  assert (HN : (1 <= Nseg c)%Z).
  { destruct (linked_model_inv c ix L Hix HL)
      as (N1 & N2 & N3 & cmc & cl1 & cl2 & c2 & (H1 & H2 & H3) & -> & _).
    rewrite Nseg_nat. lia. }
  pose proof (weight_chain c ix L sol (Z.to_nat (Nseg c - 1)) Hb Hsat ltac:(lia)) as Hch.
  replace (S (Z.to_nat (Nseg c - 1))) with (Z.to_nat (Nseg c)) in Hch by lia.
  split; lra.
Qed.

Lemma total_weight_covers_fuel_witness :
  (example_solution (Scalar sca.W_total)
   >= example_solution (Scalar sca.W_e) + example_solution (Scalar sca.W_payload)
      + vsum example_solution vec.W_fuel 9)%R.
Proof.
  apply (total_weight_covers_fuel source_counts source_indices source_model
           example_solution).
  - vm_compute. reflexivity.
  - vm_compute. reflexivity.
  - exact example_solution_satisfies.
Defined.

(** X8: the three [sum(...)] constraints of the mission-wide group, as
    they bind a solution: total fuel covers the fuel of all [Nseg]
    segments, the [Nclimb] climb ranges and the [Ncruise2] cruise ranges
    together reach the required range, and the cruise ranges together do
    not exceed the required cruise range. *)
Theorem mission_totals (c : counts) (ix : indices) (L : model) (sol : solution) :
  build_indices c = OK ix -> CommercialAircraft c ix = OK L ->
  satisfies sol L ->
  (sol (Scalar sca.W_ftotal) >= vsum sol vec.W_fuel (Z.to_nat (Nseg c)))%R /\
  (vsum sol vec.RngClimb (Z.to_nat (Nclimb c))
   + vsum sol vec.RngCruise (Z.to_nat (Ncruise2 c))
   >= sol (Scalar sca.ReqRng))%R /\
  (sol (Scalar sca.ReqRngCruise)
   >= vsum sol vec.RngCruise (Z.to_nat (Ncruise2 c)))%R.
Proof.
  intros Hix HL Hsat. pose proof (conj Hix HL) as Hb.
  have_atom sol Hsat Hf (In_total_fuel c ix L Hb).
  have_atom sol Hsat Hr (In_required_range c ix L Hb).
  have_atom sol Hsat Hc (In_required_cruise_range c ix L Hb).
  repeat split; lra.
Qed.

Lemma mission_totals_witness :
  (example_solution (Scalar sca.W_ftotal) >= vsum example_solution vec.W_fuel 9)%R /\
  (vsum example_solution vec.RngClimb 6 + vsum example_solution vec.RngCruise 3
   >= example_solution (Scalar sca.ReqRng))%R /\
  (example_solution (Scalar sca.ReqRngCruise)
   >= vsum example_solution vec.RngCruise 3)%R.
Proof.
  apply (mission_totals source_counts source_indices source_model example_solution).
  - vm_compute. reflexivity.
  - vm_compute. reflexivity.
  - exact example_solution_satisfies.
Defined.

(** X9: the altitude loop of the first climb group runs over all [Nclimb]
    climb segments, of both climb phases: in every solution the altitude
    of climb segment [k] is at most 1500 ft plus the altitude gains
    [dhft[0] + ... + dhft[k]]. *)
Theorem climb_altitude_bound (c : counts) (ix : indices) (L : model)
    (sol : solution) (k : nat) :
  build_indices c = OK ix -> CommercialAircraft c ix = OK L ->
  satisfies sol L -> (Z.of_nat k < Nclimb c)%Z ->
  (sol (Elem vec.hft k) <= 1500 + vsum sol vec.dhft (S k))%R.
Proof.
  intros Hix HL Hsat Hk. now apply (altitude_chain c ix L sol k (conj Hix HL)).
Qed.

Lemma climb_altitude_bound_witness :
  (example_solution (Elem vec.hft 4) <= 1500 + vsum example_solution vec.dhft 5)%R.
Proof.
  apply (climb_altitude_bound source_counts source_indices source_model
           example_solution 4).
  - vm_compute. reflexivity.
  - vm_compute. reflexivity.
  - exact example_solution_satisfies.
  - vm_compute. reflexivity.
Defined.

(** X10: the groups together force the climb to gain at least 33,500 ft:
    the cruise group holds the cruise altitude at 35,000 ft, the
    mission-wide group makes the last climb altitude equal to it, and the
    climb starts from 1500 ft. *)
Theorem total_climb_gain (c : counts) (ix : indices) (L : model) (sol : solution) :
  build_indices c = OK ix -> CommercialAircraft c ix = OK L ->
  satisfies sol L ->
  (vsum sol vec.dhft (Z.to_nat (Nclimb c)) >= 33500)%R.
Proof.
  intros Hix HL Hsat. pose proof (conj Hix HL) as Hb.
  assert (HN : (1 <= Nclimb c)%Z /\ (0 < Ncruise2 c)%Z).
  { destruct (linked_model_inv c ix L Hix HL)
      as (N1 & N2 & N3 & cmc & cl1 & cl2 & c2 & (H1 & H2 & H3) & -> & _).
    split; len_tac. }
  destruct HN as [HN1 HN3].
  have_atom sol Hsat Hfix (In_cruise_altitude c ix L 0 Hb HN3).
  have_atom sol Hsat Hmatch (In_cruise_matches_climb c ix L 0 Hb HN3).
  pose proof (altitude_chain c ix L sol (Z.to_nat (Nclimb c) - 1) Hb Hsat ltac:(lia))
    as Hch.
  replace (S (Z.to_nat (Nclimb c) - 1)) with (Z.to_nat (Nclimb c)) in Hch by lia.
  lra.
Qed.

Lemma total_climb_gain_witness :
  (vsum example_solution vec.dhft 6 >= 33500)%R.
Proof.
  apply (total_climb_gain source_counts source_indices source_model example_solution).
  - vm_compute. reflexivity.
  - vm_compute. reflexivity.
  - exact example_solution_satisfies.
Defined.

(** X11: the two plain equalities between whole arrays are unit
    conversions.  [hft == h] makes the altitude in metres 0.3048 times the
    altitude in feet, and [tmin == thours] makes the time in minutes 60
    times the time in hours, for every segment. *)
Theorem unit_conversions (c : counts) (ix : indices) (L : model)
    (sol : solution) (i : nat) :
  build_indices c = OK ix -> CommercialAircraft c ix = OK L ->
  satisfies sol L -> (Z.of_nat i < Nseg c)%Z ->
  sol (Elem vec.h i) = (3048 / 10000 * sol (Elem vec.hft i))%R /\
  sol (Elem vec.tmin i) = (60 * sol (Elem vec.thours i))%R.
Proof.
  intros Hix HL Hsat Hi. pose proof (conj Hix HL) as Hb.
  have_atom sol Hsat Hh (In_feet_metres c ix L i Hb Hi).
  have_atom sol Hsat Ht (In_minutes_hours c ix L i Hb Hi).
  split; lra.
Qed.

Lemma unit_conversions_witness :
  example_solution (Elem vec.h 7)
  = (3048 / 10000 * example_solution (Elem vec.hft 7))%R /\
  example_solution (Elem vec.tmin 7)
  = (60 * example_solution (Elem vec.thours 7))%R.
Proof.
  apply (unit_conversions source_counts source_indices source_model
           example_solution 7).
  - vm_compute. reflexivity.
  - vm_compute. reflexivity.
  - exact example_solution_satisfies.
  - vm_compute. reflexivity.
Defined.

(** X12: the speed limits, phase by phase, in knots.  A climb-1 segment
    flies between the stall speed and [climbspeed], a climb-2 segment
    between the stall speed and 500 knots, a cruise segment at exactly 420
    knots. *)
Theorem speed_limits (c : counts) (ix : indices) (L : model)
    (sol : solution) (i : nat) :
  build_indices c = OK ix -> CommercialAircraft c ix = OK L ->
  satisfies sol L -> (Z.of_nat i < Nseg c)%Z ->
  let V := sol (Elem vec.V i) in
  ((Z.of_nat i < Nclimb1 c)%Z ->
   (sol (Scalar sca.Vstall) <= V <= sol (Scalar sca.climbspeed))%R) /\
  ((Nclimb1 c <= Z.of_nat i < Nclimb c)%Z ->
   (sol (Scalar sca.Vstall) <= V <= 500)%R) /\
  ((Nclimb c <= Z.of_nat i)%Z -> V = 420%R).
Proof.
  intros Hix HL Hsat Hi. pose proof (conj Hix HL) as Hb. cbv zeta.
  split; [|split].
  - intros H1. destruct (In_climb1_speed c ix L i Hb H1) as [Hle Hge].
    have_atom sol Hsat Hu Hle. have_atom sol Hsat Hl Hge. lra.
  - intros H2. destruct (In_climb2_speed c ix L i Hb H2) as [Hle Hge].
    have_atom sol Hsat Hu Hle. have_atom sol Hsat Hl Hge. lra.
  - intros H3.
    assert (Hk : (Z.of_nat (i - Z.to_nat (Nclimb c)) < Ncruise2 c)%Z).
    { revert Hi H3. len_tac. }
    destruct (In_cruise_values c ix L _ Hb Hk) as (_ & _ & HV).
    replace (Z.to_nat (Nclimb c) + (i - Z.to_nat (Nclimb c)))%nat with i in HV
      by (revert H3; len_tac).
    have_atom sol Hsat Hv HV. lra.
Qed.

Lemma speed_limits_witness :
  (example_solution (Scalar sca.Vstall) <= example_solution (Elem vec.V 1)
   <= example_solution (Scalar sca.climbspeed))%R.
Proof.
  destruct (speed_limits source_counts source_indices source_model
              example_solution 1) as (H & _).
  - vm_compute. reflexivity.
  - vm_compute. reflexivity.
  - exact example_solution_satisfies.
  - vm_compute. reflexivity.
  - apply H. vm_compute. reflexivity.
Defined.

(** X13: in every climb segment, of either climb phase, the altitude gain
    in feet is the time in minutes times the rate of climb in feet per
    minute, and the fuel burnt is [g * TSFC * thours * thrust] with each
    factor taken in SI units. *)
Theorem climb_segment_equalities (c : counts) (ix : indices) (L : model)
    (sol : solution) (i : nat) :
  build_indices c = OK ix -> CommercialAircraft c ix = OK L ->
  satisfies sol L -> (Z.of_nat i < Nclimb c)%Z ->
  sol (Elem vec.dhft i) = (sol (Elem vec.tmin i) * sol (Elem vec.RC i))%R /\
  (sol (Elem vec.W_fuel i) * factor u_lbf
   = sol (Scalar sca.g) * (sol (Elem vec.TSFC i) * factor u_lb_hr_lbf)
     * (sol (Elem vec.thours i) * factor u_hour) * sol (Scalar sca.thrust))%R.
Proof.
  intros Hix HL Hsat Hi. pose proof (conj Hix HL) as Hb.
  have_atom sol Hsat Hd (In_altitude_gain c ix L i Hb Hi).
  have_atom sol Hsat Hf (In_climb_fuel c ix L i Hb Hi).
  cbn [factor]. split; lra.
Qed.

Lemma climb_segment_equalities_witness :
  example_solution (Elem vec.dhft 4)
  = (example_solution (Elem vec.tmin 4) * example_solution (Elem vec.RC 4))%R.
Proof.
  apply (climb_segment_equalities source_counts source_indices source_model
           example_solution 4).
  - vm_compute. reflexivity.
  - vm_compute. reflexivity.
  - exact example_solution_satisfies.
  - vm_compute. reflexivity.
Defined.

(** X14: the values the cruise group fixes "to substitute later".  It
    fixes them for the climb segments as well as for its own: in every
    solution [TSFC] is [c1] and the density 1.225 kg/m^3 on every climb
    segment, [TSFC] is 1.4 and the lift-to-drag ratio 10 on every cruise
    segment, the temperature is 273 K on every segment, and the empty
    weight and the payload are 40000 N and 400000 N. *)
Theorem fixed_values (c : counts) (ix : indices) (L : model)
    (sol : solution) (i : nat) :
  build_indices c = OK ix -> CommercialAircraft c ix = OK L ->
  satisfies sol L -> (Z.of_nat i < Nseg c)%Z ->
  ((Z.of_nat i < Nclimb c)%Z ->
   sol (Elem vec.TSFC i) = sol (Scalar sca.c1) /\
   sol (Elem vec.rho i) = (1225 / 1000)%R) /\
  ((Nclimb c <= Z.of_nat i)%Z ->
   sol (Elem vec.TSFC i) = (14 / 10)%R /\ sol (Elem vec.LD i) = 10%R) /\
  sol (Elem vec.T i) = 273%R /\
  (sol (Scalar sca.W_e) * factor u_lbf = 40000)%R /\
  (sol (Scalar sca.W_payload) * factor u_lbf = 400000)%R.
Proof.
  intros Hix HL Hsat Hi. pose proof (conj Hix HL) as Hb.
  split; [|split; [|split]].
  - intros H1. destruct (In_climb_values c ix L i Hb H1) as [Ht Hr].
    have_atom sol Hsat Ht' Ht. have_atom sol Hsat Hr' Hr.
    split; [|lra].
    apply (Rmult_eq_reg_r (45359237 / 100000000 / 3600
                           / (44482216152605 / 10000000000000))); lra.
  - intros H3.
    assert (Hk : (Z.of_nat (i - Z.to_nat (Nclimb c)) < Ncruise2 c)%Z).
    { revert Hi H3. len_tac. }
    destruct (In_cruise_values c ix L _ Hb Hk) as (Ht & Hl & _).
    replace (Z.to_nat (Nclimb c) + (i - Z.to_nat (Nclimb c)))%nat with i in Ht, Hl
      by (revert H3; len_tac).
    have_atom sol Hsat Ht' Ht. have_atom sol Hsat Hl' Hl.
    split; [|lra].
    apply (Rmult_eq_reg_r (45359237 / 100000000 / 3600
                           / (44482216152605 / 10000000000000))); lra.
  - have_atom sol Hsat HT (In_temperature c ix L i Hb Hi). lra.
  - destruct (In_fixed_weights c ix L Hb) as [He Hp].
    have_atom sol Hsat He' He. have_atom sol Hsat Hp' Hp.
    cbn [factor]. split; lra.
Qed.

Lemma fixed_values_witness :
  example_solution (Elem vec.T 4) = 273%R /\
  (example_solution (Scalar sca.W_e) * factor u_lbf = 40000)%R /\
  (example_solution (Scalar sca.W_payload) * factor u_lbf = 400000)%R.
Proof.
  destruct (fixed_values source_counts source_indices source_model
              example_solution 4) as (_ & _ & H).
  - vm_compute. reflexivity.
  - vm_compute. reflexivity.
  - exact example_solution_satisfies.
  - vm_compute. reflexivity.
  - exact H.
Defined.

(** X15: a cruise segment's range is its time at the fixed cruise speed.
    The cruise group pairs cruise segment [k] of [RngCruise] with flight
    segment [Nclimb + k] and fixes the speed there at 420 knots, so in
    every solution the range in miles times 1609.344 is the time in hours
    times 420 times 1852 (metres on both sides). *)
Theorem cruise_range_is_time_at_speed (c : counts) (ix : indices) (L : model)
    (sol : solution) (k : nat) :
  build_indices c = OK ix -> CommercialAircraft c ix = OK L ->
  satisfies sol L -> (Z.of_nat k < Ncruise2 c)%Z ->
  (sol (Elem vec.RngCruise k) * (1609344 / 1000)
   = sol (Elem vec.thours (Z.to_nat (Nclimb c) + k)) * 420 * 1852)%R.
Proof.
  intros Hix HL Hsat Hk. pose proof (conj Hix HL) as Hb.
  destruct (In_cruise_values c ix L k Hb Hk) as (_ & _ & HV).
  have_atom sol Hsat Hv HV.
  have_atom sol Hsat Ht (In_cruise_time c ix L k Hb Hk).
  assert (HV' : sol (Elem vec.V (Z.to_nat (Nclimb c) + k)) = 420%R) by lra.
  rewrite HV' in Ht. lra.
Qed.

Lemma cruise_range_is_time_at_speed_witness :
  (example_solution (Elem vec.RngCruise 1) * (1609344 / 1000)
   = example_solution (Elem vec.thours (Z.to_nat (Nclimb source_counts) + 1))
     * 420 * 1852)%R.
Proof.
  apply (cruise_range_is_time_at_speed source_counts source_indices source_model
           example_solution 1).
  - vm_compute. reflexivity.
  - vm_compute. reflexivity.
  - exact example_solution_satisfies.
  - vm_compute. reflexivity.
Defined.

(** X16: the speed of sound is the same on every segment.  The cruise
    group fixes the temperature at 273 K everywhere, so with [gamma] and
    [R] at their declared values every solution has
    [a = (1.4 * 287 * 273) ** 0.5] metres per second on every segment. *)
Theorem speed_of_sound (c : counts) (ix : indices) (L : model)
    (sol : solution) (i : nat) :
  build_indices c = OK ix -> CommercialAircraft c ix = OK L ->
  satisfies sol L ->
  sol (Scalar sca.gamma) = (14 / 10)%R -> sol (Scalar sca.R) = 287%R ->
  (Z.of_nat i < Nseg c)%Z ->
  sol (Elem vec.a i) = Rpower (14 / 10 * 287 * 273) (1 / 2).
Proof.
  intros Hix HL Hsat Hg HR Hi. pose proof (conj Hix HL) as Hb.
  have_atom sol Hsat HT (In_temperature c ix L i Hb Hi).
  have_atom sol Hsat Ha (In_sound_speed c ix L i Hb Hi).
  rewrite Hg, HR in Ha.
  replace (sol (Elem vec.T i) * 1)%R with 273%R in Ha by lra.
  rewrite Rmult_1_r in Ha. rewrite Ha. f_equal; lra.
Qed.

Lemma speed_of_sound_witness :
  example_solution (Elem vec.a 3) = Rpower (14 / 10 * 287 * 273) (1 / 2).
Proof.
  apply (speed_of_sound source_counts source_indices source_model
           example_solution 3).
  - vm_compute. reflexivity.
  - vm_compute. reflexivity.
  - exact example_solution_satisfies.
  - reflexivity.
  - reflexivity.
  - vm_compute. reflexivity.
Defined.

Lemma vsum_staged (sol : solution) (r : R) (n : nat) :
  (forall k, (k < n)%nat -> (sol (Elem vec.RngCruise k) >= (INR k + 1) * r)%R) ->
  (vsum sol vec.RngCruise n >= INR n * (INR n + 1) / 2 * r)%R.
Proof.
  induction n as [|n IH]; intros H.
  - cbn [vsum INR]. lra.
  - cbn [vsum]. rewrite S_INR.
    specialize (IH (fun k Hk => H k (Nat.lt_lt_succ_r _ _ Hk))).
    specialize (H n (Nat.lt_succ_diag_r n)). nra.
Qed.

(** X17: the staged range constraints limit the number of cruise
    segments.  Segment [k] must fly at least [(k+1)/Nseg] of the required
    cruise range while all cruise segments together may not exceed it, so
    a positive solution exists only when
    [Ncruise2 * (Ncruise2 + 1) <= 2 * Nseg]. *)
Theorem cruise_staging_limit (c : counts) (ix : indices) (L : model)
    (sol : solution) :
  build_indices c = OK ix -> CommercialAircraft c ix = OK L ->
  positive sol -> satisfies sol L ->
  (Ncruise2 c * (Ncruise2 c + 1) <= 2 * Nseg c)%Z.
Proof.
  intros Hix HL Hpos Hsat. pose proof (conj Hix HL) as Hb.
  have_atom sol Hsat Hc (In_required_cruise_range c ix L Hb).
  assert (HN : (0 <= Ncruise2 c)%Z /\ (0 < Nseg c)%Z).
  { destruct (linked_model_inv c ix L Hix HL)
      as (N1 & N2 & N3 & cmc & cl1 & cl2 & c2 & (H1 & H2 & H3) & -> & _).
    split; len_tac. }
  destruct HN as [HN3 HN].
  pose proof (Hpos (Scalar sca.ReqRngCruise)) as HReq.
  assert (HNR : (0 < IZR (Nseg c))%R) by (apply IZR_lt; lia).
  set (r := (sol (Scalar sca.ReqRngCruise) / IZR (Nseg c))%R).
  assert (Hr : (0 < r)%R) by (apply Rdiv_lt_0_compat; assumption).
  assert (Hseg : forall k, (k < Z.to_nat (Ncruise2 c))%nat ->
            (sol (Elem vec.RngCruise k) >= (INR k + 1) * r)%R).
  { intros k Hk.
    pose proof (satisfies_holds sol _ _ Hsat
                  (In_staged_range c ix L k Hb ltac:(lia))) as Hk'.
    unfold holds in Hk'.
    cbn [op lhs rhs eval units_of vec_units sca_units factor] in Hk'.
    rewrite !Q2R_inject_Z, plus_IZR, <- INR_IZR_INZ in Hk'.
    unfold r.
    assert (Hm : (sol (Elem vec.RngCruise k) * (1609344 / 1000)
                  >= (INR k + 1) * (sol (Scalar sca.ReqRngCruise) / IZR (Nseg c))
                     * (1609344 / 1000))%R).
    { eapply Rge_trans; [exact Hk'|]. right. field. lra. }
    lra. }
  pose proof (vsum_staged sol r _ Hseg) as Hsum.
  set (n := INR (Z.to_nat (Ncruise2 c))) in *.
  assert (Hn : (n * (n + 1) / 2 * r <= r * IZR (Nseg c))%R).
  { replace (r * IZR (Nseg c))%R with (sol (Scalar sca.ReqRngCruise))
      by (unfold r; field; lra).
    lra. }
  assert (Hn2 : (n * (n + 1) <= 2 * IZR (Nseg c))%R) by nra.
  apply le_IZR. rewrite !mult_IZR, plus_IZR.
  replace (IZR (Ncruise2 c)) with n; [exact Hn2|].
  unfold n. rewrite INR_IZR_INZ. f_equal. lia.
Qed.

Lemma cruise_staging_limit_witness :
  (Ncruise2 source_counts * (Ncruise2 source_counts + 1) <= 2 * Nseg source_counts)%Z.
Proof.
  apply (cruise_staging_limit source_counts source_indices source_model
           example_solution).
  - vm_compute. reflexivity.
  - vm_compute. reflexivity.
  - exact example_solution_positive.
  - exact example_solution_satisfies.
Defined.

(** X18: with the values the source declares the linked model has no
    feasible point, whatever the segment counts.  The aircraft starts the
    first climb segment at 440000 N or more (empty weight plus payload,
    and fuel only burns) and flies it at 250 knots or less; with
    [S = 124.58], [K = 0.9], [thrust = 87000] and the density the cruise
    group fixes, the induced-drag term [W/S*2*K/rho/V] of the climb-rate
    constraint alone is then larger than its right-hand side
    [V*thrust/W]. *)
Theorem declared_values_infeasible (c : counts) (ix : indices) (L : model)
    (sol : solution) :
  build_indices c = OK ix -> CommercialAircraft c ix = OK L ->
  ~ feasible sol L.
Proof.
  intros Hix HL (Hpos & Hsat & Hsub). pose proof (conj Hix HL) as Hb.
  assert (HN : (0 < Nclimb1 c)%Z /\ (0 < Nclimb c)%Z /\ (0 < Nseg c)%Z).
  { destruct (linked_model_inv c ix L Hix HL)
      as (N1 & N2 & N3 & cmc & cl1 & cl2 & c2 & (H1 & H2 & H3) & -> & _).
    repeat split; len_tac. }
  destruct HN as (HN1 & HNc & HN).
  pose proof (In_climb_rate c ix L 0 Hb HNc) as Hin.
  (* declared values *)
  assert (Hvar : forall s, In (Scalar s) (atom_vars (climb_rate 0)) ->
                           In (Scalar s) (vars L)).
  { intros s Hs. exact (In_vars_intro L _ _ Hin Hs). }
  assert (HS : sol (Scalar sca.S) = Q2R (12458 # 100))
    by (apply Hsub; [apply Hvar; cbn; tauto | reflexivity]).
  assert (HK : sol (Scalar sca.K) = Q2R (9 # 10))
    by (apply Hsub; [apply Hvar; cbn; tauto | reflexivity]).
  assert (HT : sol (Scalar sca.thrust) = Q2R (87000 # 1))
    by (apply Hsub; [apply Hvar; cbn; tauto | reflexivity]).
  destruct (In_climb1_speed c ix L 0 Hb HN1) as [Hspeed _].
  assert (Hcs : sol (Scalar sca.climbspeed) = Q2R (250 # 1)).
  { apply Hsub; [|reflexivity].
    apply (In_vars_intro L _ _ Hspeed). cbn. tauto. }
  unfold Q2R in HS, HK, HT, Hcs. cbn [Qnum Qden] in HS, HK, HT, Hcs.
  (* the weights *)
  destruct (In_fixed_weights c ix L Hb) as [He Hp].
  have_atom sol Hsat HWe He. have_atom sol Hsat HWp Hp.
  have_atom sol Hsat HWend (In_end_weight c ix L Hb).
  pose proof (weight_chain c ix L sol (Z.to_nat (Nseg c - 1)) Hb Hsat ltac:(lia)) as Hch.
  pose proof (vsum_pos sol vec.W_fuel (S (Z.to_nat (Nseg c - 1))) Hpos) as Hfuel.
  (* the first climb segment *)
  have_atom sol Hsat HV Hspeed.
  destruct (In_climb_values c ix L 0 Hb HNc) as [_ Hrho].
  have_atom sol Hsat Hrho' Hrho.
  pose proof (satisfies_holds sol _ _ Hsat Hin) as Hrate.
  unfold climb_rate in Hrate. holds_real Hrate.
  pose proof (Hpos (Elem vec.V 0)) as HVpos.
  pose proof (Hpos (Elem vec.RC 0)) as HRCpos.
  pose proof (Hpos (Scalar sca.Cd0)) as HCd0.
  set (W := (sol (Elem vec.W_start 0) * (44482216152605 / 10000000000000))%R) in *.
  set (v := (sol (Elem vec.V 0) * (1852 / 3600))%R) in *.
  assert (HW : (440000 <= W)%R) by (subst W; lra).
  assert (Hv : (0 < v <= 250 * (1852 / 3600))%R) by (subst v; lra).
  rewrite HS, HK, HT in Hrate.
  assert (Hr : (sol (Elem vec.rho 0) * 1 = 1225 / 1000)%R) by lra.
  rewrite Hr in Hrate.
  assert (Hsecond : (0 < 1 * / 2 * v ^ 3 * (1225 / 1000) * (12458 * / 100 * 1) / W
                         * (sol (Scalar sca.Cd0) * 1))%R).
  { apply Rmult_lt_0_compat; [|lra].
    apply Rdiv_lt_0_compat; [|lra].
    assert (0 < v ^ 3)%R by (apply pow_lt; lra).
    apply Rmult_lt_0_compat; [apply Rmult_lt_0_compat|]; lra. }
  assert (Hthird : (W / (12458 * / 100 * 1) * (2 * / 1) * (9 * / 10 * 1) / (1225 / 1000) / v
                    < v * (87000 * / 1 * 1) / W)%R) by lra.
  assert (Hcross : (2 * (9 / 10) * (W * W)
                    < 12458 / 100 * (1225 / 1000) * 87000 * (v * v))%R).
  { apply (Rmult_lt_compat_r (12458 / 100 * (1225 / 1000) * v * W)) in Hthird.
    - replace (W / (12458 * / 100 * 1) * (2 * / 1) * (9 * / 10 * 1) / (1225 / 1000) / v
               * (12458 / 100 * (1225 / 1000) * v * W))%R
        with (2 * (9 / 10) * (W * W))%R in Hthird by (field; lra).
      replace (v * (87000 * / 1 * 1) / W * (12458 / 100 * (1225 / 1000) * v * W))%R
        with (12458 / 100 * (1225 / 1000) * 87000 * (v * v))%R in Hthird
        by (field; lra).
      exact Hthird.
    - apply Rmult_lt_0_compat; [apply Rmult_lt_0_compat|]; lra. }
  assert (HW2 : (440000 * 440000 <= W * W)%R) by nra.
  assert (Hv2 : (v * v <= 250 * (1852 / 3600) * (250 * (1852 / 3600)))%R) by nra.
  lra.
Qed.

Lemma declared_values_infeasible_witness :
  ~ feasible example_solution source_model.
Proof.
  apply (declared_values_infeasible source_counts source_indices source_model
           example_solution).
  - vm_compute. reflexivity.
  - vm_compute. reflexivity.
Defined.

Section MoreAtoms.
Variables (c : counts) (ix : indices) (L : model).
Local Abbreviation X v i := (EVar (Elem v i)).
Local Notation "$ s" := (EVar (Scalar s)) (at level 1, format "$ s").
Local Abbreviation built_ok :=
  (build_indices c = OK ix /\ CommercialAircraft c ix = OK L).

Lemma In_alt10k :
  built_ok ->
  In (Atom (X vec.hft (Z.to_nat (Nclimb1 c) - 1)) Eq $sca.alt10k) (atoms L).
Proof.
  intros [Hix HL]. linked_closed Hix HL. rewrite Nat2Z.id.
  atoms_norm. find_in 0%nat.
Qed.

Lemma In_small_angle (i : nat) :
  built_ok -> (Z.of_nat i < Nclimb c)%Z ->
  In (Atom (EMul (X vec.theta i) (X vec.V i)) Eq (X vec.RC i)) (atoms L).
Proof.
  intros [Hix HL] Hi. linked_closed Hix HL.
  replace (Nclimb _) with (Z.of_nat (N1 + N2)) in Hi by len_tac.
  destruct (Nat.lt_ge_cases i N1) as [Hlt|Hge].
  - atoms_norm. find_in i.
  - replace i with (N1 + (i - N1))%nat by lia.
    atoms_norm. find_in (i - N1)%nat.
Qed.

Lemma In_climb_range (i : nat) :
  built_ok -> (Z.of_nat i < Nclimb c)%Z ->
  In (Atom (EAdd (X vec.RngClimb i)
                 (EMul (EMul (EMul (ENum (1 # 2)) (X vec.thours i)) (X vec.V i))
                       (EPow (X vec.theta i) 2)))
           Le (EMul (X vec.thours i) (X vec.V i))) (atoms L).
Proof.
  intros [Hix HL] Hi. linked_closed Hix HL.
  replace (Nclimb _) with (Z.of_nat (N1 + N2)) in Hi by len_tac.
  destruct (Nat.lt_ge_cases i N1) as [Hlt|Hge].
  - atoms_norm. find_in i.
  - replace i with (N1 + (i - N1))%nat by lia.
    atoms_norm. find_in (i - N1)%nat.
Qed.

Lemma In_breguet_range (k : nat) :
  built_ok -> (Z.of_nat k < Ncruise2 c)%Z ->
  let s := (Z.to_nat (Nclimb c) + k)%nat in
  In (Atom (X vec.RngCruise k) Le
           (EDiv (EMul (EMul (X vec.z_bre k) (X vec.LD s)) (X vec.V s))
                 (EMul (X vec.TSFC s) $sca.g))) (atoms L).
Proof.
  intros [Hix HL] Hk. linked_closed Hix HL. cbv zeta.
  replace (Z.to_nat (Nclimb _)) with (N1 + N2)%nat by len_tac.
  atoms_norm. find_in k.
Qed.

End MoreAtoms.

(** ** The variables the linked model mentions *)

Lemma expr_vars_sum_In (v : vec.name) (l : list nat) (e0 : expr) (x : varkey) :
  In x (expr_vars (fold_left EAdd (map (fun i => EVar (Elem v i)) l) e0)) ->
  In x (expr_vars e0) \/ exists i, In i l /\ x = Elem v i.
Proof.
  revert e0. induction l as [|i l IH]; intros e0 H; [now left|].
  cbn [map fold_left] in H. apply IH in H as [H|(j & Hj & ->)].
  - cbn [expr_vars] in H. apply in_app_or in H as [H|[<-|[]]]; [now left|].
    right. exists i. split; [now left | reflexivity].
  - right. exists j. split; [now right | reflexivity].
Qed.

Ltac mention_var :=
  first
    [ match goal with
      | H : Scalar _ = ?x |- _ => is_var x; subst x
      | H : Elem _ _ = ?x |- _ => is_var x; subst x
      | H : ?x = Elem _ _ |- _ => is_var x; subst x
      | H : In _ (expr_vars (fold_left EAdd _ _)) |- _ =>
          apply expr_vars_sum_In in H; destruct H as [H|(? & ? & H)]
      end
    | mention_step ].

Ltac mentioned_true :=
  cbn [mentioned];
  first [ reflexivity
        | apply Z.ltb_lt; len_tac
        | apply andb_true_intro; split; [apply Z.leb_le | apply Z.ltb_lt]; len_tac ].

Lemma mentioned_complete (c : counts) (ix : indices) (L : model) (x : varkey) :
  build_indices c = OK ix -> CommercialAircraft c ix = OK L ->
  In x (vars L) -> mentioned c x = true.
Proof.
  intros Hix HL Hin. linked_closed Hix HL.
  apply In_vars_inv in Hin as (con & k & Hcon & Hk & Hx).
  cbn [constraints] in Hcon.
  repeat mention_var; mentioned_true.
Qed.

Ltac find_var :=
  lazymatch goal with
  | |- In _ (_ :: _) => first [left; reflexivity | right; find_var]
  | |- In _ (_ ++ _) => apply in_or_app; first [left; find_var | right; find_var]
  end.

Ltac var_of_atom lem :=
  eapply In_vars_intro;
  [ apply lem | unfold climb_rate; cbn [atom_vars expr_vars lhs rhs app]; find_var ].

Lemma mentioned_sound (c : counts) (ix : indices) (L : model) (x : varkey) :
  build_indices c = OK ix -> CommercialAircraft c ix = OK L ->
  mentioned c x = true -> In x (vars L).
Proof.
  intros Hix HL Hm. pose proof (conj Hix HL) as Hb.
  assert (HN : (0 < Nclimb1 c)%Z /\ (0 < Nclimb2 c)%Z /\ (0 < Ncruise2 c)%Z).
  { destruct (linked_model_inv c ix L Hix HL)
      as (N1 & N2 & N3 & cmc & cl1 & cl2 & c2 & (H1 & H2 & H3) & -> & _).
    cbn [Nclimb1 Nclimb2 Ncruise2]. lia. }
  destruct HN as (HN1 & HN2 & HN3).
  assert (HNc : (0 < Nclimb c)%Z) by len_tac.
  assert (HNs : (Z.of_nat 0 < Nseg c)%Z) by len_tac.
  pose proof (In_climb_rate c ix L 0 Hb HNc) as Hrate. unfold climb_rate in Hrate.
  destruct (In_climb1_speed c ix L 0 Hb HN1) as [Hcs Hvs].
  destruct (In_climb_values c ix L 0 Hb HNc) as [Hc1 _].
  destruct x as [s|v i].
  - destruct s; try discriminate Hm.
    + var_of_atom (In_climb_fuel c ix L 0 Hb HNc).
    + var_of_atom (In_sound_speed c ix L 0 Hb HNs).
    + var_of_atom (In_sound_speed c ix L 0 Hb HNs).
    + var_of_atom (In_required_cruise_range c ix L Hb).
    + var_of_atom (In_required_range c ix L Hb).
    + var_of_atom (In_total_weight c ix L Hb).
    + var_of_atom (In_total_weight c ix L Hb).
    + var_of_atom (In_total_weight c ix L Hb).
    + var_of_atom (In_total_weight c ix L Hb).
    + var_of_atom Hrate.
    + var_of_atom Hrate.
    + var_of_atom Hrate.
    + var_of_atom Hvs.
    + var_of_atom Hc1.
    + var_of_atom Hrate.
    + var_of_atom (In_alt10k c ix L Hb).
    + var_of_atom Hcs.
  - cbn [mentioned] in Hm.
    assert (Hcr : (Nclimb c <= Z.of_nat i < Nseg c)%Z ->
              exists k, (Z.of_nat k < Ncruise2 c)%Z /\
                        i = (Z.to_nat (Nclimb c) + k)%nat).
    { intros Hi. exists (i - Z.to_nat (Nclimb c))%nat. revert Hi. len_tac. }
    destruct v; try discriminate Hm;
      try (apply andb_prop in Hm as [Hm1 Hm2]; apply Z.leb_le in Hm1);
      try apply Z.ltb_lt in Hm; try apply Z.ltb_lt in Hm2.
    + var_of_atom (In_sound_speed c ix L i Hb Hm).
    + var_of_atom (In_climb_rate c ix L i Hb Hm).
    + var_of_atom (In_sound_speed c ix L i Hb Hm).
    + var_of_atom (In_feet_metres c ix L i Hb Hm).
    + var_of_atom (In_altitude_gain c ix L i Hb Hm).
    + var_of_atom (In_feet_metres c ix L i Hb Hm).
    + var_of_atom (In_minutes_hours c ix L i Hb Hm).
    + var_of_atom (In_minutes_hours c ix L i Hb Hm).
    + var_of_atom (In_climb_range c ix L i Hb Hm).
    + var_of_atom (In_staged_range c ix L i Hb Hm).
    + var_of_atom (In_fuel_balance c ix L i Hb Hm).
    + var_of_atom (In_fuel_balance c ix L i Hb Hm).
    + var_of_atom (In_fuel_balance c ix L i Hb Hm).
    + destruct (Hcr (conj Hm1 Hm2)) as (k & Hk & ->).
      destruct (In_cruise_values c ix L k Hb Hk) as (_ & Hld & _).
      var_of_atom Hld.
    + destruct (Z_lt_dec (Z.of_nat i) (Nclimb c)) as [Hlt|Hge].
      * var_of_atom (In_climb_rate c ix L i Hb Hlt).
      * destruct (Hcr ltac:(lia)) as (k & Hk & ->).
        destruct (In_cruise_values c ix L k Hb Hk) as (_ & _ & Hv).
        var_of_atom Hv.
    + var_of_atom (In_climb_rate c ix L i Hb Hm).
    + var_of_atom (In_small_angle c ix L i Hb Hm).
    + var_of_atom (In_breguet_range c ix L i Hb Hm).
    + destruct (Z_lt_dec (Z.of_nat i) (Nclimb c)) as [Hlt|Hge].
      * destruct (In_climb_values c ix L i Hb Hlt) as [Ht _]. var_of_atom Ht.
      * destruct (Hcr ltac:(lia)) as (k & Hk & ->).
        destruct (In_cruise_values c ix L k Hb Hk) as (Ht & _ & _).
        var_of_atom Ht.
Qed.

(** X19: which declared variables the linked model constrains.  A
    variable is mentioned by some constraint exactly when it is a scalar
    other than [LDmax] and [alt1k] (which are declared and never used), or
    an entry of an array at a segment whose constraints use it: no entry
    of [mu] and [M]; density, climb rate, climb angle, altitude gain and
    climb range on the climb segments only; lift-to-drag ratio on the
    cruise segments only; the Breguet parameter and the cruise range at
    the first [Ncruise2] entries; every other array at all [Nseg]
    segments. *)
Theorem mentioned_variables (c : counts) (ix : indices) (L : model) (x : varkey) :
  build_indices c = OK ix -> CommercialAircraft c ix = OK L ->
  (In x (vars L) <-> mentioned c x = true).
Proof.
  intros Hix HL. split.
  - now apply (mentioned_complete c ix L).
  - now apply (mentioned_sound c ix L).
Qed.

Lemma mentioned_variables_witness :
  ~ In (Scalar sca.alt1k) (vars source_model) /\
  ~ In (Elem vec.rho 6) (vars source_model) /\
  In (Elem vec.rho 5) (vars source_model).
Proof.
  pose proof (fun x => mentioned_variables source_counts source_indices source_model x
                         eq_refl eq_refl) as H.
  split; [|split].
  - intros Hin. apply H in Hin. discriminate Hin.
  - intros Hin. apply H in Hin. discriminate Hin.
  - apply H. reflexivity.
Defined.

(** ** More on the contour sweep helper *)

Section ContourFacts.
Import plotting.
Variable solve : gpmodel -> result (sweepsol * gpmodel).
Variables xvarname zvarname yvarname : string.

Lemma plot_inv (ax ax' : axes) (x y : list Q) (lbl : legend_label) (l : line) :
  plot ax x y lbl = OK (l, ax') ->
  length x = length y /\ l = Line x y lbl /\
  lines ax' = lines ax ++ [l] /\
  xlabel ax' = xlabel ax /\ ylabel ax' = ylabel ax /\
  set_ylim ax' = set_ylim ax /\
  legend_handles ax' = legend_handles ax /\ grid_calls ax' = grid_calls ax.
Proof.
  unfold plot. destruct (length x =? length y)%nat eqn:E; [|discriminate].
  intros [= <- <-]. apply Nat.eqb_eq in E. cbn. repeat split; assumption.
Qed.

Lemma sweep_step_inv (val : Q) (m m' : gpmodel) (ax ax' : axes) (ls ls' : list line) :
  sweep_step solve xvarname zvarname yvarname val (m, ax, ls) = OK (m', ax', ls') ->
  exists sol xs ys,
    solve (update m zvarname (Fixed val)) = OK (sol, m') /\
    sol !! xvarname = Some xs /\ sol !! yvarname = Some ys /\
    length xs = length ys /\
    let l := Line xs ys (SweepLabel zvarname val) in
    lines ax' = lines ax ++ [l] /\ ls' = ls ++ [l] /\
    xlabel ax' = xlabel ax /\ ylabel ax' = ylabel ax /\
    set_ylim ax' = set_ylim ax /\
    legend_handles ax' = legend_handles ax /\ grid_calls ax' = grid_calls ax.
Proof.
  unfold sweep_step. intros H.
  apply bind_inv in H as ([sol m1] & Hsolve & H).
  apply bind_inv in H as (xs & Hxs & H). apply dict_get_OK in Hxs.
  apply bind_inv in H as (ys & Hys & H). apply dict_get_OK in Hys.
  apply bind_inv in H as ([l ax1] & Hplot & H).
  injection H as <- <- <-.
  apply plot_inv in Hplot as (Hlen & -> & Hl & Hrest).
  exists sol, xs, ys. cbv zeta. repeat split; try assumption; apply Hrest.
Qed.

(** The sweep loop adds one line per value of [zsweep], in order, to the
    axes and to the list of lines, and touches nothing else of the axes. *)
Lemma sweep_loop_lines (zsweep : list Q) :
  forall (m m' : gpmodel) (ax ax' : axes) (ls ls' : list line),
    for_ zsweep (sweep_step solve xvarname zvarname yvarname) (m, ax, ls)
    = OK (m', ax', ls') ->
    exists new,
      lines ax' = lines ax ++ new /\ ls' = ls ++ new /\
      map line_label new = map (SweepLabel zvarname) zsweep /\
      Forall (fun l => length (xdata l) = length (ydata l)) new /\
      xlabel ax' = xlabel ax /\ ylabel ax' = ylabel ax /\
      set_ylim ax' = set_ylim ax /\
      legend_handles ax' = legend_handles ax /\ grid_calls ax' = grid_calls ax.
Proof.
  induction zsweep as [|val zs IH]; intros m m' ax ax' ls ls' H.
  - cbn in H. injection H as <- <- <-. exists [].
    rewrite !app_nil_r. repeat split. constructor.
  - cbn [for_] in H. apply bind_inv in H as ([[m1 ax1] ls1] & Hstep & H).
    apply sweep_step_inv in Hstep
      as (sol & xs & ys & _ & _ & _ & Hlen & Hl & Hls & Hx & Hy & Hlim & Hleg & Hg).
    apply IH in H as (new & Hl' & Hls' & Hlab & Hall & Hx' & Hy' & Hlim' & Hleg' & Hg').
    exists (Line xs ys (SweepLabel zvarname val) :: new).
    rewrite Hl', Hl, Hls', Hls, <- !app_assoc. cbn [app map line_label].
    rewrite Hlab. repeat split; try congruence.
    apply List.Forall_cons; [exact Hlen | exact Hall].
Qed.

(** With a solver that leaves the model as it is, the loop changes the
    substitution of the z variable only. *)
Lemma sweep_loop_model (zsweep : list Q) :
  (forall m s m', solve m = OK (s, m') -> m' = m) ->
  forall (m m' : gpmodel) (ax ax' : axes) (ls ls' : list line),
    for_ zsweep (sweep_step solve xvarname zvarname yvarname) (m, ax, ls)
    = OK (m', ax', ls') ->
    variables m' = variables m /\
    forall k, k <> zvarname -> substitutions m' !! k = substitutions m !! k.
Proof.
  intros Hpres. induction zsweep as [|val zs IH]; intros m m' ax ax' ls ls' H.
  - cbn in H. injection H as <- <- <-. split; reflexivity.
  - cbn [for_] in H. apply bind_inv in H as ([[m1 ax1] ls1] & Hstep & H).
    apply sweep_step_inv in Hstep as (sol & xs & ys & Hsolve & _).
    apply Hpres in Hsolve as ->.
    apply IH in H as [Hv Hs]. split; [exact Hv|].
    intros k Hk. rewrite Hs by exact Hk.
    cbn [update substitutions]. now rewrite lookup_insert_ne.
Qed.

Lemma poor_mans_contour_inv (model model' : gpmodel) (ax : axes)
    (xsweep zsweep ylimits : list Q)
    (vref : option Q) (vrefname : option string)
    (href : option Q) (hrefname : option string) :
  poor_mans_contour solve model xvarname xsweep zvarname zsweep yvarname ylimits
    vref vrefname href hrefname = OK (ax, model') ->
  exists x_old z_old m1 ax1 ls1 xd yd y0 y1 ax3 ls3,
    substitutions model !! xvarname = Some x_old /\
    substitutions model !! zvarname = Some z_old /\
    for_ zsweep (sweep_step solve xvarname zvarname yvarname)
         (update model xvarname (Sweep xsweep), new_axes, [])
    = OK (m1, ax1, ls1) /\
    model' = update (update m1 xvarname x_old) zvarname z_old /\
    variables m1 !! xvarname = Some xd /\ variables m1 !! yvarname = Some yd /\
    getitem ylimits 0 = OK y0 /\ getitem ylimits 1 = OK y1 /\
    (let ax2 := {| lines := lines ax1;
                   xlabel := Some (label xd, units xd);
                   ylabel := Some (label yd, units yd);
                   set_ylim := Some (y0, y1);
                   legend_handles := legend_handles ax1;
                   grid_calls := grid_calls ax1 |} in
     ('(ax, lines) ←
        (if truthy vref then
           let v := default 0%Q vref in
           '(l, ax) ← plot ax2 [v; v] ylimits (RefLabel vrefname);
           OK (ax, ls1 ++ [l])
         else OK (ax2, ls1));
      if truthy href then
        let v := default 0%Q href in
        x0 ← getitem xsweep 0;
        x1 ← getitem xsweep (-1);
        '(l, ax) ← plot ax [x0; x1] [v; v] (RefLabel hrefname);
        OK (ax, lines ++ [l])
      else OK (ax, lines)) = OK (ax3, ls3)) /\
    ax = {| lines := lines ax3; xlabel := xlabel ax3; ylabel := ylabel ax3;
            set_ylim := set_ylim ax3; legend_handles := ls3;
            grid_calls := S (grid_calls ax3) |}.
Proof.
  unfold poor_mans_contour. intros H.
  apply bind_inv in H as (x_old & Hx & H). apply dict_get_OK in Hx.
  apply bind_inv in H as (z_old & Hz & H). apply dict_get_OK in Hz.
  apply bind_inv in H as ([[m1 ax1] ls1] & Hloop & H).
  apply bind_inv in H as (xd & Hxd & H). apply dict_get_OK in Hxd.
  apply bind_inv in H as (yd & Hyd & H). apply dict_get_OK in Hyd.
  apply bind_inv in H as (y0 & Hy0 & H).
  apply bind_inv in H as (y1 & Hy1 & H).
  apply bind_inv in H as ([ax2 ls2] & Hv & H).
  apply bind_inv in H as ([ax3 ls3] & Hh & H).
  injection H as <- <-.
  exists x_old, z_old, m1, ax1, ls1, xd, yd, y0, y1, ax3, ls3.
  repeat split; try assumption.
  cbv zeta. rewrite Hv. rewrite bind_OK. exact Hh.
Qed.

(** The reference lines: one for a true [vref], one for a true [href]. *)
Lemma reference_lines (ax2 ax3 : axes) (ls1 ls3 : list line)
    (xsweep ylimits : list Q)
    (vref : option Q) (vrefname : option string)
    (href : option Q) (hrefname : option string) :
  ('(ax, lines) ←
     (if truthy vref then
        let v := default 0%Q vref in
        '(l, ax) ← plot ax2 [v; v] ylimits (RefLabel vrefname);
        OK (ax, ls1 ++ [l])
      else OK (ax2, ls1));
   if truthy href then
     let v := default 0%Q href in
     x0 ← getitem xsweep 0;
     x1 ← getitem xsweep (-1);
     '(l, ax) ← plot ax [x0; x1] [v; v] (RefLabel hrefname);
     OK (ax, lines ++ [l])
   else OK (ax, lines)) = OK (ax3, ls3) ->
  exists refs,
    lines ax3 = lines ax2 ++ refs /\ ls3 = ls1 ++ refs /\
    length refs = ((if truthy vref then 1 else 0) + (if truthy href then 1 else 0))%nat /\
    Forall (fun l => exists name, line_label l = RefLabel name) refs /\
    (truthy vref = true -> length ylimits = 2%nat) /\
    (truthy href = true -> xsweep <> []) /\
    xlabel ax3 = xlabel ax2 /\ ylabel ax3 = ylabel ax2 /\
    set_ylim ax3 = set_ylim ax2 /\ grid_calls ax3 = grid_calls ax2.
Proof.
  intros H. apply bind_inv in H as ([axv lsv] & Hv & Hh).
  assert (Hvref : exists rv,
            lines axv = lines ax2 ++ rv /\ lsv = ls1 ++ rv /\
            length rv = (if truthy vref then 1 else 0)%nat /\
            Forall (fun l => exists name, line_label l = RefLabel name) rv /\
            (truthy vref = true -> length ylimits = 2%nat) /\
            xlabel axv = xlabel ax2 /\ ylabel axv = ylabel ax2 /\
            set_ylim axv = set_ylim ax2 /\ grid_calls axv = grid_calls ax2).
  { destruct (truthy vref).
    - apply bind_inv in Hv as ([l ax'] & Hplot & Hv). injection Hv as <- <-.
      apply plot_inv in Hplot as (Hlen & -> & Hl & Hx & Hy & Hlim & _ & Hg).
      eexists [_]. repeat split; try assumption; try reflexivity.
      + repeat constructor. now eexists.
      + intros _. cbn in Hlen. congruence.
    - injection Hv as <- <-. exists []. rewrite !app_nil_r.
      repeat split; try reflexivity; try constructor. discriminate. }
  destruct Hvref as (rv & Hlv & -> & Hnv & Hfv & Hyl & Hx & Hy & Hlim & Hg).
  destruct (truthy href).
  - apply bind_inv in Hh as (x0 & Hx0 & Hh).
    apply bind_inv in Hh as (x1 & Hx1 & Hh).
    apply bind_inv in Hh as ([l ax'] & Hplot & Hh). injection Hh as <- <-.
    apply plot_inv in Hplot as (_ & -> & Hl & Hx' & Hy' & Hlim' & _ & Hg').
    eexists (rv ++ [_]). rewrite Hl, Hlv, <- !app_assoc.
    repeat split; try assumption; try congruence.
    + rewrite length_app, Hnv. reflexivity.
    + apply Forall_app. split; [exact Hfv|]. repeat constructor. now eexists.
    + intros _ ->. discriminate Hx0.
  - injection Hh as <- <-. exists rv.
    repeat split; try assumption; try congruence.
    rewrite Hnv. lia.
Qed.

End ContourFacts.

(** X20: a swept variable without a substitution.  When the model has no
    substitution for the x variable or for the z variable, the call raises
    [KeyError] at its first lines, whatever the solver is: nothing is
    solved and nothing is plotted. *)
Theorem missing_substitution_raises
    (solve : plotting.gpmodel -> result (plotting.sweepsol * plotting.gpmodel))
    (model : plotting.gpmodel)
    (xvarname : string) (xsweep : list Q) (zvarname : string) (zsweep : list Q)
    (yvarname : string) (ylimits : list Q)
    (vref : option Q) (vrefname : option string)
    (href : option Q) (hrefname : option string) :
  plotting.substitutions model !! xvarname = None \/
  plotting.substitutions model !! zvarname = None ->
  plotting.poor_mans_contour solve model xvarname xsweep zvarname zsweep
    yvarname ylimits vref vrefname href hrefname = Raise KeyError.
Proof.
  unfold plotting.poor_mans_contour, plotting.dict_get. intros [H|H].
  - now rewrite H.
  - rewrite H. now destruct (plotting.substitutions model !! xvarname).
Qed.

Lemma missing_substitution_raises_witness :
  plotting.poor_mans_contour example_solve example_gpmodel
    "V" [10; 20; 30]%Q "W" [20; 25]%Q "W" [0; 5]%Q None None None None
  = Raise KeyError.
Proof.
  apply (missing_substitution_raises example_solve example_gpmodel).
  right. vm_compute. reflexivity.
Defined.

(** X21: with a solver that leaves the model as it is, a successful call
    returns the model exactly as it was given: the two swept substitutions
    are put back and no other substitution and no variable description is
    touched. *)
Theorem contour_leaves_model_unchanged
    (solve : plotting.gpmodel -> result (plotting.sweepsol * plotting.gpmodel))
    (model : plotting.gpmodel)
    (xvarname : string) (xsweep : list Q) (zvarname : string) (zsweep : list Q)
    (yvarname : string) (ylimits : list Q)
    (vref : option Q) (vrefname : option string)
    (href : option Q) (hrefname : option string)
    (ax : plotting.axes) (model' : plotting.gpmodel) :
  (forall m s m', solve m = OK (s, m') -> m' = m) ->
  plotting.poor_mans_contour solve model xvarname xsweep zvarname zsweep
    yvarname ylimits vref vrefname href hrefname = OK (ax, model') ->
  model' = model.
Proof.
  intros Hpres H.
  apply poor_mans_contour_inv in H
    as (x_old & z_old & m1 & ax1 & ls1 & xd & yd & y0 & y1 & ax3 & ls3
        & Hx & Hz & Hloop & -> & _).
  apply (sweep_loop_model solve xvarname zvarname yvarname zsweep Hpres) in Hloop
    as [Hvars Hsubs].
  cbn [plotting.update plotting.variables plotting.substitutions] in Hvars, Hsubs.
  destruct model as [subs vars0]. destruct m1 as [subs1 vars1].
  unfold plotting.update.
  cbn [plotting.variables plotting.substitutions] in *.
  subst vars1. f_equal. apply map_eq. intros k.
  destruct (decide (k = zvarname)) as [->|Hkz].
  - rewrite lookup_insert_eq. now rewrite Hz.
  - rewrite lookup_insert_ne by congruence.
    destruct (decide (k = xvarname)) as [->|Hkx].
    + rewrite lookup_insert_eq. now rewrite Hx.
    + rewrite lookup_insert_ne by congruence.
      rewrite Hsubs by exact Hkz. now rewrite lookup_insert_ne by congruence.
Qed.

Lemma contour_leaves_model_unchanged_witness :
  exists ax, example_contour = OK (ax, example_gpmodel).
Proof.
  destruct example_contour as [[ax model']|e] eqn:E.
  - exists ax. f_equal. f_equal.
    apply (contour_leaves_model_unchanged example_solve example_gpmodel
             "V" [10; 20; 30]%Q "S" [20; 25]%Q "W" [0; 5]%Q None None None None
             ax model').
    + intros m s m' Hs. unfold example_solve in Hs. congruence.
    + exact E.
  - vm_compute in E. discriminate.
Defined.

Lemma getitem_lookup {A} (l : list A) (i : Z) (x : A) :
  (0 <= i)%Z -> getitem l i = OK x -> l !! Z.to_nat i = Some x.
Proof.
  intros Hi. unfold getitem. replace (i <? 0)%Z with false by lia.
  destruct ((0 <=? i)%Z && (i <? Z.of_nat (length l))%Z)%bool; [|discriminate].
  destruct (l !! Z.to_nat i); [|discriminate]. now intros [= ->].
Qed.

(** X22: what a successful call has plotted and asked for.  It has
    plotted one line per value of [zsweep], in order and labelled with the
    z variable and the value, then one reference line for [vref] and one
    for [href] when they are given and not zero; every sweep line has as
    many x as y values; the handles it passes to [plt.legend] are exactly
    these lines; it calls [set_ylim] with the first two entries of
    [ylimits] and [plt.grid()] once. *)
Theorem contour_lines
    (solve : plotting.gpmodel -> result (plotting.sweepsol * plotting.gpmodel))
    (model : plotting.gpmodel)
    (xvarname : string) (xsweep : list Q) (zvarname : string) (zsweep : list Q)
    (yvarname : string) (ylimits : list Q)
    (vref : option Q) (vrefname : option string)
    (href : option Q) (hrefname : option string)
    (ax : plotting.axes) (model' : plotting.gpmodel) :
  plotting.poor_mans_contour solve model xvarname xsweep zvarname zsweep
    yvarname ylimits vref vrefname href hrefname = OK (ax, model') ->
  plotting.legend_handles ax = plotting.lines ax /\
  length (plotting.lines ax)
  = (length zsweep + (if plotting.truthy vref then 1 else 0)
     + (if plotting.truthy href then 1 else 0))%nat /\
  map plotting.line_label (take (length zsweep) (plotting.lines ax))
  = map (plotting.SweepLabel zvarname) zsweep /\
  Forall (fun l => exists name, plotting.line_label l = plotting.RefLabel name)
         (drop (length zsweep) (plotting.lines ax)) /\
  Forall (fun l => length (plotting.xdata l) = length (plotting.ydata l))
         (take (length zsweep) (plotting.lines ax)) /\
  (exists y0 y1, ylimits !! 0%nat = Some y0 /\ ylimits !! 1%nat = Some y1 /\
                 plotting.set_ylim ax = Some (y0, y1)) /\
  plotting.grid_calls ax = 1%nat.
Proof.
  intros H.
  apply poor_mans_contour_inv in H
    as (x_old & z_old & m1 & ax1 & ls1 & xd & yd & y0 & y1 & ax3 & ls3
        & _ & _ & Hloop & _ & _ & _ & Hy0 & Hy1 & Href & ->).
  apply sweep_loop_lines in Hloop
    as (new & Hl1 & Hls1 & Hlab & Hlen & _ & _ & _ & _ & Hg1).
  cbn [plotting.lines plotting.grid_calls plotting.new_axes app] in Hl1, Hls1, Hg1.
  subst ls1. cbv zeta in Href.
  apply reference_lines in Href
    as (refs & Hl3 & -> & Hn & Hrefs & _ & _ & _ & _ & Hlim & Hg3).
  cbn [plotting.lines plotting.set_ylim plotting.grid_calls] in Hl3, Hlim, Hg3.
  cbn [plotting.lines plotting.legend_handles plotting.grid_calls plotting.set_ylim].
  rewrite Hl3, Hl1, Hg3, Hg1.
  assert (Hnew : length new = length zsweep).
  { rewrite <- (length_map plotting.line_label), Hlab. apply length_map. }
  rewrite <- Hnew, take_app_length, drop_app_length, length_app, Hn.
  repeat split; try assumption; try lia.
  exists y0, y1. repeat split; try assumption.
  - exact (getitem_lookup ylimits 0 y0 ltac:(lia) Hy0).
  - exact (getitem_lookup ylimits 1 y1 ltac:(lia) Hy1).
Qed.

Lemma contour_lines_witness :
  exists ax model',
    example_contour = OK (ax, model') /\
    plotting.legend_handles ax = plotting.lines ax /\
    length (plotting.lines ax) = 2%nat /\
    map plotting.line_label (plotting.lines ax)
    = [plotting.SweepLabel "S" 20; plotting.SweepLabel "S" 25] /\
    plotting.grid_calls ax = 1%nat.
Proof.
  destruct example_contour as [[ax model']|e] eqn:E.
  - exists ax, model'. split; [reflexivity|].
    destruct (contour_lines example_solve example_gpmodel
                "V" [10; 20; 30]%Q "S" [20; 25]%Q "W" [0; 5]%Q None None None None
                ax model' E)
      as (Hleg & Hlen & Hlab & _ & _ & _ & Hgrid).
    split; [exact Hleg|]. split; [exact Hlen|]. split; [|exact Hgrid].
    cbn [length plotting.truthy Nat.add] in Hlen.
    rewrite <- (take_ge (plotting.lines ax) 2) by lia. exact Hlab.
  - vm_compute in E. discriminate.
Defined.

(** X23: a reference value of zero draws nothing.  The reference lines
    are guarded by the truth of the value, so a vertical or horizontal
    reference at 0 gives exactly the result of a call without that
    reference. *)
Theorem zero_reference_not_drawn
    (solve : plotting.gpmodel -> result (plotting.sweepsol * plotting.gpmodel))
    (model : plotting.gpmodel)
    (xvarname : string) (xsweep : list Q) (zvarname : string) (zsweep : list Q)
    (yvarname : string) (ylimits : list Q)
    (v h : Q) (vrefname hrefname : option string) :
  Qnum v = 0%Z -> Qnum h = 0%Z ->
  plotting.poor_mans_contour solve model xvarname xsweep zvarname zsweep
    yvarname ylimits (Some v) vrefname (Some h) hrefname
  = plotting.poor_mans_contour solve model xvarname xsweep zvarname zsweep
      yvarname ylimits None vrefname None hrefname.
Proof.
  intros Hv Hh. unfold plotting.poor_mans_contour.
  assert (Tv : plotting.truthy (Some v) = false).
  { unfold plotting.truthy, plotting.is_zero. now rewrite Hv. }
  assert (Th : plotting.truthy (Some h) = false).
  { unfold plotting.truthy, plotting.is_zero. now rewrite Hh. }
  rewrite Tv, Th. reflexivity.
Qed.

Lemma zero_reference_not_drawn_witness :
  plotting.poor_mans_contour example_solve example_gpmodel
    "V" [10; 20; 30]%Q "S" [20; 25]%Q "W" [0; 5]%Q (Some 0%Q) None (Some 0%Q) None
  = example_contour.
Proof.
  apply (zero_reference_not_drawn example_solve example_gpmodel
           "V" [10; 20; 30]%Q "S" [20; 25]%Q "W" [0; 5]%Q 0%Q 0%Q None None);
    reflexivity.
Defined.

(** X24: what a successful call needs of its arguments.  [ylimits] has at
    least two entries; with a vertical reference drawn it has exactly two
    (it is plotted against the two x values of the reference); with a
    horizontal reference drawn [xsweep] is not empty; and the model
    describes the x and the y variable when the sweeps are done. *)
Theorem contour_argument_bounds
    (solve : plotting.gpmodel -> result (plotting.sweepsol * plotting.gpmodel))
    (model : plotting.gpmodel)
    (xvarname : string) (xsweep : list Q) (zvarname : string) (zsweep : list Q)
    (yvarname : string) (ylimits : list Q)
    (vref : option Q) (vrefname : option string)
    (href : option Q) (hrefname : option string)
    (ax : plotting.axes) (model' : plotting.gpmodel) :
  plotting.poor_mans_contour solve model xvarname xsweep zvarname zsweep
    yvarname ylimits vref vrefname href hrefname = OK (ax, model') ->
  (2 <= length ylimits)%nat /\
  (plotting.truthy vref = true -> length ylimits = 2%nat) /\
  (plotting.truthy href = true -> xsweep <> []) /\
  is_Some (plotting.variables model' !! xvarname) /\
  is_Some (plotting.variables model' !! yvarname) /\
  plotting.xlabel ax
  = (fun d => (plotting.label d, plotting.units d))
      <$> plotting.variables model' !! xvarname /\
  plotting.ylabel ax
  = (fun d => (plotting.label d, plotting.units d))
      <$> plotting.variables model' !! yvarname.
Proof.
  intros H.
  apply poor_mans_contour_inv in H
    as (x_old & z_old & m1 & ax1 & ls1 & xd & yd & y0 & y1 & ax3 & ls3
        & _ & _ & _ & -> & Hxd & Hyd & _ & Hy1 & Href & ->).
  cbv zeta in Href.
  apply reference_lines in Href
    as (refs & _ & _ & _ & _ & Hv & Hh & Hxl & Hyl & _).
  cbn [plotting.xlabel plotting.ylabel] in Hxl, Hyl.
  cbn [plotting.update plotting.variables plotting.xlabel plotting.ylabel].
  rewrite Hxd, Hyd, Hxl, Hyl.
  apply getitem_lookup in Hy1; [|lia]. apply lookup_lt_Some in Hy1.
  change (Z.to_nat 1) with 1%nat in Hy1.
  repeat split; try assumption; try lia; eauto.
Qed.

Lemma contour_argument_bounds_witness :
  exists ax model',
    example_contour = OK (ax, model') /\
    plotting.xlabel ax = Some ("speed", "m/s") /\
    plotting.ylabel ax = Some ("weight", "lbf").
Proof.
  destruct example_contour as [[ax model']|e] eqn:E.
  - exists ax, model'. split; [reflexivity|].
    destruct (contour_argument_bounds example_solve example_gpmodel
                "V" [10; 20; 30]%Q "S" [20; 25]%Q "W" [0; 5]%Q None None None None
                ax model' E)
      as (_ & _ & _ & _ & _ & Hx & Hy).
    rewrite Hx, Hy. vm_compute in E. injection E as <- <-.
    split; vm_compute; reflexivity.
  - vm_compute in E. discriminate.
Defined.

(** X25: a failing solve stops the call.  With both substitutions present
    the solver is first called on the model with the x variable set to the
    sweep and the z variable set to the first value of [zsweep]; if that
    solve raises, the call raises the same exception, before the
    substitutions are put back and before anything is formatted. *)
Theorem first_solve_failure_propagates
    (solve : plotting.gpmodel -> result (plotting.sweepsol * plotting.gpmodel))
    (model : plotting.gpmodel)
    (xvarname : string) (xsweep : list Q) (zvarname : string)
    (val : Q) (zsweep : list Q)
    (yvarname : string) (ylimits : list Q)
    (vref : option Q) (vrefname : option string)
    (href : option Q) (hrefname : option string) (e : exn) :
  is_Some (plotting.substitutions model !! xvarname) ->
  is_Some (plotting.substitutions model !! zvarname) ->
  solve (plotting.update (plotting.update model xvarname (plotting.Sweep xsweep))
                         zvarname (plotting.Fixed val)) = Raise e ->
  plotting.poor_mans_contour solve model xvarname xsweep zvarname (val :: zsweep)
    yvarname ylimits vref vrefname href hrefname = Raise e.
Proof.
  intros [x_old Hx] [z_old Hz] Hsolve.
  unfold plotting.poor_mans_contour, plotting.dict_get.
  rewrite Hx, Hz, !bind_OK. cbn [for_]. unfold plotting.sweep_step.
  cbv beta iota zeta. rewrite Hsolve. reflexivity.
Qed.

Lemma first_solve_failure_propagates_witness :
  plotting.poor_mans_contour (fun _ => Raise SolverFailure) example_gpmodel
    "V" [10; 20; 30]%Q "S" [20; 25]%Q "W" [0; 5]%Q None None None None
  = Raise SolverFailure.
Proof.
  apply (first_solve_failure_propagates (fun _ => Raise SolverFailure)
           example_gpmodel "V" [10; 20; 30]%Q "S" 20%Q [25]%Q).
  - vm_compute. eauto.
  - vm_compute. eauto.
  - reflexivity.
Defined.
